(** * listen: UI formatting helpers, build manifest and the ingestion pipeline

    The development follows the repository:
    - [JS]: the JavaScript values the TypeScript sources compute with
      (UTF-16 strings, binary64 numbers, [String.prototype.includes],
      the regular expression [/{.*}/], [JSON.parse], [JSON.stringify],
      [Number.prototype.toFixed]);
    - [PipelineStep]: [renderStatus], [formatError] and [TransactionLink];
    - [Dexscreener]: [formatNumber];
    - [Manifest]: the features, dependencies and binary targets of
      listen-data/Cargo.toml;
    - [Pipeline]: the ingestion-decode-sink pipeline;
    - [React], [StepContainer], [DexscreenerTable], [DelegateButton]: the
      trees of [PipelineStepContainer], [DexscreenerDisplay] and
      [DelegateActionButton], and the handlers of the latter. *)

From Stdlib Require Import ZArith NArith Bool Ascii String SpecFloat.
From Stdlib Require DecimalFacts DecimalN.
From stdpp Require Import base option list gmap.

Set Warnings "-register-all".
Local Open Scope Z_scope.

(* ===================================================================== *)
(** * JavaScript strings *)
(* ===================================================================== *)

Module JS.

(** A JavaScript string is a sequence of UTF-16 code units. *)
Definition code_unit := N.
Definition jsstring := list code_unit.

(** Source-text literals: every character of the sources used here is
    ASCII, so a literal is the list of its character codes. *)
Fixpoint lit (s : string) : jsstring :=
  match s with
  | EmptyString => []
  | String c s' => N_of_ascii c :: lit s'
  end.

Definition unit_eqb (a b : code_unit) : bool := N.eqb a b.

Fixpoint jsstring_eqb (a b : jsstring) : bool :=
  match a, b with
  | [], [] => true
  | x :: a', y :: b' => unit_eqb x y && jsstring_eqb a' b'
  | _, _ => false
  end.

(** [s.startsWith(p)] *)
Fixpoint startsWith (s p : jsstring) {struct p} : bool :=
  match p, s with
  | [], _ => true
  | _ :: _, [] => false
  | x :: p', y :: s' => unit_eqb x y && startsWith s' p'
  end.

(** [s.includes(p)]: [p] occurs in [s] at some position. *)
Fixpoint includes (s p : jsstring) : bool :=
  startsWith s p ||
  match s with
  | [] => false
  | _ :: s' => includes s' p
  end.

(** [s.slice(0, n)] for a non-negative literal [n]. *)
Definition slice_head (n : nat) (s : jsstring) : jsstring := take n s.

(** [s.slice(-n)] for a positive literal [n]: the final [n] code units,
    the whole string when it is shorter. *)
Definition slice_tail (n : nat) (s : jsstring) : jsstring :=
  drop (length s - n)%nat s.

(** ** The regular expression of [formatError]

    A pattern is a sequence of items; an item matches one code unit of
    a class, or greedily any number of them ([*]).  [match_here] is the
    backtracking matcher of ECMAScript restricted to these items: a
    starred item first takes one more unit and gives it back only when
    the rest of the pattern fails. *)
Inductive item :=
  | One (cls : code_unit -> bool)
  | Many (cls : code_unit -> bool).

Fixpoint match_here (p : list item) (s : jsstring) : option jsstring :=
  match p with
  | [] => Some []
  | One cls :: p' =>
      match s with
      | c :: s' => if cls c then cons c <$> match_here p' s' else None
      | [] => None
      end
  | Many cls :: p' =>
      (fix star (s : jsstring) : option jsstring :=
         match s with
         | c :: s' =>
             if cls c then
               match star s' with
               | Some m => Some (c :: m)
               | None => match_here p' s
               end
             else match_here p' s
         | [] => match_here p' s
         end) s
  end.

(** [s.match(re)] for a pattern without the [g] flag: the text matched
    at the leftmost position where the pattern matches ([match[0]]),
    [None] for [null]. *)
Fixpoint regex_match (p : list item) (s : jsstring) : option jsstring :=
  match match_here p s with
  | Some m => Some m
  | None =>
      match s with
      | [] => None
      | _ :: s' => regex_match p s'
      end
  end.

Definition lbrace : code_unit := 123%N.
Definition rbrace : code_unit := 125%N.

(** LineTerminator: LF, CR, U+2028, U+2029. *)
Definition is_line_terminator (c : code_unit) : bool :=
  N.eqb c 10 || N.eqb c 13 || N.eqb c 8232 || N.eqb c 8233.

(** [.] without the [s] flag. *)
Definition dot (c : code_unit) : bool := negb (is_line_terminator c).

(** [/{.*}/] *)
Definition braces_re : list item :=
  [One (unit_eqb lbrace); Many dot; One (unit_eqb rbrace)].

(* ===================================================================== *)
(** * JavaScript numbers *)
(* ===================================================================== *)

(** A Number is an IEEE 754 binary64 value; [spec_float] is the
    Standard Library's specification of it (53 bits of precision,
    exponents below 1024), with one NaN. *)
Definition number := spec_float.
Definition prec : Z := 53.
Definition emax : Z := 1024.

Definition NaN : number := S754_nan.
Definition Infinity : number := S754_infinity false.

(** The Number value of the rational [p/q], signed by [neg]: rounded to
    nearest, ties to even. *)
Definition number_of_ratio (neg : bool) (p q : positive) : number :=
  let '(mz, ez, lz) := SFdiv_core_binary prec emax (Zpos p) 0 (Zpos q) 0 in
  binary_round_aux prec emax neg mz ez lz.

(** The Number value of the decimal [m * 10^e], signed by [neg]. *)
Definition number_of_decimal (neg : bool) (m : N) (e : Z) : number :=
  match m with
  | N0 => S754_zero neg
  | Npos p =>
      match e with
      | Zneg d => number_of_ratio neg p (Pos.pow 10 d)
      | _ => binary_round prec emax neg (p * Z.to_pos (10 ^ e))%positive 0
      end
  end.

(** The Number value of an integer literal. *)
Definition number_of_Z (z : Z) : number := binary_normalize prec emax z 0 false.

(** [x / y] *)
Definition div (x y : number) : number := SFdiv prec emax x y.

(** [x >= y]: false as soon as one side is NaN. *)
Definition ge (x y : number) : bool := SFleb y x.

Definition is_finite (x : number) : bool :=
  match x with
  | S754_zero _ | S754_finite _ _ _ => true
  | _ => false
  end.

(** The real value of a positive finite Number [m * 2^e] as a fraction
    of integers (numerator, denominator). *)
Definition ratio_of (m : positive) (e : Z) : Z * Z :=
  match e with
  | Zneg d => (Zpos m, Zpos (Pos.pow 2 d))
  | _ => (Zpos m * 2 ^ e, 1)
  end.

(** ** Decimal digits *)

Definition zero_unit : code_unit := 48%N.

Fixpoint units_of_uint (d : Decimal.uint) : jsstring :=
  match d with
  | Decimal.Nil => []
  | Decimal.D0 d => 48%N :: units_of_uint d
  | Decimal.D1 d => 49%N :: units_of_uint d
  | Decimal.D2 d => 50%N :: units_of_uint d
  | Decimal.D3 d => 51%N :: units_of_uint d
  | Decimal.D4 d => 52%N :: units_of_uint d
  | Decimal.D5 d => 53%N :: units_of_uint d
  | Decimal.D6 d => 54%N :: units_of_uint d
  | Decimal.D7 d => 55%N :: units_of_uint d
  | Decimal.D8 d => 56%N :: units_of_uint d
  | Decimal.D9 d => 57%N :: units_of_uint d
  end.

(** The decimal representation of a non-negative integer, ["0"] for zero. *)
Definition digits_of_N (n : N) : jsstring := units_of_uint (N.to_uint n).

Definition zeros (n : nat) : jsstring := replicate n zero_unit.

(** ** Number::toString

    For a positive finite [x], ECMAScript takes integers [n], [k], [s]
    with [k >= 1], [10^(k-1) <= s < 10^k], [s * 10^(n-k)] rounding to
    [x], and [k] minimal; among several [s] the one closest to [x],
    the even one on a tie. *)

(** [10^n <= num/den], for any integer [n]. *)
Definition pow10_le (n : Z) (num den : Z) : bool :=
  match n with
  | Zneg d => den <=? num * Zpos (Pos.pow 10 d)
  | _ => 10 ^ n * den <=? num
  end.

(** The [n] with [10^(n-1) <= num/den < 10^n], looked for around the
    estimate given by the binary logarithm. *)
Definition decimal_point (num den : Z) : Z :=
  let b := Z.log2 num - Z.log2 den in
  let est := b * 30103 / 100000 in
  let fix search (fuel : nat) (n : Z) : Z :=
    match fuel with
    | O => n
    | S fuel' => if pow10_le n num den then search fuel' (n + 1) else n
    end in
  search 6%nat (est - 2).

(** [floor (num/den / 10^j)] *)
Definition scale_floor (num den : Z) (j : Z) : Z :=
  match j with
  | Zneg d => num * Zpos (Pos.pow 10 d) / den
  | _ => num / (den * 10 ^ j)
  end.

(** Is [s * 10^j] nearer to [num/den] than [s' * 10^j], for [s <= num/den
    / 10^j <= s']?  Compared through the doubled midpoint. *)
Definition nearer_low (num den : Z) (s s' j : Z) : comparison :=
  match j with
  | Zneg d => (2 * num * Zpos (Pos.pow 10 d)) ?= ((s + s') * den)
  | _ => (2 * num) ?= ((s + s') * 10 ^ j * den)
  end.

Record digits := { dg_s : Z; dg_k : Z; dg_n : Z }.

(** The candidate with [k] digits above or below [x], when it rounds to [x]. *)
Definition candidate (x : number) (s k n : Z) : option digits :=
  let '(s, n) := if s =? 10 ^ k then (10 ^ (k - 1), n + 1) else (s, n) in
  match number_of_decimal false (Z.to_N s) (n - k) with
  | S754_finite false m e =>
      match x with
      | S754_finite _ m' e' =>
          if Pos.eqb m m' && Z.eqb e e' then Some {| dg_s := s; dg_k := k; dg_n := n |}
          else None
      | _ => None
      end
  | _ => None
  end.

Definition shortest_at (x : number) (num den : Z) (n k : Z) : option digits :=
  let lo := scale_floor num den (n - k) in
  match candidate x lo k n, candidate x (lo + 1) k n with
  | Some a, Some b =>
      match nearer_low num den lo (lo + 1) (n - k) with
      | Lt => Some a
      | Gt => Some b
      | Eq => if Z.even lo then Some a else Some b
      end
  | Some a, None => Some a
  | None, Some b => Some b
  | None, None => None
  end.

Fixpoint shortest_from (fuel : nat) (x : number) (num den : Z) (n k : Z) : option digits :=
  match fuel with
  | O => None
  | S fuel' =>
      match shortest_at x num den n k with
      | Some d => Some d
      | None => shortest_from fuel' x num den n (k + 1)
      end
  end.

(** Seventeen significant digits identify every binary64 value. *)
Definition shortest_digits (m : positive) (e : Z) : option digits :=
  let '(num, den) := ratio_of m e in
  shortest_from 17%nat (S754_finite false m e) num den (decimal_point num den) 1.

Definition digits_of_Z (z : Z) : jsstring := digits_of_N (Z.to_N z).

Definition format_digits (d : digits) : jsstring :=
  let s := digits_of_Z (dg_s d) in
  let k := dg_k d in
  let n := dg_n d in
  if (k <=? n) && (n <=? 21) then s ++ zeros (Z.to_nat (n - k))
  else if (0 <? n) && (n <=? 21) then
    take (Z.to_nat n) s ++ lit "." ++ drop (Z.to_nat n) s
  else if (-6 <? n) && (n <=? 0) then
    lit "0." ++ zeros (Z.to_nat (- n)) ++ s
  else
    let ex := (if n - 1 <? 0 then lit "-" else lit "+") ++ digits_of_Z (Z.abs (n - 1)) in
    if k =? 1 then s ++ lit "e" ++ ex
    else take 1 s ++ lit "." ++ drop 1 s ++ lit "e" ++ ex.

(** [String(x)], [x.toString()] *)
Definition Number_toString (x : number) : jsstring :=
  match x with
  | S754_nan => lit "NaN"
  | S754_zero _ => lit "0"
  | S754_infinity s => (if s then lit "-" else []) ++ lit "Infinity"
  | S754_finite s m e =>
      (if s then lit "-" else []) ++
      match shortest_digits m e with
      | Some d => format_digits d
      | None => []
      end
  end.

(** ** Number.prototype.toFixed *)

(** The integer [n] for which [n / 10^f] is nearest to [num/den]; the
    larger one when two are equally near. *)
Definition nearest_scaled (num den : Z) (f : nat) : Z :=
  (2 * num * 10 ^ Z.of_nat f + den) / (2 * den).

(** [10^21 <= num/den] *)
Definition at_least_1e21 (num den : Z) : bool := 10 ^ 21 * den <=? num.

(** Steps 9 to 11 of the algorithm: the digits of [n] with a point
    before the last [f] of them, padded with zeros to [f + 1] digits. *)
Definition fixed_point (n : Z) (f : nat) : jsstring :=
  let m := digits_of_Z n in
  match f with
  | O => m
  | _ =>
      let m := zeros (S f - length m) ++ m in
      let k := length m in
      take (k - f) m ++ lit "." ++ drop (k - f) m
  end.

Definition toFixed (x : number) (f : nat) : jsstring :=
  match x with
  | S754_nan | S754_infinity _ => Number_toString x
  | S754_zero _ => fixed_point 0 f
  | S754_finite s m e =>
      let '(num, den) := ratio_of m e in
      (if s then lit "-" else []) ++
      (if at_least_1e21 num den then Number_toString (S754_finite false m e)
       else fixed_point (nearest_scaled num den f) f)
  end.

(* ===================================================================== *)
(** * JSON *)
(* ===================================================================== *)

(** The values [JSON.parse] produces.  An object lists its own
    properties in creation order; keys are unique. *)
Inductive json :=
  | JNull
  | JBool (b : bool)
  | JNumber (x : number)
  | JString (s : jsstring)
  | JArray (l : list json)
  | JObject (props : list (jsstring * json)).

(** CreateDataProperty: a new key goes last, an existing key keeps its
    place and takes the new value. *)
Fixpoint obj_set (k : jsstring) (v : json) (props : list (jsstring * json))
  : list (jsstring * json) :=
  match props with
  | [] => [(k, v)]
  | (k', v') :: props' =>
      if jsstring_eqb k k' then (k', v) :: props'
      else (k', v') :: obj_set k v props'
  end.

Fixpoint obj_get (k : jsstring) (props : list (jsstring * json)) : option json :=
  match props with
  | [] => None
  | (k', v') :: props' => if jsstring_eqb k k' then Some v' else obj_get k props'
  end.

(** [v.k] and [v?.k] on a parsed value, [None] for [undefined].  Only
    objects carry the keys looked up here: no prototype of a JSON value
    defines them. *)
Definition get_prop (v : json) (k : jsstring) : option json :=
  match v with
  | JObject props => obj_get k props
  | _ => None
  end.

(** ToBoolean; [None] is [undefined]. *)
Definition truthy (v : option json) : bool :=
  match v with
  | None => false
  | Some JNull => false
  | Some (JBool b) => b
  | Some (JNumber x) =>
      match x with
      | S754_zero _ | S754_nan => false
      | _ => true
      end
  | Some (JString s) => match s with [] => false | _ => true end
  | Some (JArray _) | Some (JObject _) => true
  end.

(** ** JSON.parse *)

Inductive parse_result (A : Type) :=
  | Parsed (a : A) (rest : jsstring)
  | SyntaxError
  | OutOfFuel.
Arguments Parsed {A} a rest.
Arguments SyntaxError {A}.
Arguments OutOfFuel {A}.

Definition is_ws (c : code_unit) : bool :=
  N.eqb c 9 || N.eqb c 10 || N.eqb c 13 || N.eqb c 32.

Fixpoint skip_ws (s : jsstring) : jsstring :=
  match s with
  | c :: s' => if is_ws c then skip_ws s' else s
  | [] => []
  end.

Definition is_digit (c : code_unit) : bool := (48 <=? c)%N && (c <=? 57)%N.

(** The leading decimal digits of [s], as digit values, and what follows. *)
Fixpoint take_digits (s : jsstring) : list N * jsstring :=
  match s with
  | c :: s' =>
      if is_digit c then
        let '(ds, r) := take_digits s' in ((c - 48)%N :: ds, r)
      else ([], s)
  | [] => ([], [])
  end.

Definition N_of_digits (ds : list N) : N :=
  fold_left (fun acc d => (10 * acc + d)%N) ds 0%N.

Definition hex_value (c : code_unit) : option N :=
  if is_digit c then Some (c - 48)%N
  else if (97 <=? c)%N && (c <=? 102)%N then Some (c - 87)%N
  else if (65 <=? c)%N && (c <=? 70)%N then Some (c - 55)%N
  else None.

Definition hex4_value (a b c d : code_unit) : option code_unit :=
  match hex_value a, hex_value b, hex_value c, hex_value d with
  | Some a, Some b, Some c, Some d => Some (((a * 16 + b) * 16 + c) * 16 + d)%N
  | _, _, _, _ => None
  end.

(** The character an escape letter stands for. *)
Definition escape_char (c : code_unit) : option code_unit :=
  if N.eqb c 34 then Some 34%N          (* quotation mark *)
  else if N.eqb c 92 then Some 92%N     (* reverse solidus *)
  else if N.eqb c 47 then Some 47%N     (* solidus *)
  else if N.eqb c 98 then Some 8%N      (* b *)
  else if N.eqb c 102 then Some 12%N    (* f *)
  else if N.eqb c 110 then Some 10%N    (* n *)
  else if N.eqb c 114 then Some 13%N    (* r *)
  else if N.eqb c 116 then Some 9%N     (* t *)
  else None.

(** A string body, after its opening quotation mark, up to and
    including the closing one. *)
Fixpoint parse_string (s : jsstring) : option (jsstring * jsstring) :=
  match s with
  | [] => None
  | c :: s1 =>
      if N.eqb c 34 then Some ([], s1)
      else if N.eqb c 92 then
        match s1 with
        | [] => None
        | e :: s2 =>
            if N.eqb e 117 then
              match s2 with
              | h1 :: h2 :: h3 :: h4 :: s6 =>
                  match hex4_value h1 h2 h3 h4 with
                  | Some u =>
                      match parse_string s6 with
                      | Some (str, r) => Some (u :: str, r)
                      | None => None
                      end
                  | None => None
                  end
              | _ => None
              end
            else
              match escape_char e with
              | Some u =>
                  match parse_string s2 with
                  | Some (str, r) => Some (u :: str, r)
                  | None => None
                  end
              | None => None
              end
        end
      else if (c <? 32)%N then None
      else
        match parse_string s1 with
        | Some (str, r) => Some (c :: str, r)
        | None => None
        end
  end.

(** The fraction of a number: a point followed by at least one digit. *)
Definition parse_frac (s : jsstring) : option (list N * jsstring) :=
  match s with
  | c :: s' =>
      if N.eqb c 46 then
        match take_digits s' with
        | ([], _) => None
        | (ds, r) => Some (ds, r)
        end
      else Some ([], s)
  | [] => Some ([], s)
  end.

(** The exponent of a number: [e] or [E], an optional sign, at least
    one digit. *)
Definition parse_exp (s : jsstring) : option (Z * jsstring) :=
  match s with
  | c :: s' =>
      if N.eqb c 101 || N.eqb c 69 then
        let '(neg, s'') :=
          match s' with
          | g :: t => if N.eqb g 45 then (true, t)
                      else if N.eqb g 43 then (false, t) else (false, s')
          | [] => (false, s')
          end in
        match take_digits s'' with
        | ([], _) => None
        | (ds, r) =>
            let e := Z.of_N (N_of_digits ds) in
            Some (if neg then - e else e, r)
        end
      else Some (0, s)
  | [] => Some (0, s)
  end.

(** The integer part: a single zero, or a non-zero digit and more digits. *)
Definition parse_int (s : jsstring) : option (list N * jsstring) :=
  match s with
  | c :: s' =>
      if N.eqb c 48 then Some ([0%N], s')
      else if is_digit c then Some (take_digits s)
      else None
  | [] => None
  end.

Definition parse_number (s : jsstring) : option (number * jsstring) :=
  let '(neg, s1) :=
    match s with
    | c :: s' => if N.eqb c 45 then (true, s') else (false, s)
    | [] => (false, s)
    end in
  match parse_int s1 with
  | None => None
  | Some (ip, s2) =>
      match parse_frac s2 with
      | None => None
      | Some (fp, s3) =>
          match parse_exp s3 with
          | None => None
          | Some (e, s4) =>
              Some (number_of_decimal neg (N_of_digits (ip ++ fp))
                      (e - Z.of_nat (length fp)), s4)
          end
      end
  end.

Definition parse_word (w : string) (v : json) (s : jsstring) : parse_result json :=
  if startsWith s (lit w) then Parsed v (drop (String.length w) s) else SyntaxError.

(** Values, array elements and object members of the JSON grammar.
    Each nested call takes one unit of fuel; [JSON_parse] gives enough
    for every text. *)
Fixpoint parse_value (fuel : nat) (s : jsstring) : parse_result json :=
  match fuel with
  | O => OutOfFuel
  | S fuel' =>
      match skip_ws s with
      | [] => SyntaxError
      | c :: s' =>
          if N.eqb c 91 then
            match skip_ws s' with
            | d :: r => if N.eqb d 93 then Parsed (JArray []) r
                        else parse_elements fuel' s' []
            | [] => SyntaxError
            end
          else if N.eqb c 123 then
            match skip_ws s' with
            | d :: r => if N.eqb d 125 then Parsed (JObject []) r
                        else parse_members fuel' s' []
            | [] => SyntaxError
            end
          else if N.eqb c 34 then
            match parse_string s' with
            | Some (str, r) => Parsed (JString str) r
            | None => SyntaxError
            end
          else if N.eqb c 116 then parse_word "true" (JBool true) (c :: s')
          else if N.eqb c 102 then parse_word "false" (JBool false) (c :: s')
          else if N.eqb c 110 then parse_word "null" JNull (c :: s')
          else
            match parse_number (c :: s') with
            | Some (x, r) => Parsed (JNumber x) r
            | None => SyntaxError
            end
      end
  end
with parse_elements (fuel : nat) (s : jsstring) (acc : list json) : parse_result json :=
  match fuel with
  | O => OutOfFuel
  | S fuel' =>
      match parse_value fuel' s with
      | Parsed v r =>
          match skip_ws r with
          | d :: r' =>
              if N.eqb d 44 then parse_elements fuel' r' (acc ++ [v])
              else if N.eqb d 93 then Parsed (JArray (acc ++ [v])) r'
              else SyntaxError
          | [] => SyntaxError
          end
      | SyntaxError => SyntaxError
      | OutOfFuel => OutOfFuel
      end
  end
with parse_members (fuel : nat) (s : jsstring) (acc : list (jsstring * json))
  : parse_result json :=
  match fuel with
  | O => OutOfFuel
  | S fuel' =>
      match skip_ws s with
      | q :: s1 =>
          if N.eqb q 34 then
            match parse_string s1 with
            | Some (k, s2) =>
                match skip_ws s2 with
                | c :: s3 =>
                    if N.eqb c 58 then
                      match parse_value fuel' s3 with
                      | Parsed v r =>
                          match skip_ws r with
                          | d :: r' =>
                              if N.eqb d 44 then parse_members fuel' r' (obj_set k v acc)
                              else if N.eqb d 125 then Parsed (JObject (obj_set k v acc)) r'
                              else SyntaxError
                          | [] => SyntaxError
                          end
                      | SyntaxError => SyntaxError
                      | OutOfFuel => OutOfFuel
                      end
                    else SyntaxError
                | [] => SyntaxError
                end
            | None => SyntaxError
            end
          else SyntaxError
      | [] => SyntaxError
      end
  end.

Definition parse_fuel (s : jsstring) : nat := S (2 * length s).

(** [JSON.parse(text)]: the value of the text, which must be one JSON
    value between optional white space; [None] when a SyntaxError is
    thrown. *)
Definition JSON_parse (s : jsstring) : option json :=
  match parse_value (parse_fuel s) s with
  | Parsed v r => match skip_ws r with [] => Some v | _ => None end
  | _ => None
  end.

(** ** JSON.stringify *)

Definition hex_digit (n : N) : code_unit :=
  if (n <? 10)%N then (48 + n)%N else (87 + n)%N.

(** [\uXXXX] with lower-case hexadecimal digits. *)
Definition unicode_escape (c : code_unit) : jsstring :=
  [92%N; 117%N;
   hex_digit (c / 4096 mod 16); hex_digit (c / 256 mod 16);
   hex_digit (c / 16 mod 16); hex_digit (c mod 16)]%N.

Definition is_high_surrogate (c : code_unit) : bool := (55296 <=? c)%N && (c <=? 56319)%N.
Definition is_low_surrogate (c : code_unit) : bool := (56320 <=? c)%N && (c <=? 57343)%N.

(** One code unit that is not half of a surrogate pair. *)
Definition quote_unit (c : code_unit) : jsstring :=
  if N.eqb c 8 then lit "\b"
  else if N.eqb c 9 then lit "\t"
  else if N.eqb c 10 then lit "\n"
  else if N.eqb c 12 then lit "\f"
  else if N.eqb c 13 then lit "\r"
  else if N.eqb c 34 then [92%N; 34%N]
  else if N.eqb c 92 then [92%N; 92%N]
  else if (c <? 32)%N || is_high_surrogate c || is_low_surrogate c then unicode_escape c
  else [c].

(** The body of QuoteJSONString: code points are escaped one by one, a
    surrogate pair is kept as it is. *)
Fixpoint quote_units (s : jsstring) : jsstring :=
  match s with
  | [] => []
  | c :: s1 =>
      match s1 with
      | d :: s2 =>
          if is_high_surrogate c && is_low_surrogate d then c :: d :: quote_units s2
          else quote_unit c ++ quote_units s1
      | [] => quote_unit c
      end
  end.

Definition quote (s : jsstring) : jsstring := [34%N] ++ quote_units s ++ [34%N].

Fixpoint join_comma (l : list jsstring) : jsstring :=
  match l with
  | [] => []
  | [x] => x
  | x :: l' => x ++ [44%N] ++ join_comma l'
  end.

(** An array index is the canonical decimal form of an integer below
    [2^32 - 1]. *)
Definition array_index (k : jsstring) : option N :=
  match k with
  | [] => None
  | c :: k' =>
      if forallb is_digit k && (negb (N.eqb c 48) || match k' with [] => true | _ => false end)
      then
        let n := N_of_digits (map (fun c => c - 48)%N k) in
        if (n <? 4294967295)%N then Some n else None
      else None
  end.

Fixpoint insert_index {A} (n : N) (x : A) (l : list (N * A)) : list (N * A) :=
  match l with
  | [] => [(n, x)]
  | (m, y) :: l' => if (n <? m)%N then (n, x) :: l else (m, y) :: insert_index n x l'
  end.

(** OrdinaryOwnPropertyKeys: array indices in ascending order, then the
    other keys in creation order. *)
Definition own_property_order {A} (props : list (jsstring * A)) : list (jsstring * A) :=
  let indexed :=
    fold_left (fun acc kv =>
                 match array_index (fst kv) with
                 | Some n => insert_index n kv acc
                 | None => acc
                 end) props [] in
  map snd indexed ++
  filter (fun kv => array_index (fst kv) = None) props.

(** [JSON.stringify(v)] for a parsed value, with no replacer and no
    indentation.  A Number that is not finite is written [null]. *)
Fixpoint JSON_stringify (v : json) : jsstring :=
  match v with
  | JNull => lit "null"
  | JBool true => lit "true"
  | JBool false => lit "false"
  | JNumber x => if is_finite x then Number_toString x else lit "null"
  | JString s => quote s
  | JArray l => lit "[" ++ join_comma (List.map JSON_stringify l) ++ lit "]"
  | JObject props =>
      let members := List.map (fun kv => (fst kv, JSON_stringify (snd kv))) props in
      lit "{" ++
      join_comma (List.map (fun kv => quote (fst kv) ++ lit ":" ++ snd kv)
                    (own_property_order members)) ++
      lit "}"
  end.

(** ** The call stack

    [JSON.stringify] serialises an array or an object by recursion over
    what it holds, and the engine throws a RangeError when the recursion
    exhausts its call stack.  At which values that happens is not fixed
    by the language: it depends on the engine and on the stack in use
    at the call.  A string, a number, a boolean and [null] are
    serialised without recursion. *)
Record engine := {
  stack_exhausted : json -> bool
}.

(** [JSON.stringify(v)] in an engine; [None] when the RangeError is
    thrown. *)
Definition JSON_stringify_in (en : engine) (v : json) : option jsstring :=
  match v with
  | JArray _ | JObject _ =>
      if stack_exhausted en v then None else Some (JSON_stringify v)
  | _ => Some (JSON_stringify v)
  end.

(** How deep arrays and objects nest in a value. *)
Fixpoint nesting (v : json) : nat :=
  match v with
  | JArray l => S (fold_right (fun x d => Nat.max (nesting x) d) O l)
  | JObject props => S (fold_right (fun kv d => Nat.max (nesting (snd kv)) d) O props)
  | _ => O
  end.

(** An engine whose stack holds the serialisation of [depth] nested
    arrays and objects and no more. *)
Definition engine_of_depth (depth : nat) : engine :=
  {| stack_exhausted := fun v => (depth <? nesting v)%nat |}.

End JS.

(* ===================================================================== *)
(** * The pipeline step component (src/unnamed/part_000) *)
(* ===================================================================== *)

Module PipelineStep.
Import JS.

(** What a JSX expression evaluates to: an element, a component such as
    [<FaSpinner />], a string, or one of the values React renders as
    nothing. *)
Inductive prop_value :=
  | PString (s : jsstring)
  | PNumber (n : Z).

Inductive node :=
  | Element (tag : string) (props : list (string * prop_value)) (children : list node)
  | Component (name : string) (props : list (string * prop_value))
  | Text (s : jsstring)
  | Null
  | Undefined.

Definition className (c : string) : string * prop_value := ("className"%string, PString (lit c)).

(** [renderStatus]: a [switch] over four cases with no [default]; a
    function that leaves its body without [return] yields [undefined]. *)
Definition renderStatus (status : jsstring) : node :=
  if jsstring_eqb status (lit "Pending") then
    Element "span" [className "text-yellow-300 flex items-center gap-1"]
      [Component "FaSpinner" []; Text (lit " Pending")]
  else if jsstring_eqb status (lit "Completed") then
    Element "span" [className "text-green-300 flex items-center gap-1"]
      [Component "FaCheckCircle" []; Text (lit " Completed")]
  else if jsstring_eqb status (lit "Failed") then
    Element "span" [className "text-red-300 flex items-center gap-1"]
      [Component "FaTimesCircle" []; Text (lit " Failed:")]
  else if jsstring_eqb status (lit "Cancelled") then
    Element "span" [className "text-gray-300 flex items-center gap-1"]
      [Component "FaBan" []; Text (lit " Cancelled")]
  else Undefined.

Section Engine.

(** The engine the component runs in. *)
Context (en : engine).

(** The body of the [try] block of [formatError]; [None] when it
    throws, be it the SyntaxError of [JSON.parse] or the RangeError of
    [JSON.stringify]. *)
Definition formatError_try (error : jsstring) : option jsstring :=
  match regex_match braces_re error with
  | Some m =>
      parsedError ← JSON_parse m;
      match get_prop parsedError (lit "error") with
      | Some e => if truthy (Some e) then JSON_stringify_in en e else Some error
      | None => Some error
      end
  | None => Some error
  end.

Definition formatError (error : jsstring) : jsstring :=
  if includes error (lit "insufficient funds") then lit "Insufficient balance"
  else if includes error (lit "0x1771") then lit "Slippage tolerance exceeded"
  else
    match formatError_try error with
    | Some r => r
    | None => error   (* catch *)
    end.

(** [x && e] for [x : string | null]: [null] and the empty string are
    falsy and are the value of the expression. *)
Definition and_then (x : option jsstring) (e : jsstring -> node) : node :=
  match x with
  | None => Null
  | Some [] => Text []
  | Some s => e s
  end.

Definition tx_href (transactionHash : jsstring) : jsstring :=
  if startsWith transactionHash (lit "0x")
  then lit "https://blockscan.com/tx/" ++ transactionHash
  else lit "https://solscan.io/tx/" ++ transactionHash.

Definition tx_link (transactionHash : jsstring) : node :=
  Element "span" [className "flex items-center gap-1 inline-flex"]
    [Element "a"
       [("href"%string, PString (tx_href transactionHash));
        ("target"%string, PString (lit "_blank"));
        ("rel"%string, PString (lit "noopener noreferrer"));
        className "text-blue-400 hover:text-blue-300 inline-flex items-center gap-1"]
       [Text (slice_head 6 transactionHash); Text (lit "...");
        Text (slice_tail 4 transactionHash);
        Component "FaExternalLinkAlt" [("size"%string, PNumber 10)]]].

Definition error_span (error : jsstring) : node :=
  Element "span" [className "text-red-300 break-all overflow-hidden"]
    [Text (formatError error)].

Definition TransactionLink (status : jsstring)
    (transactionHash error : option jsstring) : node :=
  Element "div"
    [className "text-xs sm:text-sm text-gray-400 flex flex-wrap items-center gap-2 mt-2"]
    [renderStatus status; Text (lit " ");
     and_then transactionHash tx_link;
     and_then error error_span].

End Engine.

(** What React puts in the document for a child: nothing for [null],
    [undefined] and the empty string. *)
Definition renders_nothing (n : node) : bool :=
  match n with
  | Null | Undefined | Text [] => true
  | _ => false
  end.

End PipelineStep.

(* ===================================================================== *)
(** * The Dexscreener table (formatNumber) *)
(* ===================================================================== *)

Module Dexscreener.
Import JS.

Definition n_1e9 : number := number_of_Z 1000000000.
Definition n_1e6 : number := number_of_Z 1000000.
Definition n_1e3 : number := number_of_Z 1000.

Definition formatNumber (num : number) : jsstring :=
  if ge num n_1e9 then lit "$" ++ toFixed (div num n_1e9) 2 ++ lit "B"
  else if ge num n_1e6 then lit "$" ++ toFixed (div num n_1e6) 2 ++ lit "M"
  else if ge num n_1e3 then lit "$" ++ toFixed (div num n_1e3) 2 ++ lit "K"
  else lit "$" ++ toFixed num 2.

End Dexscreener.

(* ===================================================================== *)
(** * The build manifest (src/listen-data/Cargo.toml) *)
(* ===================================================================== *)

Module Manifest.
Local Open Scope string_scope.

Record bin_target := {
  bin_name : string;
  bin_path : string;
  required_features : list string
}.

(** [[features]]: every feature with the features and optional
    dependencies it turns on. *)
Definition features : list (string * list string) :=
  [("default", ["geyser"]);
   ("geyser", ["carbon-yellowstone-grpc-datasource"; "yellowstone-grpc-proto"]);
   ("rpc", ["carbon-rpc-block-subscribe-datasource";
            "carbon-rpc-program-subscribe-datasource";
            "carbon-rpc-transaction-crawler-datasource"])].

(** [[dependencies]]: every dependency of the package, in the order of
    the table, with its [optional] flag. *)
Definition dependencies : list (string * bool) :=
  [("anyhow", false); ("async-trait", false); ("carbon-core", false);
   ("carbon-log-metrics", false); ("carbon-raydium-amm-v4-decoder", false);
   ("ctor", false); ("dotenv", false);
   ("solana-account-decoder", false); ("solana-client", false);
   ("solana-sdk", false); ("solana-transaction-status", false);
   ("tokio", false); ("serde", false); ("reqwest", false); ("redis", false);
   ("serde_json", false); ("mpl-token-metadata", false); ("spl-token", false);
   ("clap", false); ("tracing", false); ("listen-tracing", false);
   ("chrono", false); ("futures-util", false); ("url", false);
   ("once_cell", false); ("tokio-tungstenite", false);
   ("carbon-rpc-block-subscribe-datasource", true);
   ("carbon-rpc-program-subscribe-datasource", true);
   ("carbon-rpc-transaction-crawler-datasource", true);
   ("carbon-yellowstone-grpc-datasource", true);
   ("yellowstone-grpc-proto", true);
   ("clickhouse", false); ("bb8-redis", false); ("thiserror", false);
   ("tracing-subscriber", false)].

(** The dependencies declared [optional = true]: compiled into the
    package only when a selected feature names them. *)
Definition optional_dependencies : list string :=
  List.map fst (List.filter snd dependencies).

(** The [optional] flag of a dependency; [None] for a name that the
    table does not declare. *)
Definition dependency (dep : string) : option bool :=
  match List.find (fun d => String.eqb (fst d) dep) dependencies with
  | Some d => Some (snd d)
  | None => None
  end.

Definition indexer : bin_target :=
  {| bin_name := "indexer"; bin_path := "src/bin/indexer.rs";
     required_features := ["geyser"] |}.

Definition rpc_crawler : bin_target :=
  {| bin_name := "rpc-crawler"; bin_path := "src/bin/rpc_crawler.rs";
     required_features := ["rpc"] |}.

Definition main : bin_target :=
  {| bin_name := "main"; bin_path := "src/main.rs"; required_features := [] |}.

(** [[[bin]]] *)
Definition bins : list bin_target := [indexer; rpc_crawler; main].

Definition default_run : string := "main".

(** A build is configured on the command line: the feature names given
    to [--features], and [--no-default-features]. *)
Record selection := {
  selected : list string;
  no_default_features : bool
}.

Definition default_selection : selection :=
  {| selected := []; no_default_features := false |}.

Definition mem (x : string) (l : list string) : bool :=
  existsb (String.eqb x) l.

(** The features of the package: those of the [[features]] table and,
    no entry of the table using the [dep:] form, one for every optional
    dependency under its own name. *)
Definition declared_features : list string :=
  (List.map fst features ++ optional_dependencies)%list.

(** Cargo refuses a selection that names a feature the package does not
    have, and builds nothing.  The form [dependency/feature], which
    addresses the features of another package, is not modelled and
    counts as not declared. *)
Definition accepted (sel : selection) : bool :=
  forallb (fun f => mem f declared_features) (selected sel).

Definition implied (f : string) : list string :=
  match List.find (fun kv => String.eqb (fst kv) f) features with
  | Some kv => snd kv
  | None => []
  end.

(** One round of feature unification: what the names in [l] turn on. *)
Definition expand (l : list string) : list string :=
  (l ++ flat_map implied l)%list.

(** What the command line asks for: the selected features, and
    [default] unless it is switched off. *)
Definition requested (sel : selection) : list string :=
  ((if no_default_features sel then [] else ["default"]) ++ selected sel)%list.

(** Cargo's feature resolution for the package: the requested features
    and everything they turn on.  The feature table has three entries,
    so three rounds close it. *)
Definition closure (sel : selection) : list string :=
  Nat.iter (length features) expand (requested sel).

(** The features of a build: none when the selection is refused. *)
Definition enabled (sel : selection) : list string :=
  if accepted sel then closure sel else [].

(** A binary target is built only when all of its [required-features]
    are enabled; cargo skips it otherwise.  A refused selection builds
    nothing. *)
Definition built (sel : selection) (b : bin_target) : bool :=
  accepted sel && forallb (fun f => mem f (enabled sel)) (required_features b).

(** A dependency of the table is part of the compilation unless it is
    optional and not enabled. *)
Definition compiled_in (sel : selection) (dep : string) : bool :=
  accepted sel &&
  match dependency dep with
  | Some optional => negb optional || mem dep (enabled sel)
  | None => false
  end.

(** The data-source crates of the two acquisition modes. *)
Definition streaming_sources : list string :=
  ["carbon-yellowstone-grpc-datasource"].

Definition poll_crawl_sources : list string :=
  ["carbon-rpc-block-subscribe-datasource";
   "carbon-rpc-program-subscribe-datasource";
   "carbon-rpc-transaction-crawler-datasource"].

(** A binary requires a feature. *)
Definition requires (f : string) (b : bin_target) : bool :=
  mem f (required_features b).

End Manifest.

(* ===================================================================== *)
(** * The ingestion-decode-sink pipeline (listen-data) *)
(* ===================================================================== *)

(** The Rust modules of the pipeline are not among the sources; of
    listen-data there is the manifest only.  The definitions of this
    module follow the design document, section by section, and every
    one of them says so. *)
Module Pipeline.
Local Open Scope N_scope.

(** ** Data model (section 3) *)

(** Modelled from the spec: the pair [(slot, write_version)] that orders
    updates; the Rust type is missing.  The order is lexicographic, the
    write version breaking ties within a slot. *)
Definition position := (N * N)%type.

(** Modelled from the spec: "strictly greater" on positions, the Rust
    comparison being missing. *)
Definition pos_ltb (a b : position) : bool :=
  (fst a <? fst b) || ((fst a =? fst b) && (snd a <? snd b)).

(** Modelled from the spec: "less than or equal" on positions. *)
Definition pos_leb (a b : position) : bool := negb (pos_ltb b a).

(** Modelled from the spec: the maximum of two positions. *)
Definition pos_max (a b : position) : position := if pos_ltb a b then b else a.

(** Modelled from the spec: RawAccountUpdate, missing from the sources. *)
Record RawAccountUpdate := {
  owning_program_id : N;
  account_address : N;
  slot : N;
  write_version : N;
  lamports : N;
  raw_bytes : list N;
  is_startup : bool
}.

(** Modelled from the spec: the enumerated event_kind of DecodedEvent. *)
Inductive event_kind := Initialize | Swap | AddLiquidity | RemoveLiquidity | Other.

(** Modelled from the spec: what a protocol decoder reads out of the
    bytes, the numeric fields as fixed-precision integers. *)
Record payload := {
  protocol_tag : N;
  kind : event_kind;
  fields : list Z
}.

(** Modelled from the spec: DecodedEvent, missing from the sources.
    [ev_seq] is the write version of an account-derived event and the
    instruction index of a transaction-derived one. *)
Record DecodedEvent := {
  ev_payload : payload;
  entity_key : N;
  ev_slot : N;
  ev_seq : N;
  source_signature : option N
}.

(** Modelled from the spec: the (slot, write_version) of an event. *)
Definition ev_position (e : DecodedEvent) : position := (ev_slot e, ev_seq e).

(** Modelled from the spec: the natural idempotency key of an event,
    entity_key + slot + write_version, or signature + instruction index. *)
Inductive idem_key :=
  | AccountKey (entity slot write_version : N)
  | TxKey (signature index : N).

(** Modelled from the spec: the key an event carries; the signature is
    null for account-derived events. *)
Definition idempotency_key (e : DecodedEvent) : idem_key :=
  match source_signature e with
  | Some sig => TxKey sig (ev_seq e)
  | None => AccountKey (entity_key e) (ev_slot e) (ev_seq e)
  end.

(** Modelled from the spec: two keys are the same key. *)
Definition idem_key_eqb (a b : idem_key) : bool :=
  match a, b with
  | AccountKey k s w, AccountKey k' s' w' => (k =? k') && (s =? s') && (w =? w')
  | TxKey g i, TxKey g' i' => (g =? g') && (i =? i')
  | _, _ => false
  end.

(** Modelled from the spec: CacheEntry, missing from the sources. *)
Record CacheEntry := {
  ce_entity_key : N;
  latest_state_snapshot : payload;
  updated_at_slot : N
}.

(** ** Decoder set and dispatcher (sections 4.2, 4.3) *)

(** Modelled from the spec: DecodeError and its two classes. *)
Inductive DecodeError := Unrecognized | Malformed.

(** Modelled from the spec: the Result of [decode]. *)
Inductive result (A E : Type) :=
  | Ok (a : A)
  | Err (e : E).
Arguments Ok {A E} a.
Arguments Err {A E} e.

(** Modelled from the spec: a registered decoder, its owning program
    and its transform of the raw bytes.  The protocol rules themselves
    are out of the design document's scope: the transform is any
    function of the bytes. *)
Record decoder := {
  dec_program : N;
  dec_transform : list N -> result payload DecodeError
}.

(** Modelled from the spec: [route], the decoders whose registered
    owning-program id equals the update's, in registry order. *)
Definition route (registry : list decoder) (u : RawAccountUpdate) : list decoder :=
  filter (fun d => dec_program d = owning_program_id u) registry.

(** Modelled from the spec: all matches are attempted and the first
    successful decode wins.  When none succeeds the update is Malformed
    if a decoder found it so, Unrecognized otherwise. *)
Fixpoint attempt (ds : list decoder) (bytes : list N) : result payload DecodeError :=
  match ds with
  | [] => Err Unrecognized
  | d :: ds' =>
      match dec_transform d bytes with
      | Ok p => Ok p
      | Err e =>
          match attempt ds' bytes with
          | Ok p => Ok p
          | Err Malformed => Err Malformed
          | Err Unrecognized => Err e
          end
      end
  end.

(** Modelled from the spec: [decode], from a raw update to a typed event
    or a DecodeError; the event takes its entity key and position from
    the update. *)
Definition decode (registry : list decoder) (u : RawAccountUpdate)
  : result DecodedEvent DecodeError :=
  match attempt (route registry u) (raw_bytes u) with
  | Ok p => Ok {| ev_payload := p; entity_key := account_address u;
                  ev_slot := slot u; ev_seq := write_version u;
                  source_signature := None |}
  | Err e => Err e
  end.

(** Modelled from the spec: what the pipeline logs: a skipped update
    with the class of its DecodeError, a failed cache write, a
    dead-lettered batch. *)
Inductive log_entry :=
  | DecodeSkipped (address : N) (at_ : position) (e : DecodeError)
  | CacheWriteFailed
  | BatchDeadLettered.

(** Modelled from the spec: the state of the pipeline, missing from the
    sources: the last applied position of every entity key, the durable
    table, the cache, the Checkpoint, the dead-letter records and the
    log. *)
Record state := {
  last_applied : gmap N position;
  store : list DecodedEvent;
  cache : gmap N CacheEntry;
  checkpoint : position;
  dead_letters : list (list DecodedEvent);
  log : list log_entry
}.

(** Modelled from the spec: the pipeline before its first update. *)
Definition initial : state :=
  {| last_applied := ∅; store := []; cache := ∅; checkpoint := (0, 0);
     dead_letters := []; log := [] |}.

(** Modelled from the spec: the (slot, write_version) of an update. *)
Definition update_position (u : RawAccountUpdate) : position := (slot u, write_version u).

(** Modelled from the spec: the ordering invariant of section 3, an
    update is applied only if its position is strictly greater than the
    last applied one of its entity key. *)
Definition passes_guard (st : state) (u : RawAccountUpdate) : bool :=
  match last_applied st !! account_address u with
  | Some p => pos_ltb p (update_position u)
  | None => true
  end.

(** Modelled from the spec: the position of an applied update becomes
    the last applied one of its key. *)
Definition set_last_applied (st : state) (k : N) (p : position) : state :=
  {| last_applied := <[k := p]> (last_applied st); store := store st;
     cache := cache st; checkpoint := checkpoint st;
     dead_letters := dead_letters st; log := log st |}.

(** Modelled from the spec: one more line in the log. *)
Definition add_log (st : state) (l : log_entry) : state :=
  {| last_applied := last_applied st; store := store st;
     cache := cache st; checkpoint := checkpoint st;
     dead_letters := dead_letters st; log := log st ++ [l] |}.

(** Modelled from the spec: the dispatcher's handling of one update.  A
    late or duplicate update is a no-op; a decode error is logged and the
    update skipped; a decoded event is handed on and its position
    recorded. *)
Definition dispatch (registry : list decoder) (st : state) (u : RawAccountUpdate)
  : state * option DecodedEvent :=
  if passes_guard st u then
    match decode registry u with
    | Ok e => (set_last_applied st (account_address u) (update_position u), Some e)
    | Err err => (add_log st (DecodeSkipped (account_address u) (update_position u) err), None)
    end
  else (st, None).

(** Modelled from the spec: updates are handled in arrival order and
    the events of a batch keep it. *)
Fixpoint dispatch_all (registry : list decoder) (st : state) (us : list RawAccountUpdate)
  : state * list DecodedEvent :=
  match us with
  | [] => (st, [])
  | u :: us' =>
      let '(st1, oe) := dispatch registry st u in
      let '(st2, es) := dispatch_all registry st1 us' in
      (st2, match oe with Some e => e :: es | None => es end)
  end.

(** ** Sink (section 4.4) *)

(** Modelled from the spec: the upsert of one row by idempotency key
    (insert-or-replace): a row with the key is replaced where it
    stands, a new key adds a row. *)
Fixpoint upsert (e : DecodedEvent) (table : list DecodedEvent) : list DecodedEvent :=
  match table with
  | [] => [e]
  | r :: table' =>
      if idem_key_eqb (idempotency_key e) (idempotency_key r) then e :: table'
      else r :: upsert e table'
  end.

(** Modelled from the spec: step 1, the upsert of every event of the
    batch. *)
Definition upsert_all (batch : list DecodedEvent) (table : list DecodedEvent)
  : list DecodedEvent :=
  fold_left (fun t e => upsert e t) batch table.

(** Modelled from the spec: the number of rows of the table with a
    given key. *)
Definition rows_with (k : idem_key) (table : list DecodedEvent) : nat :=
  length (filter (fun r => idem_key_eqb k (idempotency_key r) = true) table).

(** Modelled from the spec: step 2, the CacheEntry of every affected
    entity key is overwritten with the latest decoded state. *)
Definition cache_put (c : gmap N CacheEntry) (e : DecodedEvent) : gmap N CacheEntry :=
  <[entity_key e := {| ce_entity_key := entity_key e;
                       latest_state_snapshot := ev_payload e;
                       updated_at_slot := ev_slot e |}]> c.

(** Modelled from the spec: step 2 over the batch, a later event of a
    key overwriting an earlier one. *)
Definition cache_all (batch : list DecodedEvent) (c : gmap N CacheEntry)
  : gmap N CacheEntry :=
  fold_left cache_put batch c.

(** Modelled from the spec: the maximum (slot, write_version) committed
    in a batch, above a given position. *)
Definition batch_max (batch : list DecodedEvent) (p : position) : position :=
  fold_left (fun m e => pos_max m (ev_position e)) batch p.

(** Modelled from the spec: the tunables of the Sink, the fixed attempt
    ceiling and the first backoff delay. *)
Record config := {
  attempt_ceiling : nat;
  base_delay : N
}.

(** Modelled from the spec: what the external services do during one
    commit: whether the durable store accepts the write at each attempt,
    and whether the cache accepts its write. *)
Record environment := {
  store_accepts : nat -> bool;
  cache_accepts : bool
}.

(** Modelled from the spec: retry with exponential backoff up to the
    attempt ceiling.  The result is the attempt that succeeded, if one
    did, with the delays waited between attempts, each twice the one
    before. *)
Fixpoint write_with_retry (remaining attempt_no : nat) (delay : N)
    (accepts : nat -> bool) : option nat * list N :=
  match remaining with
  | O => (None, [])
  | S remaining' =>
      if accepts attempt_no then (Some attempt_no, [])
      else
        match remaining' with
        | O => (None, [])
        | S _ =>
            let '(r, waits) :=
              write_with_retry remaining' (S attempt_no) (2 * delay) accepts in
            (r, delay :: waits)
        end
  end.

(** Modelled from the spec: the pipeline is stalled while a dead-letter
    record is outstanding. *)
Definition stalled (st : state) : bool :=
  match dead_letters st with [] => false | _ => true end.

(** Modelled from the spec: the commit of one batch.  Step 1 upserts the
    durable store, retried up to the ceiling; step 2 updates the cache,
    best-effort: a failure is logged and goes no further; step 3
    advances the Checkpoint to the maximum position of the batch, and
    to advance is to move forward only.  When the ceiling is exceeded the
    batch becomes a dead-letter record and nothing else changes.  A
    batch without events has nothing to commit. *)
Definition commit_batch (cfg : config) (env : environment) (st : state)
    (batch : list DecodedEvent) : state :=
  if stalled st then st
  else if bool_decide (batch = []) then st
  else
    match fst (write_with_retry (attempt_ceiling cfg) 0 (base_delay cfg) (store_accepts env)) with
    | Some _ =>
        {| last_applied := last_applied st;
           store := upsert_all batch (store st);
           cache := if cache_accepts env then cache_all batch (cache st) else cache st;
           checkpoint := batch_max batch (checkpoint st);
           dead_letters := dead_letters st;
           log := if cache_accepts env then log st else log st ++ [CacheWriteFailed] |}
    | None =>
        {| last_applied := last_applied st;
           store := store st;
           cache := cache st;
           checkpoint := checkpoint st;
           dead_letters := dead_letters st ++ [batch];
           log := log st ++ [BatchDeadLettered] |}
    end.

(** Modelled from the spec: one round of the pipeline over the raw
    updates of a batch: dispatch and decode, then commit.  A stalled
    pipeline takes nothing in. *)
Definition process (registry : list decoder) (cfg : config) (env : environment)
    (st : state) (us : list RawAccountUpdate) : state :=
  if stalled st then st
  else
    let '(st1, batch) := dispatch_all registry st us in
    commit_batch cfg env st1 batch.

(** Modelled from the spec: a process restart.  What the invariants of
    section 3 speak of outlives it: the durable store, the Checkpoint
    and the dead-letter records are persisted, the cache is an external
    service, and the last applied position of every entity key is kept
    as well, the spec making the ordering state volatile nowhere; the
    log starts afresh. *)
Definition restart (st : state) : state :=
  {| last_applied := last_applied st; store := store st; cache := cache st;
     checkpoint := checkpoint st; dead_letters := dead_letters st; log := [] |}.

(** Modelled from the spec: what happens to the Sink over time: batches
    are committed, each under the environment of its moment, and the
    process restarts. *)
Inductive operation :=
  | Commit (env : environment) (batch : list DecodedEvent)
  | ProcessRestart.

(** Modelled from the spec: the effect of one operation. *)
Definition step (cfg : config) (st : state) (op : operation) : state :=
  match op with
  | Commit env batch => commit_batch cfg env st batch
  | ProcessRestart => restart st
  end.

(** Modelled from the spec: a run of operations, in order. *)
Definition run (cfg : config) (st : state) (ops : list operation) : state :=
  fold_left (step cfg) ops st.

(** Modelled from the spec: what reaches the pipeline over its
    lifetime: batches of raw updates, each handled under the
    environment of its moment, and process restarts. *)
Inductive arrival :=
  | Updates (env : environment) (us : list RawAccountUpdate)
  | ProcessRestarted.

(** Modelled from the spec: the effect of one arrival. *)
Definition receive (registry : list decoder) (cfg : config) (st : state) (a : arrival)
  : state :=
  match a with
  | Updates env us => process registry cfg env st us
  | ProcessRestarted => restart st
  end.

(** Modelled from the spec: the events the dispatcher emits for one
    arrival; a stalled pipeline takes nothing in. *)
Definition emits (registry : list decoder) (st : state) (a : arrival)
  : list DecodedEvent :=
  match a with
  | Updates env us => if stalled st then [] else snd (dispatch_all registry st us)
  | ProcessRestarted => []
  end.

(** Modelled from the spec: the state after a sequence of arrivals, and
    all the events emitted on the way, in order. *)
Fixpoint lifetime (registry : list decoder) (cfg : config) (st : state)
    (arrivals : list arrival) : state * list DecodedEvent :=
  match arrivals with
  | [] => (st, [])
  | a :: rest =>
      let '(st', evs) := lifetime registry cfg (receive registry cfg st a) rest in
      (st', emits registry st a ++ evs)
  end.

End Pipeline.

(* ===================================================================== *)
(** * Rendered trees *)
(* ===================================================================== *)

(** The values the other components put into JSX: next to elements and
    strings, numbers, booleans, the arrays that [map] returns, and
    event handlers among the properties. *)
Module React.
Import JS.

Inductive vprop :=
  | VString (s : jsstring)
  | VNum (x : number)
  | VFlag (b : bool)
  | VHandler (name : string).

Inductive vnode :=
  | VElement (tag : string) (props : list (string * vprop)) (children : list vnode)
  | VComponent (name : string) (props : list (string * vprop))
  | VArray (items : list vnode)
  | VText (s : jsstring)
  | VNumber (x : number)
  | VBool (b : bool)
  | VNull
  | VUndefined.

Definition vclass (c : string) : string * vprop := ("className"%string, VString (lit c)).

Definition of_prop (p : string * PipelineStep.prop_value) : string * vprop :=
  match p with
  | (k, PipelineStep.PString s) => (k, VString s)
  | (k, PipelineStep.PNumber n) => (k, VNum (number_of_Z n))
  end.

(** The tree of [TransactionLink] as part of a larger one. *)
Fixpoint of_node (n : PipelineStep.node) : vnode :=
  match n with
  | PipelineStep.Element tag props children =>
      VElement tag (List.map of_prop props) (List.map of_node children)
  | PipelineStep.Component name props => VComponent name (List.map of_prop props)
  | PipelineStep.Text s => VText s
  | PipelineStep.Null => VNull
  | PipelineStep.Undefined => VUndefined
  end.

(** A value that may be missing: [undefined], [null], or there. *)
Inductive maybe (A : Type) :=
  | Missing
  | IsNull
  | Has (a : A).
Arguments Missing {A}.
Arguments IsNull {A}.
Arguments Has {A} a.

(** [x && e] for an object that may be missing: a missing [x] is the
    value of the expression. *)
Definition when_has {A} (x : maybe A) (e : A -> vnode) : vnode :=
  match x with
  | Missing => VUndefined
  | IsNull => VNull
  | Has a => e a
  end.

(** [x + y] *)
Definition add (x y : number) : number := SFadd prec emax x y.

(** What React puts in the document for a list of children: arrays are
    flattened, booleans, [null], [undefined] and the empty string leave
    nothing. *)
Fixpoint rendered (n : vnode) : list vnode :=
  match n with
  | VArray items => flat_map rendered items
  | VBool _ | VNull | VUndefined => []
  | VText [] => []
  | _ => [n]
  end.

Definition rendered_children (n : vnode) : list vnode :=
  match n with
  | VElement _ _ children => flat_map rendered children
  | _ => []
  end.

Definition vhref_of (props : list (string * vprop)) : list jsstring :=
  flat_map (fun kv => match kv with
                      | ("href"%string, VString s) => [s]
                      | _ => []
                      end) props.

(** The targets of the links of a tree, in document order. *)
Fixpoint vanchors (n : vnode) : list jsstring :=
  match n with
  | VElement tag props children =>
      (if String.eqb tag "a" then vhref_of props else []) ++ flat_map vanchors children
  | VArray items => flat_map vanchors items
  | _ => []
  end.

(** The texts of a tree, in document order; a number is shown by its
    [String]. *)
Fixpoint vtexts (n : vnode) : list jsstring :=
  match n with
  | VElement _ _ children => flat_map vtexts children
  | VArray items => flat_map vtexts items
  | VText (c :: s) => [c :: s]
  | VNumber x => [Number_toString x]
  | _ => []
  end.

End React.

(* ===================================================================== *)
(** * The step container (src/unnamed/part_000, PipelineStepContainer) *)
(* ===================================================================== *)

Module StepContainer.
Import JS React.

Section Conditions.

(** The engine the component runs in. *)
Context (en : engine).

(** [PipelineConditionType] is declared in ../types/pipeline, outside the
    sources: an enumeration compared with [===], of which the component
    names the members [Now] and [PriceAbove]. *)
Context {condition_type : Type} `{EqDecision condition_type}.
Context (Now PriceAbove : condition_type).

(** [PipelineCondition], by the fields the component reads. *)
Record PipelineCondition := {
  type : condition_type;
  value : number;
  asset : jsstring
}.

(** The text of one condition; a template literal inserts a number by
    its [String]. *)
Definition condition_text (condition : PipelineCondition) : jsstring :=
  if bool_decide (type condition = Now) then lit "Execute immediately"
  else if bool_decide (type condition = PriceAbove) then
    lit "Price above " ++ Number_toString (value condition) ++ lit " for "
    ++ slice_head 4 (asset condition) ++ lit "..." ++ slice_tail 4 (asset condition)
  else
    lit "Price below " ++ Number_toString (value condition) ++ lit " for "
    ++ slice_head 4 (asset condition) ++ lit "..." ++ slice_tail 4 (asset condition).

(** [conditions.map((condition, index) => <div key={index} ...>)] *)
Definition condition_lines (conditions : list PipelineCondition) : vnode :=
  VArray (imap (fun index condition =>
                  VElement "div"
                    [("key"%string, VNum (number_of_Z (Z.of_nat index)));
                     vclass "mt-1 lg:text-sm text-xs text-purple-200"]
                    [VText (condition_text condition)]) conditions).

Definition conditions_block (conditions : list PipelineCondition) : vnode :=
  match conditions with
  | [] => VBool false                      (* [conditions.length > 0] *)
  | _ =>
      VElement "div" [vclass "mt-3 pt-3 border-t border-purple-500/30"]
        [VElement "div" [vclass "text-sm text-purple-300"] [VText (lit "Conditions:")];
         condition_lines conditions]
  end.

(** [status && (...)] for the optional property [status]: [None] is
    [undefined]. *)
Definition status_block (status : option jsstring)
    (transactionHash error : option jsstring) : vnode :=
  match status with
  | None => VUndefined
  | Some [] => VText []
  | Some s =>
      VElement "div" [vclass "mt-3 pt-3 border-t border-purple-500/30"]
        [VElement "div" [vclass "text-sm text-purple-300"] [VText (lit "Status:")];
         of_node (PipelineStep.TransactionLink en s transactionHash error)]
  end.

Definition PipelineStepContainer (index : number) (children : vnode)
    (conditions : list PipelineCondition) (status : option jsstring)
    (transactionHash error : option jsstring) : vnode :=
  VElement "div"
    [vclass "border border-purple-500/30 rounded-lg lg:p-4 p-4 bg-black/40 backdrop-blur-sm"]
    [VElement "div" [vclass "flex items-center gap-4"]
       [VElement "div" [vclass "text-sm text-purple-300 lg:inline hidden"]
          [VNumber (add index (number_of_Z 1))];
        children];
     conditions_block conditions;
     status_block status transactionHash error].

End Conditions.

End StepContainer.

(* ===================================================================== *)
(** * The Dexscreener table (DexscreenerDisplay) *)
(* ===================================================================== *)

Module DexscreenerTable.
Import JS React.

Section CaseMapping.

(** [String.prototype.toLowerCase] and [toUpperCase] follow the Unicode
    case mappings; the component is modelled over them as they are
    given. *)
Context (toLowerCase toUpperCase : jsstring -> jsstring).

(** [DexScreenerPair] is declared in ../types/dexscreener, outside the
    sources; these are the fields the component reads. *)
Record token := { symbol : jsstring }.
Record liquidity_usd := { usd : number }.
Record volume_24h := { h24 : number }.

Record DexScreenerPair := {
  pairAddress : jsstring;
  chainId : jsstring;
  dexId : jsstring;
  url : jsstring;
  baseToken : token;
  quoteToken : token;
  liquidity : maybe liquidity_usd;
  volume : maybe volume_24h
}.

Definition icon_class : string * vprop := vclass "w-4 h-4 sm:w-5 sm:h-5 rounded-full".

Definition chain_icon (pair : DexScreenerPair) : vnode :=
  VElement "img"
    [("src"%string,
      VString (lit "https://dd.dexscreener.com/ds-data/chains/"
               ++ toLowerCase (chainId pair) ++ lit ".png"));
     ("alt"%string, VString (chainId pair)); icon_class] [].

Definition dex_icon (pair : DexScreenerPair) : vnode :=
  VElement "img"
    [("src"%string,
      VString (lit "https://dd.dexscreener.com/ds-data/dexes/"
               ++ toLowerCase (dexId pair) ++ lit ".png"));
     ("alt"%string, VString (dexId pair)); icon_class] [].

(** [pair.dexId.toUpperCase().slice(0, 11)] *)
Definition dex_label (pair : DexScreenerPair) : jsstring :=
  slice_head 11 (toUpperCase (dexId pair)).

Definition token_cell (pair : DexScreenerPair) : vnode :=
  VElement "td" [vclass "p-2"]
    [VElement "div" [vclass "flex items-center gap-2"]
       [VElement "div" [vclass "flex flex-row gap-1 items-start mt-1"]
          [chain_icon pair; dex_icon pair];
        VElement "div" [vclass "flex flex-col min-w-0"]
          [VElement "div" [vclass "flex items-center gap-1"]
             [VElement "span" [vclass "font-medium truncate"]
                [VText (symbol (baseToken pair))];
              VElement "a"
                [("href"%string, VString (url pair));
                 ("target"%string, VString (lit "_blank"));
                 ("rel"%string, VString (lit "noopener noreferrer"));
                 vclass "text-blue-400 hover:text-blue-300 flex-shrink-0"]
                [VComponent "FaExternalLinkAlt" [("size"%string, VNum (number_of_Z 10))]]];
           VElement "div" [vclass "text-gray-400 text-[10px] sm:text-xs truncate"]
             [VText (dex_label pair); VText [32; 8226]%N; VText (lit " ");
              VText (symbol (quoteToken pair))]]]].

Definition amount_cell (amount : number) : vnode :=
  VElement "td" [vclass "p-2 text-right"]
    [VElement "div" [vclass "font-medium text-sm"]
       [VText (Dexscreener.formatNumber amount)]].

Definition row (pair : DexScreenerPair) : vnode :=
  VElement "tr" [("key"%string, VString (pairAddress pair))]
    [token_cell pair;
     when_has (liquidity pair) (fun l => amount_cell (usd l));
     when_has (volume pair) (fun v => amount_cell (h24 v))].

Definition header : vnode :=
  VElement "thead" []
    [VElement "tr" [vclass "text-xs text-gray-400"]
       [VElement "th" [vclass "text-left p-2 font-normal"] [VText (lit "Token")];
        VElement "th" [vclass "text-right p-2 font-normal w-[100px]"] [VText (lit "Liquidity")];
        VElement "th" [vclass "text-right p-2 font-normal w-[100px]"] [VText (lit "24h Vol")]]].

Definition DexscreenerDisplay (pairs : list DexScreenerPair) : vnode :=
  VElement "div" [vclass "overflow-x-auto"]
    [VElement "table" [vclass "w-full"]
       [header;
        VElement "tbody" [vclass "divide-y divide-blue-500/20"]
          [VArray (List.map row pairs)]]].

End CaseMapping.

End DexscreenerTable.

(* ===================================================================== *)
(** * The delegation button (DelegateActionButton) *)
(* ===================================================================== *)

Module DelegateButton.
Import JS React.

(** What the component reads of the wallets and linked accounts that
    the hooks of @privy-io/react-auth return. *)
Record wallet := {
  walletClientType : jsstring;
  address : jsstring
}.

Record account := {
  account_type : jsstring;
  delegated : bool;
  chainType : jsstring
}.

(** The values of the hooks at one rendering; [user] is [null] before
    login. *)
Record hooks := {
  user : option (list account);
  solanaReady : bool;
  solanaWallets : list wallet;
  evmReady : bool;
  evmWallets : list wallet;
  isCreatingSolana : bool;
  isCreatingEvm : bool
}.

(** [wallets.find((wallet) => wallet.walletClientType === "privy")] *)
Definition wallet_to_delegate (wallets : list wallet) : option wallet :=
  List.find (fun w => jsstring_eqb (walletClientType w) (lit "privy")) wallets.

(** [user?.linkedAccounts.some(...)]: [None] is [undefined]. *)
Definition is_delegated (chain : string) (h : hooks) : option bool :=
  match user h with
  | None => None
  | Some accounts =>
      Some (existsb (fun a => jsstring_eqb (account_type a) (lit "wallet")
                              && delegated a
                              && jsstring_eqb (chainType a) (lit chain)) accounts)
  end.

Definition solanaWalletToDelegate (h : hooks) : option wallet :=
  wallet_to_delegate (solanaWallets h).
Definition evmWalletToDelegate (h : hooks) : option wallet :=
  wallet_to_delegate (evmWallets h).
Definition isSolanaDelegated (h : hooks) : option bool := is_delegated "solana" h.
Definition isEvmDelegated (h : hooks) : option bool := is_delegated "ethereum" h.

(** [!x] for a wallet that may be [undefined]. *)
Definition lacks (w : option wallet) : bool :=
  match w with Some _ => false | None => true end.

(** [!x] for a boolean that may be [undefined]. *)
Definition not_ (b : option bool) : bool :=
  match b with Some true => false | _ => true end.

Definition button_class : string * vprop :=
  vclass "p-2 border-2 border-purple-500/30 rounded-lg bg-black/40 backdrop-blur-sm flex items-center px-3 text-sm hover:bg-purple-500/10".

Definition needs_wallet (h : hooks) : bool :=
  (solanaReady h && lacks (solanaWalletToDelegate h))
  || (evmReady h && lacks (evmWalletToDelegate h)).

Definition create_button (h : hooks) : vnode :=
  VElement "button"
    [("disabled"%string,
      VFlag (negb (solanaReady h) || negb (evmReady h)
             || isCreatingSolana h || isCreatingEvm h));
     ("onClick"%string, VHandler "onCreateWallet");
     button_class]
    [if isCreatingSolana h || isCreatingEvm h then
       VElement "span" [] [VText (lit "Creating wallet...")]
     else
       VElement "span" []
         [VText (lit "Create ");
          VText (if solanaReady h && lacks (solanaWalletToDelegate h)
                 then lit "Solana" else []);
          VText (lit " ");
          VText (if evmReady h && lacks (evmWalletToDelegate h) then lit "EVM" else []);
          VText (lit " wallet")]].

Definition delegate_solana_button (h : hooks) : vnode :=
  VElement "button"
    [("disabled"%string, VFlag (negb (solanaReady h) || lacks (solanaWalletToDelegate h)));
     ("onClick"%string, VHandler "delegateSolana");
     button_class]
    [VText (lit "Delegate Solana")].

Definition delegate_evm_button (h : hooks) : vnode :=
  VElement "button"
    [("disabled"%string, VFlag (negb (evmReady h) || lacks (evmWalletToDelegate h)));
     ("onClick"%string, VHandler "delegateEvm");
     button_class]
    [VText (lit "Delegate EVM")].

Definition DelegateActionButton (h : hooks) : vnode :=
  if needs_wallet h then create_button h
  else
    VElement "div" [vclass "flex flex-col gap-2"]
      [if not_ (isSolanaDelegated h) then delegate_solana_button h else VBool false;
       match isSolanaDelegated h with
       | None => VUndefined
       | Some false => VBool false
       | Some true =>
           if not_ (isEvmDelegated h) then delegate_evm_button h else VBool false
       end].

(** ** The handlers

    What a handler does is the sequence of its calls to the outside:
    state setters, the wallet functions of the hooks, [console.error].
    A computation returns or throws, and leaves a trace. *)
Inductive call :=
  | SetIsCreatingSolana (b : bool)
  | SetIsCreatingEvm (b : bool)
  | CreateSolanaWallet
  | CreateEvmWallet
  | DelegateWallet (address chainType : jsstring)
  | ConsoleError (message : jsstring).

Inductive completion := Normal | Throw.

Definition comp := (list call * completion)%type.

Definition ret : comp := ([], Normal).
Definition throw : comp := ([], Throw).
Definition perform (c : call) : comp := ([c], Normal).

(** [await f()]: the call is made; a rejected promise throws. *)
Definition await (c : call) (resolves : bool) : comp :=
  ([c], if resolves then Normal else Throw).

(** [a; b] *)
Definition sequence (a b : comp) : comp :=
  match a with
  | (ta, Normal) => (ta ++ fst b, snd b)
  | (ta, Throw) => (ta, Throw)
  end.

(** [try { a } catch { handler }] *)
Definition try_catch (a handler : comp) : comp :=
  match a with
  | (ta, Normal) => (ta, Normal)
  | (ta, Throw) => (ta ++ fst handler, snd handler)
  end.

(** [try { a } catch { handler } finally { final }] *)
Definition try_catch_finally (a handler final : comp) : comp :=
  match try_catch a handler with
  | (t, Normal) => (t ++ fst final, snd final)
  | (t, Throw) => (t ++ fst final, Throw)
  end.

(** Whether the promises of the wallet functions resolve. *)
Record outcomes := {
  createSolanaWallet_resolves : bool;
  createEvmWallet_resolves : bool;
  delegateWallet_resolves : bool
}.

Definition onCreateWallet (o : outcomes) : comp :=
  sequence
    (try_catch_finally
       (sequence (perform (SetIsCreatingSolana true))
            (await CreateSolanaWallet (createSolanaWallet_resolves o)))
       (perform (ConsoleError (lit "Error creating Solana wallet:")))
       (perform (SetIsCreatingSolana false)))
    (try_catch_finally
       (sequence (perform (SetIsCreatingEvm true))
            (await CreateEvmWallet (createEvmWallet_resolves o)))
       (perform (ConsoleError (lit "Error creating EVM wallet:")))
       (perform (SetIsCreatingEvm false))).

(** The click on a delegate button.  Reading [.address] of a wallet that
    is [undefined] throws a TypeError, inside the [try]. *)
Definition delegate_click (o : outcomes) (w : option wallet) (chain message : string) : comp :=
  try_catch
    (match w with
     | None => throw
     | Some w => await (DelegateWallet (address w) (lit chain)) (delegateWallet_resolves o)
     end)
    (perform (ConsoleError (lit message))).

Definition delegateSolana (o : outcomes) (h : hooks) : comp :=
  delegate_click o (solanaWalletToDelegate h) "solana" "Error delegating Solana wallet:".

Definition delegateEvm (o : outcomes) (h : hooks) : comp :=
  delegate_click o (evmWalletToDelegate h) "ethereum" "Error delegating EVM wallet:".

(** The handler behind a name of the tree. *)
Definition handler (name : string) (o : outcomes) (h : hooks) : comp :=
  if String.eqb name "onCreateWallet" then onCreateWallet o
  else if String.eqb name "delegateSolana" then delegateSolana o h
  else if String.eqb name "delegateEvm" then delegateEvm o h
  else ret.

End DelegateButton.

(* ===================================================================== *)
(** * Specifications *)
(* ===================================================================== *)

(** The properties the theorems below are stated with. *)
Module Spec.
Import JS.

(** A stretch of text without a line terminator. *)
Definition dots (body : jsstring) : Prop := Forall (fun c => dot c = true) body.

(** [m] is the brace group of [error]: it runs from the first [{] that
    has a [}] later on its line to the last [}] of that line. *)
Definition brace_group (error m : jsstring) : Prop :=
  exists pre body post,
    error = pre ++ lbrace :: body ++ rbrace :: post /\
    m = lbrace :: body ++ [rbrace] /\
    dots body /\
    (forall body' post',
        body ++ rbrace :: post = body' ++ rbrace :: post' -> dots body' ->
        (length body' <= length body)%nat) /\
    (forall pre1 pre2 body' post',
        pre = pre1 ++ lbrace :: pre2 ->
        pre2 ++ lbrace :: body ++ rbrace :: post = body' ++ rbrace :: post' ->
        ~ dots body').

(** [sub] occurs in [s]. *)
Definition substring (sub s : jsstring) : Prop :=
  exists pre post, s = pre ++ sub ++ post.

(** [sub] begins with [{] and ends with [}]. *)
Definition brace_delimited (sub : jsstring) : Prop :=
  exists body, sub = lbrace :: body ++ [rbrace].

(** Two error texts with a JSON object in them; the second has a
    second brace group after the object. *)
Definition rpc_error_object : jsstring :=
  lit "{" ++ quote (lit "error") ++ lit ":" ++ quote (lit "x") ++ lit "}".

Definition rpc_error_text : jsstring := lit "RPC: " ++ rpc_error_object.

(** An error text whose [error] field is [depth] arrays, one inside the
    other. *)
Definition nested_arrays (depth : nat) : jsstring :=
  concat (replicate depth (lit "[")) ++ concat (replicate depth (lit "]")).

Definition nested_error_text (depth : nat) : jsstring :=
  lit "{" ++ quote (lit "error") ++ lit ":" ++ nested_arrays depth ++ lit "}".

(** [depth] arrays, one inside the other, as a value. *)
Fixpoint nested_value (depth : nat) : json :=
  match depth with
  | O => JNull
  | S O => JArray []
  | S d => JArray [nested_value d]
  end.

(** Two engines: the stack of the first is exhausted beyond a hundred
    nested arrays, that of the second beyond a thousand. *)
Definition small_stack : engine := engine_of_depth 100.
Definition large_stack : engine := engine_of_depth 1000.

Definition two_groups_text : jsstring := rpc_error_object ++ lit " {}".

(** ** formatNumber *)

(** A decimal numeral with exactly two digits after the point. *)
Definition two_decimals (s : jsstring) : Prop :=
  exists sign a b,
    s = sign ++ a ++ lit "." ++ b /\ (sign = [] \/ sign = lit "-") /\
    a <> [] /\ length b = 2%nat /\
    Forall (fun c => is_digit c = true) a /\ Forall (fun c => is_digit c = true) b.

(** The value of the Number [x] is at least the positive integer [z]. *)
Definition at_least (x : number) (z : Z) : Prop :=
  match x with
  | S754_finite false m e => z * snd (ratio_of m e) <= fst (ratio_of m e)
  | S754_infinity false => True
  | _ => False
  end.

(** A finite Number of magnitude below [10^21]. *)
Definition below_1e21 (x : number) : Prop :=
  match x with
  | S754_zero _ => True
  | S754_finite _ m e => at_least_1e21 (fst (ratio_of m e)) (snd (ratio_of m e)) = false
  | _ => False
  end.

(** The four branches of [formatNumber], from the highest threshold down. *)
Inductive branch := Billions | Millions | Thousands | Units.

Definition threshold_met (num : number) (b : branch) : bool :=
  match b with
  | Billions => ge num Dexscreener.n_1e9
  | Millions => ge num Dexscreener.n_1e6
  | Thousands => ge num Dexscreener.n_1e3
  | Units => true
  end.





(** The number a string of decimal digits stands for. *)
Definition numeral_value (s : jsstring) : Z :=
  Z.of_N (N_of_digits (List.map (fun c => (c - 48)%N) s)).

(** Digits without a superfluous zero in front. *)
Definition canonical (a : jsstring) : Prop :=
  a = lit "0" \/ exists c t, a = c :: t /\ c <> 48%N.

(** [s] is the numeral of [n] hundredths: the digits of the integer
    part, without superfluous zeros, a point, and two digits. *)
Definition hundredths_numeral (n : Z) (s : jsstring) : Prop :=
  exists a b,
    s = a ++ lit "." ++ b /\ canonical a /\ length b = 2%nat /\
    Forall (fun c => is_digit c = true) (a ++ b) /\
    numeral_value (a ++ b) = n.

(** [n] hundredths is the magnitude of the finite Number [x] rounded to
    two decimals, a half rounding up: [n - 1/2 <= 100 |x| < n + 1/2]. *)
Definition rounds_to_hundredths (x : number) (n : Z) : Prop :=
  match x with
  | S754_zero _ => n = 0
  | S754_finite _ m e =>
      2 * n * snd (ratio_of m e) <= 200 * fst (ratio_of m e) + snd (ratio_of m e)
      /\ 200 * fst (ratio_of m e) + snd (ratio_of m e) < 2 * (n + 1) * snd (ratio_of m e)
  | _ => False
  end.

(** The sign [toFixed] writes: a minus for a negative Number that is
    not a zero. *)
Definition minus_sign (x : number) : jsstring :=
  match x with
  | S754_finite true _ _ => lit "-"
  | _ => []
  end.


(** ** TransactionLink *)

(** The four statuses [renderStatus] has a case for. *)
Definition known_status (status : jsstring) : Prop :=
  status = lit "Pending" \/ status = lit "Completed" \/
  status = lit "Failed" \/ status = lit "Cancelled".

Definition children_of (n : PipelineStep.node) : list PipelineStep.node :=
  match n with
  | PipelineStep.Element _ _ children => children
  | _ => []
  end.

Definition href_of (props : list (string * PipelineStep.prop_value)) : list jsstring :=
  flat_map (fun kv => match kv with
                      | ("href"%string, PipelineStep.PString s) => [s]
                      | _ => []
                      end) props.

(** The targets of the links of a rendered tree, in document order. *)
Fixpoint anchors (n : PipelineStep.node) : list jsstring :=
  match n with
  | PipelineStep.Element tag props children =>
      (if String.eqb tag "a" then href_of props else []) ++ flat_map anchors children
  | _ => []
  end.

(** The texts of a rendered tree, in document order; an empty string
    puts nothing in the document. *)
Fixpoint texts (n : PipelineStep.node) : list jsstring :=
  match n with
  | PipelineStep.Element _ _ children => flat_map texts children
  | PipelineStep.Text (c :: s) => [c :: s]
  | _ => []
  end.

(** ** The pipeline *)

Definition pos_lt (a b : Pipeline.position) : Prop := Pipeline.pos_ltb a b = true.
Definition pos_le (a b : Pipeline.position) : Prop := Pipeline.pos_leb a b = true.

(** Events of one entity key come in strictly increasing positions. *)
Definition increasing_per_key (evs : list Pipeline.DecodedEvent) : Prop :=
  forall i j ei ej,
    (i < j)%nat -> evs !! i = Some ei -> evs !! j = Some ej ->
    Pipeline.entity_key ei = Pipeline.entity_key ej ->
    pos_lt (Pipeline.ev_position ei) (Pipeline.ev_position ej).

(** The events are the decoded forms of some of the updates, in the
    order of the updates. *)
Definition in_arrival_order (registry : list Pipeline.decoder)
    (us : list Pipeline.RawAccountUpdate) (evs : list Pipeline.DecodedEvent) : Prop :=
  exists us', sublist us' us /\
              Forall2 (fun u e => Pipeline.decode registry u = Pipeline.Ok e) us' evs.

(** The ordering table agrees with the events emitted so far: every
    emitted event lies at or below the last applied position of its
    key, and every position of the table is that of an emitted event of
    the key. *)
Definition tracks (st : Pipeline.state) (evs : list Pipeline.DecodedEvent) : Prop :=
  (forall e, e ∈ evs ->
     exists p, Pipeline.last_applied st !! Pipeline.entity_key e = Some p /\
               pos_le (Pipeline.ev_position e) p) /\
  (forall k p, Pipeline.last_applied st !! k = Some p ->
     exists e, e ∈ evs /\ Pipeline.entity_key e = k /\ Pipeline.ev_position e = p).

(** The idempotency keys of a list of events. *)
Definition keys (evs : list Pipeline.DecodedEvent) : list Pipeline.idem_key :=
  map Pipeline.idempotency_key evs.

(** No two rows of the durable table have the same idempotency key. *)
Definition unique_keys (table : list Pipeline.DecodedEvent) : Prop :=
  NoDup (map Pipeline.idempotency_key table).

(** The durable store accepts the write at some attempt within the
    ceiling. *)
Definition write_succeeds (cfg : Pipeline.config) (env : Pipeline.environment) : Prop :=
  is_Some (fst (Pipeline.write_with_retry (Pipeline.attempt_ceiling cfg) 0
                  (Pipeline.base_delay cfg) (Pipeline.store_accepts env))).

(** Two states with the same data; their logs may differ. *)
Definition same_data (a b : Pipeline.state) : Prop :=
  Pipeline.last_applied a = Pipeline.last_applied b /\
  Pipeline.store a = Pipeline.store b /\
  Pipeline.cache a = Pipeline.cache b /\
  Pipeline.checkpoint a = Pipeline.checkpoint b /\
  Pipeline.dead_letters a = Pipeline.dead_letters b.

(** The delays of [k] retries: the base delay, doubled every time. *)
Definition backoff (base : N) (k : nat) : list N :=
  map (fun i => (base * 2 ^ N.of_nat i)%N) (seq 0 k).

(** ** Sample data *)

(** A decoder of program 7: the first byte is the discriminator, 1 for
    a swap whose amounts are the bytes that follow; a payload of one
    byte only is malformed and any other discriminator is unknown. *)
Definition sample_decoder : Pipeline.decoder :=
  {| Pipeline.dec_program := 7%N;
     Pipeline.dec_transform := fun bytes =>
       match bytes with
       | 1%N :: b :: rest =>
           Pipeline.Ok {| Pipeline.protocol_tag := 7%N; Pipeline.kind := Pipeline.Swap;
                          Pipeline.fields := map Z.of_N (b :: rest) |}
       | [1%N] => Pipeline.Err Pipeline.Malformed
       | _ => Pipeline.Err Pipeline.Unrecognized
       end |}.

Definition sample_registry : list Pipeline.decoder := [sample_decoder].

Definition sample_update (address slot write_version : N) (bytes : list N)
  : Pipeline.RawAccountUpdate :=
  {| Pipeline.owning_program_id := 7%N; Pipeline.account_address := address;
     Pipeline.slot := slot; Pipeline.write_version := write_version;
     Pipeline.lamports := 0%N; Pipeline.raw_bytes := bytes;
     Pipeline.is_startup := false |}.

Definition sample_event (address slot write_version : N) (amounts : list Z)
  : Pipeline.DecodedEvent :=
  {| Pipeline.ev_payload := {| Pipeline.protocol_tag := 7%N; Pipeline.kind := Pipeline.Swap;
                               Pipeline.fields := amounts |};
     Pipeline.entity_key := address; Pipeline.ev_slot := slot;
     Pipeline.ev_seq := write_version; Pipeline.source_signature := None |}.

Definition sample_config : Pipeline.config :=
  {| Pipeline.attempt_ceiling := 5; Pipeline.base_delay := 100%N |}.

(** The services at work, down for good, and a store down for the first
    three attempts. *)
Definition healthy : Pipeline.environment :=
  {| Pipeline.store_accepts := fun _ => true; Pipeline.cache_accepts := true |}.

Definition cache_down : Pipeline.environment :=
  {| Pipeline.store_accepts := fun _ => true; Pipeline.cache_accepts := false |}.

Definition store_down : Pipeline.environment :=
  {| Pipeline.store_accepts := fun _ => false; Pipeline.cache_accepts := true |}.

Definition store_recovers : Pipeline.environment :=
  {| Pipeline.store_accepts := fun k => (3 <=? k)%nat; Pipeline.cache_accepts := true |}.

End Spec.

(* ===================================================================== *)
(** * More specifications and sample data *)
(* ===================================================================== *)

Module Cases.
Import JS Spec.

(** A JSON object printed over three lines. *)
Definition pretty_error_text : jsstring :=
  lit "{" ++ [10%N] ++ quote (lit "error") ++ lit ":" ++ quote (lit "x") ++ [10%N] ++ lit "}".

(** A Number that is not above zero: a zero, a negative Number, NaN. *)
Definition not_positive (x : number) : Prop :=
  match x with
  | S754_finite false _ _ | S754_infinity false => False
  | _ => True
  end.

(** A finite Number that is not below zero. *)
Definition non_negative_finite (x : number) : Prop :=
  match x with
  | S754_zero _ | S754_finite false _ _ => True
  | _ => False
  end.

(** A value that is not there: [undefined] or [null]. *)
Definition absent {A} (x : React.maybe A) : Prop :=
  match x with
  | React.Has _ => False
  | _ => True
  end.

(** The buttons of a tree, in document order. *)
Fixpoint buttons (n : React.vnode) : list React.vnode :=
  match n with
  | React.VElement tag props children =>
      (if String.eqb tag "button" then [n] else []) ++ flat_map buttons children
  | React.VArray items => flat_map buttons items
  | _ => []
  end.

(** The value of a boolean property of an element. *)
Definition flag_of (k : string) (n : React.vnode) : option bool :=
  match n with
  | React.VElement _ props _ =>
      match List.find (fun kv => String.eqb (fst kv) k) props with
      | Some (_, React.VFlag b) => Some b
      | _ => None
      end
  | _ => None
  end.

(** The name of the handler of the clicks on an element. *)
Definition on_click (n : React.vnode) : option string :=
  match n with
  | React.VElement _ props _ =>
      match List.find (fun kv => String.eqb (fst kv) "onClick") props with
      | Some (_, React.VHandler name) => Some name
      | _ => None
      end
  | _ => None
  end.

(** The trace of a call that is logged when it fails. *)
Definition logged_on_failure (c : DelegateButton.call) (resolves : bool)
    (message : string) : list DelegateButton.call :=
  c :: (if resolves then [] else [DelegateButton.ConsoleError (lit message)]).

(** A pair with a volume and no liquidity. *)
Definition sample_pair : DexscreenerTable.DexScreenerPair :=
  {| DexscreenerTable.pairAddress := lit "pair1";
     DexscreenerTable.chainId := lit "solana";
     DexscreenerTable.dexId := lit "raydium";
     DexscreenerTable.url := lit "https://dexscreener.com/solana/pair1";
     DexscreenerTable.baseToken := {| DexscreenerTable.symbol := lit "SOL" |};
     DexscreenerTable.quoteToken := {| DexscreenerTable.symbol := lit "USDC" |};
     DexscreenerTable.liquidity := React.Missing;
     DexscreenerTable.volume := React.Has {| DexscreenerTable.h24 := number_of_Z 1234567 |} |}.

(** Hooks of a user with an embedded Solana wallet, not yet delegated,
    and no embedded EVM wallet. *)
Definition sample_wallet : DelegateButton.wallet :=
  {| DelegateButton.walletClientType := lit "privy";
     DelegateButton.address := lit "9xQeWvG816bUx9EPjHmaT23yvVM2ZWbrrpZb9PusVFin" |}.

Definition phantom_wallet : DelegateButton.wallet :=
  {| DelegateButton.walletClientType := lit "phantom";
     DelegateButton.address := lit "4Nd1mYQzvgV8Vr3Z3nYb7pD6T8K2yCjJ9xW5uHqLrTfA" |}.

Definition hooks_solana_only : DelegateButton.hooks :=
  {| DelegateButton.user := Some [];
     DelegateButton.solanaReady := true;
     DelegateButton.solanaWallets := [phantom_wallet; sample_wallet];
     DelegateButton.evmReady := true;
     DelegateButton.evmWallets := [];
     DelegateButton.isCreatingSolana := false;
     DelegateButton.isCreatingEvm := false |}.

Definition hooks_both_wallets : DelegateButton.hooks :=
  {| DelegateButton.user := Some [];
     DelegateButton.solanaReady := true;
     DelegateButton.solanaWallets := [phantom_wallet; sample_wallet];
     DelegateButton.evmReady := true;
     DelegateButton.evmWallets :=
       [{| DelegateButton.walletClientType := lit "privy";
           DelegateButton.address := lit "0x52908400098527886E0F7030069857D2E4169EE7" |}];
     DelegateButton.isCreatingSolana := false;
     DelegateButton.isCreatingEvm := false |}.

(** Hooks before login, while the wallets are loading. *)
Definition hooks_loading : DelegateButton.hooks :=
  {| DelegateButton.user := None;
     DelegateButton.solanaReady := false;
     DelegateButton.solanaWallets := [];
     DelegateButton.evmReady := false;
     DelegateButton.evmWallets := [];
     DelegateButton.isCreatingSolana := false;
     DelegateButton.isCreatingEvm := false |}.

Definition rejecting : DelegateButton.outcomes :=
  {| DelegateButton.createSolanaWallet_resolves := false;
     DelegateButton.createEvmWallet_resolves := false;
     DelegateButton.delegateWallet_resolves := false |}.

End Cases.

(* ===================================================================== *)
(** * Facts about JavaScript strings *)
(* ===================================================================== *)

Section StringFacts.
Import JS.

Lemma unit_eqb_eq (a b : code_unit) : unit_eqb a b = true <-> a = b.
Proof. apply N.eqb_eq. Qed.

Lemma jsstring_eqb_eq (a b : jsstring) : jsstring_eqb a b = true <-> a = b.
Proof.
  revert b; induction a as [|x a IH]; intros [|y b]; simpl; try easy.
  rewrite andb_true_iff, unit_eqb_eq, IH.
  split; [intros [-> ->]; reflexivity | intros [= -> ->]; auto].
Qed.

Lemma jsstring_eqb_refl (a : jsstring) : jsstring_eqb a a = true.
Proof. apply jsstring_eqb_eq; reflexivity. Qed.

Lemma jsstring_eqb_neq (a b : jsstring) : jsstring_eqb a b = false <-> a <> b.
Proof.
  rewrite <- jsstring_eqb_eq. destruct (jsstring_eqb a b); split; congruence.
Qed.

(** [startsWith] holds exactly of the strings that begin with the prefix. *)
Lemma startsWith_spec (s p : jsstring) :
  startsWith s p = true <-> exists post, s = p ++ post.
Proof.
  revert s; induction p as [|x p IH]; intros s; simpl.
  - split; eauto.
  - destruct s as [|y s].
    + split; [discriminate | intros [post H]; discriminate].
    + rewrite andb_true_iff, unit_eqb_eq, IH. split.
      * intros [-> [post ->]]. eauto.
      * intros [post [= -> ->]]. eauto.
Qed.

(** [includes] holds exactly of the strings with an occurrence of the
    searched string. *)
Lemma includes_spec (s p : jsstring) :
  includes s p = true <-> exists pre post, s = pre ++ p ++ post.
Proof.
  induction s as [|c s IH]; simpl.
  - rewrite orb_false_r, startsWith_spec. split.
    + intros [post H]. exists [], post. exact H.
    + intros [pre [post H]]. destruct pre; simpl in H.
      * eauto.
      * discriminate.
  - rewrite orb_true_iff, startsWith_spec, IH. split.
    + intros [[post H] | [pre [post H]]].
      * exists [], post. exact H.
      * exists (c :: pre), post. simpl. congruence.
    + intros [[|d pre] [post H]]; simpl in H.
      * left. eauto.
      * right. injection H as -> ->. eauto.
Qed.

End StringFacts.

(* ===================================================================== *)
(** * The match of [/{.*}/] *)
(* ===================================================================== *)

Section RegexFacts.
Import JS Spec.

(** [.*}] at the start of a string. *)
Local Abbreviation dots_close := (match_here [Many dot; One (unit_eqb rbrace)]).

Lemma dots_close_nil : dots_close [] = None.
Proof. reflexivity. Qed.

Lemma dots_close_cons (c : code_unit) (s : jsstring) :
  dots_close (c :: s) =
  if dot c then
    match dots_close s with
    | Some m => Some (c :: m)
    | None => if unit_eqb rbrace c then Some [c] else None
    end
  else if unit_eqb rbrace c then Some [c] else None.
Proof.
  change (dots_close (c :: s)) with
    (if dot c then
       match dots_close s with
       | Some m => Some (c :: m)
       | None => match_here [One (unit_eqb rbrace)] (c :: s)
       end
     else match_here [One (unit_eqb rbrace)] (c :: s)).
  simpl. destruct (unit_eqb rbrace c); reflexivity.
Qed.

Lemma rbrace_is_dot : dot rbrace = true.
Proof. reflexivity. Qed.

(** No closing brace can be reached: every [}] of the string lies
    behind a line terminator. *)
Lemma dots_close_None (s : jsstring) :
  dots_close s = None ->
  forall body post, s = body ++ rbrace :: post -> dots body -> False.
Proof.
  unfold dots. induction s as [|c s IH]; intros Hn body post Hs Hd.
  - destruct body; discriminate.
  - rewrite dots_close_cons in Hn.
    destruct body as [|b body]; simpl in Hs; injection Hs as -> ->.
    + rewrite rbrace_is_dot in Hn.
      destruct (dots_close post); [discriminate|].
      change (unit_eqb rbrace rbrace) with true in Hn. discriminate.
    + inversion Hd as [|? ? Hb Hd']; subst. rewrite Hb in Hn.
      destruct (dots_close (body ++ rbrace :: post)) eqn:E; [discriminate|].
      eapply IH; eauto.
Qed.

(** The match ends at the last [}] that can be reached. *)
Lemma dots_close_Some (s m : jsstring) :
  dots_close s = Some m ->
  exists body post,
    s = body ++ rbrace :: post /\ m = body ++ [rbrace] /\
    dots body /\
    forall body' post', s = body' ++ rbrace :: post' ->
      dots body' -> (length body' <= length body)%nat.
Proof.
  unfold dots. revert m; induction s as [|c s IH]; intros m Hm.
  - discriminate.
  - rewrite dots_close_cons in Hm.
    destruct (dot c) eqn:Hc.
    + destruct (dots_close s) as [m'|] eqn:E.
      * injection Hm as <-.
        destruct (IH m' eq_refl) as (body & post & -> & -> & Hd & Hmax).
        exists (c :: body), post. repeat split; auto.
        intros [|b body'] post' Hs Hd'; simpl; [lia|].
        simpl in Hs. injection Hs as -> Hs. inversion Hd'; subst.
        apply le_n_S. eapply Hmax; eauto.
      * destruct (unit_eqb rbrace c) eqn:Hr; [|discriminate].
        injection Hm as <-. apply unit_eqb_eq in Hr as <-.
        exists [], s. repeat split; auto.
        intros [|b body'] post' Hs Hd'; simpl; [lia|].
        simpl in Hs. injection Hs as Hb Hs. subst b s. inversion Hd'; subst.
        exfalso. eapply dots_close_None; eauto.
    + destruct (unit_eqb rbrace c) eqn:Hr; [|discriminate].
      apply unit_eqb_eq in Hr as <-. rewrite rbrace_is_dot in Hc. discriminate.
Qed.

Lemma match_here_braces (s : jsstring) :
  match_here braces_re s =
  match s with
  | c :: s' => if unit_eqb lbrace c then cons c <$> dots_close s' else None
  | [] => None
  end.
Proof. destruct s; reflexivity. Qed.

(** A reachable [}] that is the last one is where the match ends. *)
Lemma dots_close_complete (body post : jsstring) :
  dots body ->
  (forall body' post', body ++ rbrace :: post = body' ++ rbrace :: post' ->
     dots body' -> (length body' <= length body)%nat) ->
  dots_close (body ++ rbrace :: post) = Some (body ++ [rbrace]).
Proof.
  intros Hd Hmax.
  destruct (dots_close (body ++ rbrace :: post)) as [m|] eqn:E.
  - destruct (dots_close_Some _ _ E) as (b & p & Hs & -> & Hb & Hbmax).
    assert (length b = length body) as Hlen.
    { apply Nat.le_antisymm; [eapply Hmax; eauto | eapply Hbmax; eauto]. }
    apply app_inj_1 in Hs as [-> _]; auto.
  - exfalso. eapply dots_close_None; eauto.
Qed.

Lemma match_here_braces_Some (s m : jsstring) :
  match_here braces_re s = Some m <->
  exists body post,
    s = lbrace :: body ++ rbrace :: post /\ m = lbrace :: body ++ [rbrace] /\
    dots body /\
    forall body' post', body ++ rbrace :: post = body' ++ rbrace :: post' ->
      dots body' -> (length body' <= length body)%nat.
Proof.
  rewrite match_here_braces. split.
  - destruct s as [|c s]; [discriminate|].
    destruct (unit_eqb lbrace c) eqn:Hc; [|discriminate].
    apply unit_eqb_eq in Hc as <-.
    destruct (dots_close s) as [m'|] eqn:E; [|discriminate].
    intros [= <-].
    destruct (dots_close_Some _ _ E) as (body & post & -> & -> & Hd & Hmax).
    exists body, post. auto.
  - intros (body & post & -> & -> & Hd & Hmax).
    change (unit_eqb lbrace lbrace) with true. cbv iota.
    rewrite dots_close_complete; auto.
Qed.

Lemma match_here_braces_None (s : jsstring) :
  match_here braces_re s = None <->
  forall body post, s = lbrace :: body ++ rbrace :: post -> ~ dots body.
Proof.
  rewrite match_here_braces. split.
  - intros Hn body post -> Hd. change (unit_eqb lbrace lbrace) with true in Hn.
    destruct (dots_close (body ++ rbrace :: post)) eqn:E; [discriminate|].
    eapply dots_close_None; eauto.
  - intros H. destruct s as [|c s]; [reflexivity|].
    destruct (unit_eqb lbrace c) eqn:Hc; [|reflexivity].
    apply unit_eqb_eq in Hc as <-.
    destruct (dots_close s) as [m'|] eqn:E; [|reflexivity].
    destruct (dots_close_Some _ _ E) as (body & post & -> & -> & Hd & _).
    exfalso. eapply H; eauto.
Qed.

Lemma regex_match_cons (c : code_unit) (s : jsstring) :
  regex_match braces_re (c :: s) =
  match match_here braces_re (c :: s) with
  | Some m => Some m
  | None => regex_match braces_re s
  end.
Proof. reflexivity. Qed.

(** [error.match(/{.*}/)] finds the brace group of [error]. *)
Lemma regex_match_braces_Some (error m : jsstring) :
  regex_match braces_re error = Some m <-> brace_group error m.
Proof.
  split.
  - revert m; induction error as [|c s IH]; intros m H; [discriminate|].
    rewrite regex_match_cons in H.
    destruct (match_here braces_re (c :: s)) as [m'|] eqn:E.
    + injection H as ->.
      apply match_here_braces_Some in E as (body & post & Hs & -> & Hd & Hmax).
      exists [], body, post. repeat split; auto.
      intros [|? ?] ? ? ? Hp; discriminate Hp.
    + destruct (IH m H) as (pre & body & post & -> & -> & Hd & Hmax & Hleft).
      exists (c :: pre), body, post. repeat split; auto.
      intros [|c1 pre1] pre2 body' post' Hp Hs Hd'.
      * injection Hp as -> ->.
        rewrite match_here_braces_None in E.
        eapply E; [|exact Hd']. simpl. f_equal. exact Hs.
      * injection Hp as -> ->. eapply Hleft; eauto.
  - intros (pre & body & post & -> & -> & Hd & Hmax & Hleft).
    induction pre as [|c pre IH].
    + simpl app. rewrite regex_match_cons.
      replace (match_here braces_re (lbrace :: body ++ rbrace :: post))
        with (Some (lbrace :: body ++ [rbrace])); [reflexivity|].
      symmetry. apply match_here_braces_Some. exists body, post. auto.
    + simpl app. rewrite regex_match_cons.
      destruct (match_here braces_re (c :: pre ++ lbrace :: body ++ rbrace :: post))
        as [m'|] eqn:E.
      * apply match_here_braces_Some in E as (body' & post' & Hs & _ & Hd' & _).
        injection Hs as -> Hs. exfalso.
        eapply (Hleft [] pre); eauto.
      * apply IH. intros pre1 pre2 body' post' ->.
        apply (Hleft (c :: pre1) pre2). reflexivity.
Qed.

(** [null] when no line has a [{] before a [}]. *)
Lemma regex_match_braces_None (error : jsstring) :
  regex_match braces_re error = None <->
  forall pre body post, error = pre ++ lbrace :: body ++ rbrace :: post -> ~ dots body.
Proof.
  induction error as [|c s IH].
  - split; [|reflexivity]. intros _ [|? ?] ? ? H; discriminate H.
  - rewrite regex_match_cons.
    destruct (match_here braces_re (c :: s)) as [m'|] eqn:E.
    + split; [discriminate|]. intros H. exfalso.
      apply match_here_braces_Some in E as (body & post & Hs & _ & Hd & _).
      eapply (H []); eauto.
    + rewrite IH. rewrite match_here_braces_None in E. split.
      * intros H [|c1 pre] body post Hs.
        -- eapply E; eauto.
        -- injection Hs as -> ->. eapply H; eauto.
      * intros H pre body post ->. apply (H (c :: pre) body post). reflexivity.
Qed.

End RegexFacts.

(* ===================================================================== *)
(** * [JSON.parse] always comes to a result *)
(* ===================================================================== *)

Section ParseFacts.
Import JS.

Lemma skip_ws_length (s : jsstring) : (length (skip_ws s) <= length s)%nat.
Proof.
  induction s as [|c s IH]; simpl; [lia|].
  destruct (is_ws c); simpl; lia.
Qed.

Lemma take_digits_length (s : jsstring) :
  (length (snd (take_digits s)) <= length s)%nat.
Proof.
  induction s as [|c s IH]; simpl; [lia|].
  destruct (is_digit c); simpl; [|lia].
  destruct (take_digits s); simpl in *; lia.
Qed.

Lemma take_digits_rest (s r : jsstring) (ds : list N) :
  take_digits s = (ds, r) -> (length r <= length s)%nat.
Proof. intros H. pose proof (take_digits_length s) as L. rewrite H in L. exact L. Qed.

Lemma parse_string_length (s str r : jsstring) :
  parse_string s = Some (str, r) -> (length r < length s)%nat.
Proof.
  remember (length s) as n eqn:Hn.
  revert s str r Hn.
  induction n as [n IH] using lt_wf_ind. intros s str r -> H.
  destruct s as [|c s1]; [discriminate|]. simpl in H.
  destruct (c =? 34)%N; [injection H as <- <-; simpl; lia|].
  destruct (c =? 92)%N.
  - destruct s1 as [|e s2]; [discriminate|].
    destruct (e =? 117)%N.
    + destruct s2 as [|h1 [|h2 [|h3 [|h4 s6]]]]; try discriminate.
      destruct (hex4_value h1 h2 h3 h4); [|discriminate].
      destruct (parse_string s6) as [[str' r']|] eqn:E; [|discriminate].
      injection H as <- <-.
      assert (length r' < length s6)%nat by (eapply IH; [| reflexivity | exact E]; simpl; lia).
      simpl; lia.
    + destruct (escape_char e); [|discriminate].
      destruct (parse_string s2) as [[str' r']|] eqn:E; [|discriminate].
      injection H as <- <-.
      assert (length r' < length s2)%nat by (eapply IH; [| reflexivity | exact E]; simpl; lia).
      simpl; lia.
  - destruct (c <? 32)%N; [discriminate|].
    destruct (parse_string s1) as [[str' r']|] eqn:E; [|discriminate].
    injection H as <- <-.
    assert (length r' < length s1)%nat by (eapply IH; [| reflexivity | exact E]; simpl; lia).
    simpl; lia.
Qed.

Lemma parse_int_length (s r : jsstring) (ds : list N) :
  parse_int s = Some (ds, r) -> (length r < length s)%nat.
Proof.
  destruct s as [|c s]; [discriminate|]. unfold parse_int.
  destruct (c =? 48)%N; [intros [= <- <-]; simpl; lia|].
  destruct (is_digit c) eqn:Hd; [|discriminate].
  simpl. rewrite Hd. destruct (take_digits s) as [ds' r'] eqn:E.
  intros [= <- <-]. apply take_digits_rest in E. simpl; lia.
Qed.

Lemma parse_frac_length (s r : jsstring) (ds : list N) :
  parse_frac s = Some (ds, r) -> (length r <= length s)%nat.
Proof.
  destruct s as [|c s]; simpl; [intros [= <- <-]; simpl; lia|].
  destruct (c =? 46)%N; [|intros [= <- <-]; simpl; lia].
  destruct (take_digits s) as [[|d ds'] r'] eqn:E; [discriminate|].
  intros [= <- <-]. apply take_digits_rest in E. simpl; lia.
Qed.

Lemma parse_exp_length (s r : jsstring) (e : Z) :
  parse_exp s = Some (e, r) -> (length r <= length s)%nat.
Proof.
  destruct s as [|c s]; simpl; [intros [= <- <-]; simpl; lia|].
  destruct ((c =? 101)%N || (c =? 69)%N); [|intros [= <- <-]; simpl; lia].
  destruct s as [|g t].
  - simpl. discriminate.
  - destruct (g =? 45)%N; [|destruct (g =? 43)%N].
    + destruct (take_digits t) as [[|d ds'] r'] eqn:E; [discriminate|].
      intros [= <- <-]. apply take_digits_rest in E. simpl; lia.
    + destruct (take_digits t) as [[|d ds'] r'] eqn:E; [discriminate|].
      intros [= <- <-]. apply take_digits_rest in E. simpl; lia.
    + destruct (take_digits (g :: t)) as [[|d ds'] r'] eqn:E; [discriminate|].
      intros [= <- <-]. apply take_digits_rest in E. simpl in *; lia.
Qed.

Lemma parse_number_length (s r : jsstring) (x : number) :
  parse_number s = Some (x, r) -> (length r < length s)%nat.
Proof.
  unfold parse_number.
  set (p := match s with
            | [] => (false, s)
            | c :: s' => if (c =? 45)%N then (true, s') else (false, s)
            end).
  assert (length (snd p) <= length s)%nat as Hp.
  { subst p. destruct s as [|c s']; simpl; [lia|]. destruct (c =? 45)%N; simpl; lia. }
  destruct p as [neg s1]. simpl in Hp.
  destruct (parse_int s1) as [[ip s2]|] eqn:E1; [|discriminate].
  destruct (parse_frac s2) as [[fp s3]|] eqn:E2; [|discriminate].
  destruct (parse_exp s3) as [[e s4]|] eqn:E3; [|discriminate].
  intros [= <- <-].
  apply parse_int_length in E1. apply parse_frac_length in E2.
  apply parse_exp_length in E3. lia.
Qed.

Lemma parse_word_length (w : string) (v v' : json) (c : code_unit) (s r : jsstring) :
  parse_word w v (c :: s) = Parsed v' r -> (0 < String.length w)%nat ->
  (length r < length (c :: s))%nat.
Proof.
  unfold parse_word. destruct (startsWith (c :: s) (lit w)); [|discriminate].
  intros [= <- <-] Hw. rewrite length_drop. simpl. lia.
Qed.

(** Facts on lengths that the hypotheses of a goal give. *)
Ltac length_facts :=
  repeat match goal with
  | H : skip_ws ?s = _ |- _ =>
      let L := fresh "L" in
      pose proof (skip_ws_length s) as L; rewrite H in L; simpl in L;
      revert H
  | H : parse_string _ = Some _ |- _ => apply parse_string_length in H
  | H : parse_number _ = Some _ |- _ => apply parse_number_length in H
  | H : parse_word _ _ (_ :: _) = Parsed _ _ |- _ =>
      apply parse_word_length in H; [|simpl; lia]
  end; intros.

(** Every parsed value takes at least one code unit of the text. *)
Lemma parse_value_length (fuel : nat) :
  (forall s v r, parse_value fuel s = Parsed v r -> (length r < length s)%nat) /\
  (forall s acc v r, parse_elements fuel s acc = Parsed v r -> (length r < length s)%nat) /\
  (forall s acc v r, parse_members fuel s acc = Parsed v r -> (length r < length s)%nat).
Proof.
  induction fuel as [|fuel (IHv & IHe & IHm)]; [repeat split; intros; discriminate|].
  repeat split.
  - intros s v r H. simpl in H.
    repeat case_match; simplify_eq;
      repeat match goal with
      | H : parse_elements fuel _ _ = Parsed _ _ |- _ => apply IHe in H
      | H : parse_members fuel _ _ = Parsed _ _ |- _ => apply IHm in H
      end; length_facts; simpl in *; lia.
  - intros s acc v r H. simpl in H.
    repeat case_match; simplify_eq;
      repeat match goal with
      | H : parse_value fuel _ = Parsed _ _ |- _ => apply IHv in H
      | H : parse_elements fuel _ _ = Parsed _ _ |- _ => apply IHe in H
      end; length_facts; simpl in *; lia.
  - intros s acc v r H. simpl in H.
    repeat case_match; simplify_eq;
      repeat match goal with
      | H : parse_value fuel _ = Parsed _ _ |- _ => apply IHv in H
      | H : parse_members fuel _ _ = Parsed _ _ |- _ => apply IHm in H
      end; length_facts; simpl in *; lia.
Qed.

(** The fuel [JSON_parse] gives is never used up: a text that is not a
    JSON value ends in a SyntaxError, and in nothing else. *)
Lemma parse_value_fuel (fuel : nat) :
  (forall s, (2 * length s + 1 <= fuel)%nat -> parse_value fuel s <> OutOfFuel) /\
  (forall s acc, (2 * length s + 2 <= fuel)%nat -> parse_elements fuel s acc <> OutOfFuel) /\
  (forall s acc, (2 * length s + 2 <= fuel)%nat -> parse_members fuel s acc <> OutOfFuel).
Proof.
  induction fuel as [|fuel (IHv & IHe & IHm)]; [repeat split; intros; lia|].
  pose proof (parse_value_length fuel) as (Lv & Le & Lm).
  repeat split.
  - intros s Hlen H. simpl in H.
    repeat case_match; simplify_eq.
    + eapply IHe; [|eassumption]. length_facts. simpl in *. lia.
    + eapply IHm; [|eassumption]. length_facts. simpl in *. lia.
    + unfold parse_word in H. case_match; discriminate.
    + unfold parse_word in H. case_match; discriminate.
    + unfold parse_word in H. case_match; discriminate.
  - intros s acc Hlen H. simpl in H.
    repeat case_match; simplify_eq.
    + eapply IHe; [|eassumption].
      match goal with Hp : parse_value fuel _ = Parsed _ _ |- _ => apply Lv in Hp end.
      length_facts. simpl in *. lia.
    + eapply IHv; [|eassumption]. lia.
  - intros s acc Hlen H. simpl in H.
    repeat case_match; simplify_eq.
    + eapply IHm; [|eassumption].
      match goal with Hp : parse_value fuel _ = Parsed _ _ |- _ => apply Lv in Hp end.
      length_facts. simpl in *. lia.
    + eapply IHv; [|eassumption]. length_facts. simpl in *. lia.
Qed.

Lemma JSON_parse_terminates (s : jsstring) :
  parse_value (parse_fuel s) s <> OutOfFuel.
Proof. apply parse_value_fuel. unfold parse_fuel. lia. Qed.

End ParseFacts.

(* ===================================================================== *)
(** * The JavaScript model at work *)
(* ===================================================================== *)

Section ModelExamples.
Import JS.

(** [String(x)] on values whose text is well known. *)
Example Number_toString_examples :
  Number_toString (number_of_decimal false 1 (-1)) = lit "0.1" /\
  Number_toString (div (number_of_Z 1) (number_of_Z 3)) = lit "0.3333333333333333" /\
  Number_toString (number_of_decimal false 123456789 (-4)) = lit "12345.6789" /\
  Number_toString (number_of_decimal false 1 21) = lit "1e+21" /\
  Number_toString (number_of_decimal false 123 (-9)) = lit "1.23e-7" /\
  Number_toString (number_of_decimal false 5 (-324)) = lit "5e-324" /\
  Number_toString (number_of_decimal false 17976931348623157 292)
  = lit "1.7976931348623157e+308" /\
  Number_toString (number_of_Z (-9007199254740993)) = lit "-9007199254740992" /\
  number_of_decimal false 1 400 = Infinity /\
  number_of_decimal true 2 (-324) = S754_zero true.
Proof. repeat split; vm_compute; reflexivity. Qed.

(** [x.toFixed(2)]: the binary value decides, not the decimal literal;
    halves round up; the sign of a negative value stays; from [1e21] on
    the text is that of [String]. *)
Example toFixed_examples :
  toFixed (number_of_decimal false 1005 (-3)) 2 = lit "1.00" /\
  toFixed (number_of_decimal false 8345 (-3)) 2 = lit "8.35" /\
  toFixed (number_of_decimal false 125 (-3)) 2 = lit "0.13" /\
  toFixed (number_of_decimal true 1 (-3)) 2 = lit "-0.00" /\
  toFixed (S754_zero true) 2 = lit "0.00" /\
  toFixed (number_of_decimal false 123456 (-2)) 2 = lit "1234.56" /\
  toFixed (number_of_decimal false 1 21) 2 = lit "1e+21" /\
  toFixed NaN 2 = lit "NaN" /\
  toFixed (S754_infinity true) 2 = lit "-Infinity".
Proof. repeat split; vm_compute; reflexivity. Qed.

(** [JSON.parse]: white space, escapes, numbers, duplicate keys; and the
    texts it refuses. *)
Example JSON_parse_examples :
  JSON_parse (lit " { " ++ quote (lit "a") ++ lit " : [1, -0, 2.5e1, true, null] } ")
  = Some (JObject [(lit "a",
            JArray [JNumber (number_of_Z 1); JNumber (S754_zero true);
                    JNumber (number_of_Z 25); JBool true; JNull])]) /\
  JSON_parse ([34%N] ++ lit "A\n\/" ++ [34%N]) = Some (JString [65; 10; 47]%N) /\
  JSON_parse (lit "{" ++ quote (lit "k") ++ lit ":1," ++ quote (lit "j") ++ lit ":2,"
                ++ quote (lit "k") ++ lit ":3}")
  = Some (JObject [(lit "k", JNumber (number_of_Z 3)); (lit "j", JNumber (number_of_Z 2))]) /\
  JSON_parse (lit "{} {}") = None /\
  JSON_parse (lit "{a:1}") = None /\
  JSON_parse (lit "[1,]") = None /\
  JSON_parse (lit "01") = None /\
  JSON_parse (lit "1.") = None /\
  JSON_parse (lit "[[[[") = None /\
  JSON_parse (lit "nul") = None /\
  JSON_parse [] = None.
Proof. repeat split; vm_compute; reflexivity. Qed.

(** [JSON.stringify]: escapes, numbers that are not finite, and the
    order of the keys of an object, array indices first. *)
Example JSON_stringify_examples :
  JSON_stringify (JString [34; 92; 10; 31; 55296; 120]%N)
  = [34; 92; 34; 92; 92]%N ++ lit "\n\u001f\ud800x" ++ [34%N] /\
  JSON_stringify (JArray [JNumber Infinity; JNumber (S754_zero true); JBool false; JNull])
  = lit "[null,0,false,null]" /\
  JSON_stringify (JObject [(lit "b", JNull); (lit "10", JNull); (lit "9", JNull);
                           (lit "01", JNull)])
  = lit "{" ++ quote (lit "9") ++ lit ":null," ++ quote (lit "10") ++ lit ":null,"
    ++ quote (lit "b") ++ lit ":null," ++ quote (lit "01") ++ lit ":null}" /\
  JSON_stringify (JObject (obj_set (lit "code") (JNumber (number_of_Z (-32002))) []))
  = lit "{" ++ quote (lit "code") ++ lit ":-32002}".
Proof. repeat split; vm_compute; reflexivity. Qed.

(** [/{.*}/]: leftmost, greedy, within one line. *)
Example regex_match_examples :
  regex_match braces_re (lit "a {b} c {d} e") = Some (lit "{b} c {d}") /\
  regex_match braces_re (lit "} { x") = None /\
  regex_match braces_re (lit "{" ++ [10%N] ++ lit "} {}}") = Some (lit "{}}") /\
  regex_match braces_re (lit "{{}") = Some (lit "{{}") /\
  regex_match braces_re (lit "no braces") = None.
Proof. repeat split; vm_compute; reflexivity. Qed.

End ModelExamples.

(* ===================================================================== *)
(** * formatError *)
(* ===================================================================== *)

Section FormatError.
Import JS Spec PipelineStep.
Context (en : engine).

Lemma formatError_unfold (error : jsstring) :
  includes error (lit "insufficient funds") = false ->
  includes error (lit "0x1771") = false ->
  formatError en error =
  match regex_match braces_re error with
  | Some m =>
      match JSON_parse m with
      | Some v =>
          match get_prop v (lit "error") with
          | Some e =>
              if truthy (Some e) then
                match JSON_stringify_in en e with
                | Some r => r
                | None => error
                end
              else error
          | None => error
          end
      | None => error
      end
  | None => error
  end.
Proof.
  intros H1 H2. unfold formatError, formatError_try. rewrite H1, H2.
  destruct (regex_match braces_re error) as [m|]; [|reflexivity].
  destruct (JSON_parse m) as [v|]; [|reflexivity]. cbn [mbind option_bind].
  destruct (get_prop v (lit "error")) as [e|]; [|reflexivity].
  destruct (truthy (Some e)); reflexivity.
Qed.

(** A value that is not an array or an object is serialised in every
    engine. *)
Lemma JSON_stringify_in_flat (e : json) :
  nesting e = O -> JSON_stringify_in en e = Some (JSON_stringify e).
Proof. destruct e; try reflexivity; discriminate. Qed.

Lemma JSON_stringify_in_cases (e : json) :
  (JSON_stringify_in en e = Some (JSON_stringify e) /\
   (nesting e = O \/ stack_exhausted en e = false)) \/
  (JSON_stringify_in en e = None /\ nesting e <> O /\ stack_exhausted en e = true).
Proof.
  destruct e; cbn [JSON_stringify_in nesting]; auto;
    destruct (stack_exhausted en _) eqn:E; auto.
Qed.

(** C8, as amended.  [formatError] is a total function of its input:
    whatever its [try] block throws is caught.  Its cases apply in this
    order: a text with "insufficient funds" gives "Insufficient
    balance", also when "0x1771" is in it; otherwise a text with
    "0x1771" gives "Slippage tolerance exceeded"; otherwise, when the
    brace group of the text (from the first opening brace with a closing
    brace later on its line, to the last closing brace of that line)
    parses as JSON with a truthy [error] field, that field
    re-serialized, unless the serialisation exhausts the call stack of
    the engine, which a string, number or boolean field never does; and
    in every other case the text unchanged: when there is no brace
    group, when it is not JSON (the [try] block throws a SyntaxError),
    when the field is missing or falsy, and when the serialisation
    throws its RangeError. *)
Theorem formatError_cases (error : jsstring) :
  (includes error (lit "insufficient funds") = true ->
   formatError en error = lit "Insufficient balance") /\
  (includes error (lit "insufficient funds") = false ->
   includes error (lit "0x1771") = true ->
   formatError en error = lit "Slippage tolerance exceeded") /\
  (includes error (lit "insufficient funds") = false ->
   includes error (lit "0x1771") = false ->
   forall m v e,
     brace_group error m -> JSON_parse m = Some v ->
     get_prop v (lit "error") = Some e -> truthy (Some e) = true ->
     (nesting e = O \/ stack_exhausted en e = false ->
      formatError_try en error = Some (JSON_stringify e) /\
      formatError en error = JSON_stringify e) /\
     (nesting e <> O -> stack_exhausted en e = true ->
      formatError_try en error = None /\ formatError en error = error)) /\
  (includes error (lit "insufficient funds") = false ->
   includes error (lit "0x1771") = false ->
   (forall m v, brace_group error m -> JSON_parse m = Some v ->
                truthy (get_prop v (lit "error")) = false) ->
   formatError en error = error) /\
  (includes error (lit "insufficient funds") = false ->
   includes error (lit "0x1771") = false ->
   forall m, brace_group error m -> JSON_parse m = None ->
   formatError_try en error = None /\ formatError en error = error).
Proof.
  split; [|split; [|split; [|split]]].
  - intros H. unfold formatError. rewrite H. reflexivity.
  - intros H1 H2. unfold formatError. rewrite H1, H2. reflexivity.
  - intros H1 H2 m v e Hm Hv He Ht.
    apply regex_match_braces_Some in Hm.
    assert (formatError_try en error = JSON_stringify_in en e) as T.
    { unfold formatError_try. rewrite Hm, Hv. cbn [mbind option_bind]. rewrite He, Ht.
      reflexivity. }
    unfold formatError. rewrite H1, H2, T.
    destruct (JSON_stringify_in_cases e) as [[-> H] | (-> & Hn & Hx)].
    + split; [auto|]. intros Hn Hx. destruct H as [H0 | Hf]; [contradiction | congruence].
    + split; [|auto]. intros [H0 | Hf]; [contradiction | congruence].
  - intros H1 H2 H.
    rewrite formatError_unfold by assumption.
    destruct (regex_match braces_re error) as [m|] eqn:Hm; [|reflexivity].
    apply regex_match_braces_Some in Hm.
    destruct (JSON_parse m) as [v|] eqn:Hv; [|reflexivity].
    specialize (H m v Hm Hv).
    destruct (get_prop v (lit "error")) as [e|]; [|reflexivity].
    rewrite H. reflexivity.
  - intros H1 H2 m Hm Hv. apply regex_match_braces_Some in Hm.
    unfold formatError, formatError_try. rewrite H1, H2, Hm, Hv. auto.
Qed.

End FormatError.

Section FormatErrorWitness.
Import JS Spec PipelineStep.

Lemma formatError_cases_witness :
  formatError small_stack (lit "Transfer: insufficient funds for rent, 0x1771")
  = lit "Insufficient balance" /\
  formatError small_stack (lit "custom program error: 0x1771")
  = lit "Slippage tolerance exceeded" /\
  formatError small_stack rpc_error_text = quote (lit "x") /\
  formatError large_stack (nested_error_text 200) = nested_arrays 200 /\
  formatError small_stack (nested_error_text 200) = nested_error_text 200 /\
  formatError small_stack (lit "blockhash not found {") = lit "blockhash not found {" /\
  formatError small_stack (lit "failed {see logs}") = lit "failed {see logs}".
Proof.
  split; [|split; [|split; [|split; [|split; [|split]]]]].
  - apply (proj1 (formatError_cases small_stack _)). reflexivity.
  - apply (proj1 (proj2 (formatError_cases small_stack _))); reflexivity.
  - pose proof (proj1 (proj2 (proj2 (formatError_cases small_stack rpc_error_text)))
                  eq_refl eq_refl rpc_error_object
                  (JObject [(lit "error", JString (lit "x"))]) (JString (lit "x"))
                  (proj1 (regex_match_braces_Some rpc_error_text rpc_error_object) eq_refl)
                  eq_refl eq_refl eq_refl) as [Hsome _].
    apply Hsome. left. reflexivity.
  - assert (brace_group (nested_error_text 200) (nested_error_text 200)) as Hm
      by (apply regex_match_braces_Some; vm_compute; reflexivity).
    assert (JSON_parse (nested_error_text 200)
            = Some (JObject [(lit "error", nested_value 200)])) as Hv
      by (vm_compute; reflexivity).
    change (nested_arrays 200) with (JSON_stringify (nested_value 200)).
    pose proof (proj1 (proj2 (proj2 (formatError_cases large_stack (nested_error_text 200))))
                  eq_refl eq_refl (nested_error_text 200)
                  (JObject [(lit "error", nested_value 200)]) (nested_value 200)
                  Hm Hv eq_refl eq_refl) as [Hsome _].
    apply Hsome. right. vm_compute. reflexivity.
  - assert (brace_group (nested_error_text 200) (nested_error_text 200)) as Hm
      by (apply regex_match_braces_Some; vm_compute; reflexivity).
    assert (JSON_parse (nested_error_text 200)
            = Some (JObject [(lit "error", nested_value 200)])) as Hv
      by (vm_compute; reflexivity).
    pose proof (proj1 (proj2 (proj2 (formatError_cases small_stack (nested_error_text 200))))
                  eq_refl eq_refl (nested_error_text 200)
                  (JObject [(lit "error", nested_value 200)]) (nested_value 200)
                  Hm Hv eq_refl eq_refl) as [_ Hnone].
    apply Hnone; [discriminate | vm_compute; reflexivity].
  - apply (proj1 (proj2 (proj2 (proj2 (formatError_cases small_stack
                                         (lit "blockhash not found {")))))
             eq_refl eq_refl).
    intros m v Hm. apply regex_match_braces_Some in Hm. discriminate Hm.
  - apply (proj2 (proj2 (proj2 (proj2 (formatError_cases small_stack
                                         (lit "failed {see logs}")))))
             eq_refl eq_refl (lit "{see logs}")).
    + apply regex_match_braces_Some. reflexivity.
    + reflexivity.
Defined.

(** C8 as it is worded fails: a text can contain a brace-delimited
    substring that parses as JSON with a truthy [error] field and still
    come back unchanged, because only the brace group is parsed, and
    here it reaches to the last closing brace of the line. *)
Lemma formatError_two_groups_counterexample :
  includes two_groups_text (lit "insufficient funds") = false /\
  includes two_groups_text (lit "0x1771") = false /\
  substring rpc_error_object two_groups_text /\
  brace_delimited rpc_error_object /\
  JSON_parse rpc_error_object = Some (JObject [(lit "error", JString (lit "x"))]) /\
  truthy (get_prop (JObject [(lit "error", JString (lit "x"))]) (lit "error")) = true /\
  formatError small_stack two_groups_text = two_groups_text /\
  formatError small_stack two_groups_text <> JSON_stringify (JString (lit "x")).
Proof.
  repeat split; try reflexivity.
  - exists [], (lit " {}"). reflexivity.
  - exists (quote (lit "error") ++ lit ":" ++ quote (lit "x")). reflexivity.
  - discriminate.
Qed.

End FormatErrorWitness.

(* ===================================================================== *)
(** * Comparison of Numbers *)
(* ===================================================================== *)

Section CompareFacts.
Import JS Spec.

Lemma digits2_pos_size (m : positive) : digits2_pos m = Pos.size m.
Proof. induction m; simpl; congruence. Qed.

Lemma digits2_pos_bounds (m : positive) :
  2 ^ (Zpos (digits2_pos m) - 1) <= Zpos m < 2 ^ Zpos (digits2_pos m).
Proof.
  rewrite digits2_pos_size. split.
  - pose proof (Pos.size_le m) as H.
    assert (2 ^ Zpos (Pos.size m) <= 2 * Zpos m) as H'.
    { change 2 with (Zpos 2) at 1. rewrite <- Pos2Z.inj_pow. exact H. }
    replace (Zpos (Pos.size m)) with (Zpos (Pos.size m) - 1 + 1) in H' by lia.
    rewrite Z.pow_add_r in H' by lia. lia.
  - pose proof (Pos.size_gt m) as H.
    change 2 with (Zpos 2). rewrite <- Pos2Z.inj_pow. exact H.
Qed.

(** A binary64 value in canonical form: the exponent is at least -1074,
    the significand has at most 53 bits, and exactly 53 above the
    subnormal range. *)
Lemma bounded_facts (m : positive) (e : Z) :
  bounded prec emax m e = true ->
  -1074 <= e /\ Zpos m < 2 ^ 53 /\ (-1074 < e -> 2 ^ 52 <= Zpos m).
Proof.
  unfold bounded, canonical_mantissa, fexp, SpecFloat.emin, prec, emax.
  intros H. apply andb_true_iff in H as [H _]. apply Z.eqb_eq in H.
  pose proof (digits2_pos_bounds m) as [Hlo Hhi].
  assert (Zpos (digits2_pos m) <= 53) as Hd by lia.
  repeat split.
  - lia.
  - eapply Z.lt_le_trans; [exact Hhi|]. apply Z.pow_le_mono_r; lia.
  - intros He. assert (Zpos (digits2_pos m) = 53) as Hd' by lia.
    rewrite Hd' in Hlo. exact Hlo.
Qed.

Lemma scaled_lt (m1 m2 : positive) (e1 e2 : Z) :
  bounded prec emax m1 e1 = true -> bounded prec emax m2 e2 = true -> e1 < e2 ->
  Zpos m1 * 2 ^ (e1 + 1074) < Zpos m2 * 2 ^ (e2 + 1074).
Proof.
  intros B1 B2 He.
  apply bounded_facts in B1 as (L1 & U1 & _).
  apply bounded_facts in B2 as (L2 & _ & N2). specialize (N2 ltac:(lia)).
  replace (e2 + 1074) with ((e2 - e1) + (e1 + 1074)) by lia.
  rewrite (Z.pow_add_r 2 (e2 - e1) (e1 + 1074)) by lia.
  assert (0 < 2 ^ (e1 + 1074)) as Hp by (apply Z.pow_pos_nonneg; lia).
  assert (2 ^ 1 <= 2 ^ (e2 - e1)) as H2 by (apply Z.pow_le_mono_r; lia).
  change (2 ^ 1) with 2 in H2. change (2 ^ 53) with 9007199254740992 in U1.
  change (2 ^ 52) with 4503599627370496 in N2.
  rewrite Z.mul_assoc. apply Z.mul_lt_mono_pos_r; [exact Hp|]. nia.
Qed.

(** On positive finite Numbers in canonical form, the comparison is the
    comparison of the values, here scaled by [2^1074] to integers. *)
Lemma SFcompare_finite (m1 m2 : positive) (e1 e2 : Z) :
  bounded prec emax m1 e1 = true -> bounded prec emax m2 e2 = true ->
  SFcompare (S754_finite false m1 e1) (S754_finite false m2 e2)
  = Some (Zpos m1 * 2 ^ (e1 + 1074) ?= Zpos m2 * 2 ^ (e2 + 1074)).
Proof.
  intros B1 B2. cbn [SFcompare]. f_equal.
  destruct (Z.compare_spec e1 e2) as [-> | H | H].
  - pose proof (bounded_facts _ _ B2) as (L2 & _ & _).
    assert (0 < 2 ^ (e2 + 1074)) as Hp by (apply Z.pow_pos_nonneg; lia).
    change (Pos.compare_cont Eq m1 m2) with (Zpos m1 ?= Zpos m2).
    symmetry. destruct (Z.compare_spec (Zpos m1) (Zpos m2)) as [E | E | E].
    + rewrite E. apply Z.compare_refl.
    + apply Z.compare_lt_iff. apply Z.mul_lt_mono_pos_r; assumption.
    + apply Z.compare_gt_iff. apply Z.mul_lt_mono_pos_r; assumption.
  - symmetry. apply Z.compare_lt_iff. apply scaled_lt; assumption.
  - symmetry. apply Z.compare_gt_iff. apply scaled_lt; assumption.
Qed.

Lemma at_least_scaled (m : positive) (e z : Z) :
  -1074 <= e ->
  (z * snd (ratio_of m e) <= fst (ratio_of m e) <->
   z * 2 ^ 1074 <= Zpos m * 2 ^ (e + 1074)).
Proof.
  intros He. unfold ratio_of. destruct e as [|p|p]; cbn [fst snd].
  - rewrite Z.mul_1_r, Z.pow_0_r, Z.mul_1_r. cbn [Z.add].
    assert (0 < 2 ^ 1074) by (apply Z.pow_pos_nonneg; lia). nia.
  - rewrite Z.mul_1_r, Z.pow_add_r by lia.
    assert (0 < 2 ^ 1074) by (apply Z.pow_pos_nonneg; lia).
    rewrite Z.mul_assoc. nia.
  - rewrite Pos2Z.inj_pow. change (Zpos 2) with 2.
    assert (0 < 2 ^ (Zneg p + 1074)) as Hq by (apply Z.pow_pos_nonneg; lia).
    assert (2 ^ 1074 = 2 ^ Zpos p * 2 ^ (Zneg p + 1074)) as ->.
    { rewrite <- Z.pow_add_r by lia. f_equal. lia. }
    rewrite Z.mul_assoc. nia.
Qed.

(** [x >= t] for a positive threshold [t] whose value is the integer
    [z]: it holds exactly when the value of [x] is at least [z]. *)
Lemma ge_threshold (x : number) (mt : positive) (et z : Z) :
  valid_binary prec emax x = true ->
  bounded prec emax mt et = true ->
  Zpos mt * 2 ^ (et + 1074) = z * 2 ^ 1074 ->
  ge x (S754_finite false mt et) = true <-> at_least x z.
Proof.
  intros Vx Bt Hz. unfold ge, SFleb.
  destruct x as [s | [|] | | [|] m e]; cbn [at_least];
    try (cbn [SFcompare]; split; [discriminate | contradiction]);
    try (cbn [SFcompare]; tauto).
  cbn [valid_binary] in Vx.
  rewrite (SFcompare_finite mt m et e Bt Vx).
  rewrite at_least_scaled by (apply bounded_facts in Vx; lia).
  rewrite Hz.
  destruct (Z.compare_spec (z * 2 ^ 1074) (Zpos m * 2 ^ (e + 1074))); split; intros;
    try reflexivity; try lia; try discriminate.
Qed.

End CompareFacts.

(* ===================================================================== *)
(** * Decimal digits *)
(* ===================================================================== *)

Section Digits.
Import JS Spec.

Lemma units_of_uint_digits (d : Decimal.uint) :
  Forall (fun c => is_digit c = true) (units_of_uint d).
Proof. induction d; cbn [units_of_uint]; constructor; auto. Qed.

Lemma N_of_digits_acc (d : Decimal.uint) (acc : positive) :
  fold_left (fun a x => (10 * a + x)%N)
    (List.map (fun c => (c - 48)%N) (units_of_uint d)) (Npos acc)
  = Npos (Pos.of_uint_acc d acc).
Proof.
  revert acc; induction d; intros acc; cbn [units_of_uint List.map fold_left Pos.of_uint_acc];
    try reflexivity; rewrite <- IHd; f_equal; lia.
Qed.

Lemma N_of_digits_uint (d : Decimal.uint) :
  N_of_digits (List.map (fun c => (c - 48)%N) (units_of_uint d)) = N.of_uint d.
Proof.
  unfold N_of_digits, N.of_uint.
  induction d; cbn [units_of_uint List.map fold_left Pos.of_uint];
    try reflexivity; try exact IHd;
    rewrite <- N_of_digits_acc; f_equal.
Qed.

(** The digits of a natural number read back as the number. *)
Lemma numeral_value_digits (n : N) : numeral_value (digits_of_N n) = Z.of_N n.
Proof.
  unfold numeral_value, digits_of_N. rewrite N_of_digits_uint.
  rewrite DecimalN.Unsigned.of_to. reflexivity.
Qed.

Lemma numeral_value_zeros (k : nat) (s : jsstring) :
  numeral_value (zeros k ++ s) = numeral_value s.
Proof.
  unfold numeral_value, N_of_digits, zeros. f_equal.
  induction k as [|k IH]; [reflexivity|].
  cbn [replicate app List.map fold_left]. exact IH.
Qed.

(** They have no superfluous zero in front. *)
Lemma digits_of_N_canonical (n : N) : canonical (digits_of_N n).
Proof.
  unfold digits_of_N.
  assert (Decimal.unorm (N.to_uint n) = N.to_uint n) as U.
  { rewrite <- (DecimalN.Unsigned.of_to n) at 2. symmetry. apply DecimalN.Unsigned.to_of. }
  destruct (N.to_uint n) as [|d| | | | | | | | |] eqn:E;
    try (right; do 2 eexists; split; [reflexivity | discriminate]).
  - exfalso. exact (DecimalFacts.unorm_nonnil _ U).
  - left. rewrite DecimalFacts.unorm_D0 in U. unfold Decimal.unorm in U.
    destruct (Decimal.nzhead d) eqn:Z;
      try (exfalso; apply (DecimalFacts.nzhead_nonzero d d); congruence).
    injection U as <-. reflexivity.
Qed.

Lemma digits_of_N_nonempty (n : N) : digits_of_N n <> [].
Proof.
  destruct (digits_of_N_canonical n) as [-> | (c & t & -> & _)]; discriminate.
Qed.

(** The text of [fixed_point] for two decimals is the numeral of that
    many hundredths. *)
Lemma fixed_point_hundredths (n : Z) :
  0 <= n -> hundredths_numeral n (fixed_point n 2).
Proof.
  intros Hn. unfold fixed_point, digits_of_Z.
  set (d := digits_of_N (Z.to_N n)).
  set (m := zeros (3 - length d) ++ d).
  assert (3 <= length m)%nat as Hlen.
  { subst m. unfold zeros. rewrite length_app, length_replicate. lia. }
  exists (take (length m - 2) m), (drop (length m - 2) m).
  split; [reflexivity|]. split; [|split; [|split]].
  - destruct (le_lt_dec 3 (length d)) as [L | L].
    + assert (m = d) as -> by (subst m; replace (3 - length d)%nat with 0%nat by lia;
                               reflexivity).
      destruct (digits_of_N_canonical (Z.to_N n)) as [E | (c & t & E & Hc)]; fold d in E.
      * rewrite E in L. simpl in L. lia.
      * right. rewrite E. rewrite E in L. cbn [length] in *.
        destruct (S (length t) - 2)%nat as [|k] eqn:K; [lia|].
        exists c, (take k t). split; [reflexivity | exact Hc].
    + left. subst m. unfold zeros.
      destruct (3 - length d)%nat as [|k] eqn:K; [lia|].
      assert (length (replicate (S k) zero_unit ++ d) = 3%nat) as ->
        by (rewrite length_app, length_replicate; lia).
      reflexivity.
  - rewrite length_drop. lia.
  - rewrite take_drop. subst m. apply Forall_app. split.
    + unfold zeros. apply Forall_replicate. reflexivity.
    + apply units_of_uint_digits.
  - rewrite take_drop. subst m d. rewrite numeral_value_zeros, numeral_value_digits. lia.
Qed.

Lemma hundredths_numeral_two_decimals (n : Z) (t : jsstring) (sign : jsstring) :
  hundredths_numeral n t -> sign = [] \/ sign = lit "-" -> two_decimals (sign ++ t).
Proof.
  intros (a & b & -> & Hc & Hb & Hd & _) Hs. apply Forall_app in Hd as [Da Db].
  exists sign, a, b. repeat split; auto.
  destruct Hc as [-> | (c & t & -> & _)]; discriminate.
Qed.



End Digits.

(* ===================================================================== *)
(** * formatNumber *)
(* ===================================================================== *)

Section FormatNumber.
Import JS Spec Dexscreener.

(** The thresholds are the integers of the source, exactly. *)
Lemma thresholds_exact :
  n_1e9 = number_of_decimal false 1 9 /\
  n_1e6 = number_of_decimal false 1 6 /\
  n_1e3 = number_of_decimal false 1 3.
Proof. repeat split; reflexivity. Qed.


(** On Numbers in canonical form, reaching a threshold is being at
    least the integer of the source. *)
Lemma threshold_met_real (num : number) :
  valid_binary prec emax num = true ->
  (threshold_met num Billions = true <-> at_least num 1000000000) /\
  (threshold_met num Millions = true <-> at_least num 1000000) /\
  (threshold_met num Thousands = true <-> at_least num 1000).
Proof.
  intros V. cbn [threshold_met]. repeat split.
  - apply (ge_threshold num 8388608000000000 (-23)); auto; vm_compute; reflexivity.
  - apply (ge_threshold num 8388608000000000 (-23)); auto; vm_compute; reflexivity.
  - apply (ge_threshold num 8589934592000000 (-33)); auto; vm_compute; reflexivity.
  - apply (ge_threshold num 8589934592000000 (-33)); auto; vm_compute; reflexivity.
  - apply (ge_threshold num 8796093022208000 (-43)); auto; vm_compute; reflexivity.
  - apply (ge_threshold num 8796093022208000 (-43)); auto; vm_compute; reflexivity.
Qed.

Lemma ratio_of_pos (m : positive) (e : Z) :
  0 < fst (ratio_of m e) /\ 0 < snd (ratio_of m e).
Proof. unfold ratio_of. destruct e as [|p|p]; cbn [fst snd]; lia. Qed.

(** [nearest_scaled] rounds to the nearest hundredth, a half upwards. *)
Lemma nearest_scaled_rounds (p q : Z) :
  0 < q -> 0 <= p ->
  0 <= nearest_scaled p q 2 /\
  2 * nearest_scaled p q 2 * q <= 200 * p + q < 2 * (nearest_scaled p q 2 + 1) * q.
Proof.
  intros Hq Hp. unfold nearest_scaled. change (10 ^ Z.of_nat 2) with 100.
  set (n := (2 * p * 100 + q) / (2 * q)).
  pose proof (Z.mul_div_le (2 * p * 100 + q) (2 * q) ltac:(lia)) as Hlo.
  pose proof (Z.mul_succ_div_gt (2 * p * 100 + q) (2 * q) ltac:(lia)) as Hhi.
  fold n in Hlo, Hhi.
  assert (0 <= n) by (subst n; apply Z.div_pos; lia).
  repeat split; lia.
Qed.

(** [toFixed(2)] of a finite Number of magnitude below [10^21]: the
    sign, and the numeral of the nearest hundredth of the magnitude. *)
Lemma toFixed_hundredths (x : number) :
  below_1e21 x ->
  exists n t, rounds_to_hundredths x n /\ hundredths_numeral n t /\
              toFixed x 2 = minus_sign x ++ t.
Proof.
  destruct x as [s | s | | s m e]; cbn [below_1e21]; try contradiction.
  - intros _. exists 0, (fixed_point 0 2). repeat split.
    apply fixed_point_hundredths. lia.
  - intros H. pose proof (ratio_of_pos m e) as [Hp Hq].
    destruct (nearest_scaled_rounds (fst (ratio_of m e)) (snd (ratio_of m e)))
      as (Hn & Hr); try lia.
    exists (nearest_scaled (fst (ratio_of m e)) (snd (ratio_of m e)) 2),
           (fixed_point (nearest_scaled (fst (ratio_of m e)) (snd (ratio_of m e)) 2) 2).
    split; [exact Hr|]. split; [apply fixed_point_hundredths; exact Hn|].
    cbn [toFixed minus_sign]. destruct (ratio_of m e) as [p q]. cbn [fst snd] in *.
    rewrite H. destruct s; reflexivity.
Qed.


Lemma toFixed_two_decimals (x : number) :
  below_1e21 x -> two_decimals (toFixed x 2).
Proof.
  intros H. destruct (toFixed_hundredths x H) as (n & t & _ & Ht & ->).
  apply (hundredths_numeral_two_decimals n); [exact Ht|].
  destruct x as [s | s | | [|] m e]; cbn [minus_sign]; auto.
Qed.





Example formatNumber_examples :
  formatNumber (number_of_Z 1234567) = lit "$1.23M" /\
  formatNumber (number_of_decimal false 99999 (-2)) = lit "$999.99" /\
  formatNumber (number_of_Z 999999) = lit "$1000.00K" /\
  formatNumber (number_of_Z 2500000000) = lit "$2.50B" /\
  formatNumber (number_of_Z (-5000)) = lit "$-5000.00" /\
  formatNumber NaN = lit "$NaN" /\
  formatNumber (number_of_decimal false 1 30) = lit "$1e+21B".
Proof. repeat split; vm_compute; reflexivity. Qed.

End FormatNumber.

(* ===================================================================== *)
(** * renderStatus and TransactionLink *)
(* ===================================================================== *)

Section TransactionLinkFacts.
Import JS Spec PipelineStep.
Context (en : engine).

Lemma renderStatus_unknown (status : jsstring) :
  ~ known_status status -> renderStatus status = Undefined.
Proof.
  intros H. unfold renderStatus.
  destruct (jsstring_eqb status (lit "Pending")) eqn:E1;
    [apply jsstring_eqb_eq in E1; exfalso; apply H; unfold known_status; tauto|].
  destruct (jsstring_eqb status (lit "Completed")) eqn:E2;
    [apply jsstring_eqb_eq in E2; exfalso; apply H; unfold known_status; tauto|].
  destruct (jsstring_eqb status (lit "Failed")) eqn:E3;
    [apply jsstring_eqb_eq in E3; exfalso; apply H; unfold known_status; tauto|].
  destruct (jsstring_eqb status (lit "Cancelled")) eqn:E4;
    [apply jsstring_eqb_eq in E4; exfalso; apply H; unfold known_status; tauto|].
  reflexivity.
Qed.

Lemma renderStatus_known (status : jsstring) :
  known_status status ->
  exists cls icon label,
    renderStatus status = Element "span" [cls] [Component icon []; Text label].
Proof.
  intros [-> | [-> | [-> | ->]]]; do 3 eexists; reflexivity.
Qed.

Lemma tx_href_cases (h : jsstring) :
  tx_href h =
  (if startsWith h (lit "0x") then lit "https://blockscan.com/tx/"
   else lit "https://solscan.io/tx/") ++ h.
Proof. unfold tx_href. destruct (startsWith h (lit "0x")); reflexivity. Qed.

Lemma anchors_and_then_error (error : option jsstring) :
  anchors (and_then error (error_span en)) = [].
Proof. destruct error as [[|c e]|]; reflexivity. Qed.

Lemma anchors_renderStatus (status : jsstring) : anchors (renderStatus status) = [].
Proof. unfold renderStatus. repeat case_match; reflexivity. Qed.

Lemma anchors_TransactionLink (status : jsstring) (hash error : option jsstring) :
  anchors (TransactionLink en status hash error) =
  match hash with
  | Some (c :: h) => [tx_href (c :: h)]
  | _ => []
  end.
Proof.
  unfold TransactionLink.
  change (anchors (Element "div" ?p [?a; ?b; ?c; ?d]))
    with (anchors a ++ anchors b ++ anchors c ++ anchors d ++ []).
  rewrite anchors_renderStatus, anchors_and_then_error.
  destruct hash as [[|c h]|]; reflexivity.
Qed.

(** C10, as amended.  [renderStatus] renders an indicator for the four
    statuses Pending, Completed, Failed and Cancelled and for those
    only; on any other status it falls through the [switch] and returns
    [undefined], and [TransactionLink] then renders no status
    indicator, while it still renders the link of the transaction hash
    (to blockscan.com when the hash starts with 0x, to solscan.io
    otherwise) when the hash is neither null nor empty, and the
    formatted error when the error is neither null nor empty. *)
Theorem TransactionLink_unknown_status (status : jsstring) (hash error : option jsstring) :
  (known_status status <-> renderStatus status <> Undefined) /\
  (~ known_status status ->
   nth_error (children_of (TransactionLink en status hash error)) 0 = Some Undefined /\
   (forall h, hash = Some h -> h <> [] ->
      nth_error (children_of (TransactionLink en status hash error)) 2 = Some (tx_link h) /\
      anchors (TransactionLink en status hash error) =
        [(if startsWith h (lit "0x") then lit "https://blockscan.com/tx/"
          else lit "https://solscan.io/tx/") ++ h]) /\
   (forall e, error = Some e -> e <> [] ->
      nth_error (children_of (TransactionLink en status hash error)) 3 = Some (error_span en e) /\
      texts (error_span en e) = texts (Text (formatError en e)))).
Proof.
  split.
  - split.
    + intros H. apply renderStatus_known in H as (cls & icon & label & ->). discriminate.
    + intros H.
      assert (Decision (known_status status)) as [Hk | Hk]
        by (unfold known_status; apply _); [exact Hk|].
      exfalso. apply H. apply renderStatus_unknown. exact Hk.
  - intros Hs. split; [|split].
    + unfold TransactionLink. cbn [children_of nth_error].
      rewrite renderStatus_unknown by assumption. reflexivity.
    + intros h -> Hh. split.
      * destruct h as [|c h]; [congruence|]. reflexivity.
      * rewrite anchors_TransactionLink. destruct h as [|c h]; [congruence|].
        rewrite tx_href_cases. reflexivity.
    + intros e -> He. split.
      * destruct e as [|c e]; [congruence|]. reflexivity.
      * unfold error_span. cbn [texts flat_map]. apply app_nil_r.
Qed.

End TransactionLinkFacts.

Section TransactionLinkWitness.
Import JS Spec PipelineStep.

Lemma TransactionLink_unknown_status_witness :
  nth_error (children_of (TransactionLink small_stack (lit "Queued") (Some (lit "0xabcdef0123456789"))
                            (Some (lit "custom program error: 0x1771")))) 0 = Some Undefined /\
  anchors (TransactionLink small_stack (lit "Queued") (Some (lit "0xabcdef0123456789"))
             (Some (lit "custom program error: 0x1771")))
    = [lit "https://blockscan.com/tx/0xabcdef0123456789"] /\
  nth_error (children_of (TransactionLink small_stack (lit "Queued") (Some (lit "0xabcdef0123456789"))
                            (Some (lit "custom program error: 0x1771")))) 3
    = Some (error_span small_stack (lit "custom program error: 0x1771")).
Proof.
  assert (~ known_status (lit "Queued")) as Hs.
  { intros [H | [H | [H | H]]]; discriminate H. }
  pose proof (proj2 (TransactionLink_unknown_status small_stack (lit "Queued")
                       (Some (lit "0xabcdef0123456789"))
                       (Some (lit "custom program error: 0x1771"))) Hs)
    as (H0 & Hh & He).
  split; [exact H0|]. split.
  - apply (Hh _ eq_refl). discriminate.
  - apply (He _ eq_refl). discriminate.
Defined.

(** C10 as it is worded fails on the empty hash: it is not null, and no
    link is rendered for it. *)
Lemma TransactionLink_empty_hash_counterexample :
  ~ known_status (lit "Queued") /\
  Some ([] : jsstring) <> None /\
  children_of (TransactionLink small_stack (lit "Queued") (Some []) None)
    = [Undefined; Text (lit " "); Text []; Null] /\
  anchors (TransactionLink small_stack (lit "Queued") (Some []) None) = [] /\
  anchors (TransactionLink small_stack (lit "Queued") (Some []) None) <> [tx_href []].
Proof.
  repeat split; try discriminate.
  intros [H | [H | [H | H]]]; discriminate H.
Qed.

End TransactionLinkWitness.

(* ===================================================================== *)
(** * The binaries of listen-data and their features *)
(* ===================================================================== *)

Section ManifestFacts.
Import Manifest.
Local Open Scope string_scope.

Lemma mem_app (x : string) (l1 l2 : list string) :
  mem x (l1 ++ l2)%list = mem x l1 || mem x l2.
Proof. unfold mem. apply existsb_app. Qed.

Lemma mem_flat_map (x : string) (l : list string) :
  mem x (flat_map implied l) = existsb (fun f => mem x (implied f)) l.
Proof.
  induction l as [|f l IH]; [reflexivity|].
  cbn [flat_map existsb]. rewrite mem_app, IH. reflexivity.
Qed.

Lemma mem_expand (x : string) (l : list string) :
  mem x (expand l) = mem x l || existsb (fun f => mem x (implied f)) l.
Proof. unfold expand. rewrite mem_app, mem_flat_map. reflexivity. Qed.

Lemma implied_cases (f : string) :
  (f = "default" /\ implied f = ["geyser"]) \/
  (f = "geyser" /\ implied f = snd (("geyser", ["carbon-yellowstone-grpc-datasource";
                                                "yellowstone-grpc-proto"]))) \/
  (f = "rpc" /\ implied f = poll_crawl_sources) \/
  implied f = [].
Proof.
  unfold implied, features. cbn [List.find fst snd].
  destruct (String.eqb_spec "default" f) as [<-|]; [left; auto|].
  destruct (String.eqb_spec "geyser" f) as [<-|]; [right; left; auto|].
  destruct (String.eqb_spec "rpc" f) as [<-|]; [right; right; left; auto|].
  right; right; right; reflexivity.
Qed.

(** No feature turns [rpc] or [default] on. *)
Lemma nothing_implies (x : string) (l : list string) :
  x = "rpc" \/ x = "default" ->
  existsb (fun f => mem x (implied f)) l = false.
Proof.
  intros Hx. induction l as [|f l IH]; [reflexivity|].
  cbn [existsb]. rewrite IH, orb_false_r.
  destruct (implied_cases f) as [[_ ->] | [[_ ->] | [[_ ->] | ->]]];
    destruct Hx as [-> | ->]; reflexivity.
Qed.

(** Only [default] turns [geyser] on. *)
Lemma implies_geyser (l : list string) :
  existsb (fun f => mem "geyser" (implied f)) l = mem "default" l.
Proof.
  induction l as [|f l IH]; [reflexivity|].
  cbn [existsb]. rewrite IH. unfold mem at 3. cbn [existsb]. f_equal.
  destruct (implied_cases f) as [[-> ->] | [[-> ->] | [[-> ->] | E]]]; try reflexivity.
  rewrite E. unfold implied in E. cbn [List.find features fst snd] in E.
  destruct (String.eqb "default" f) eqn:D; [discriminate|]. reflexivity.
Qed.

Lemma mem_iter_fixed (x : string) (n : nat) (l : list string) :
  x = "rpc" \/ x = "default" -> mem x (Nat.iter n expand l) = mem x l.
Proof.
  intros Hx. induction n as [|n IH]; [reflexivity|].
  change (Nat.iter (S n) expand l) with (expand (Nat.iter n expand l)).
  rewrite mem_expand, IH, nothing_implies by assumption.
  apply orb_false_r.
Qed.

Lemma mem_iter_geyser (n : nat) (l : list string) :
  mem "geyser" (Nat.iter (S n) expand l) = mem "geyser" l || mem "default" l.
Proof.
  induction n as [|n IH].
  - change (Nat.iter 1 expand l) with (expand l).
    rewrite mem_expand, implies_geyser. reflexivity.
  - change (Nat.iter (S (S n)) expand l) with (expand (Nat.iter (S n) expand l)).
    rewrite mem_expand, implies_geyser, IH, mem_iter_fixed by auto.
    destruct (mem "geyser" l), (mem "default" l); reflexivity.
Qed.

(** What a feature turns on is enabled with it, provided the feature is
    there one round before the last. *)
Lemma mem_expand_implied (f d : string) (l : list string) :
  mem f l = true -> mem d (implied f) = true -> mem d (expand l) = true.
Proof.
  intros Hf Hd. rewrite mem_expand. apply orb_true_iff. right.
  apply existsb_exists. unfold mem in Hf. apply existsb_exists in Hf as (g & Hg & E).
  apply String.eqb_eq in E as <-. eauto.
Qed.

Lemma closure_unfold (sel : selection) :
  closure sel = expand (expand (expand (requested sel))).
Proof. reflexivity. Qed.

Lemma closure_rpc (sel : selection) :
  mem "rpc" (closure sel) = mem "rpc" (selected sel).
Proof.
  unfold closure. rewrite mem_iter_fixed by auto.
  unfold requested. rewrite mem_app. destruct (no_default_features sel); reflexivity.
Qed.

Lemma closure_geyser (sel : selection) :
  mem "geyser" (closure sel) =
  negb (no_default_features sel) || mem "geyser" (selected sel) || mem "default" (selected sel).
Proof.
  unfold closure. change (length features) with 3%nat.
  rewrite mem_iter_geyser. unfold requested. rewrite !mem_app.
  destruct (no_default_features sel); cbn;
    destruct (mem "geyser" (selected sel)), (mem "default" (selected sel)); reflexivity.
Qed.

Lemma closure_implied (sel : selection) (f d : string) :
  f = "rpc" \/ f = "geyser" ->
  mem f (closure sel) = true -> mem d (implied f) = true -> mem d (closure sel) = true.
Proof.
  intros Hf Hen Hd. rewrite closure_unfold.
  apply mem_expand_implied with (f := f); [|exact Hd].
  destruct Hf as [-> | ->].
  - rewrite closure_rpc in Hen.
    change (expand (expand (requested sel))) with (Nat.iter 2 expand (requested sel)).
    rewrite mem_iter_fixed by auto. unfold requested. rewrite mem_app, Hen.
    apply orb_true_r.
  - change (expand (expand (requested sel))) with (Nat.iter 2 expand (requested sel)).
    rewrite mem_iter_geyser.
    unfold closure in Hen. change (length features) with 3%nat in Hen.
    rewrite mem_iter_geyser in Hen. exact Hen.
Qed.

Lemma enabled_accepted (sel : selection) : accepted sel = true -> enabled sel = closure sel.
Proof. unfold enabled. intros ->. reflexivity. Qed.

Lemma built_refused (sel : selection) (b : bin_target) :
  accepted sel = false -> built sel b = false.
Proof. unfold built. intros ->. reflexivity. Qed.

Lemma compiled_in_refused (sel : selection) (d : string) :
  accepted sel = false -> compiled_in sel d = false.
Proof. unfold compiled_in. intros ->. reflexivity. Qed.

Lemma built_indexer (sel : selection) :
  accepted sel = true -> built sel indexer = mem "geyser" (closure sel).
Proof.
  intros A. unfold built, indexer. rewrite enabled_accepted, A by exact A.
  cbn [required_features forallb andb]. apply andb_true_r.
Qed.

Lemma built_rpc_crawler (sel : selection) :
  accepted sel = true -> built sel rpc_crawler = mem "rpc" (closure sel).
Proof.
  intros A. unfold built, rpc_crawler. rewrite enabled_accepted, A by exact A.
  cbn [required_features forallb andb]. apply andb_true_r.
Qed.

Lemma implies_leaf (d g : string) (l : list string) :
  mem d (implied g) = true ->
  (forall f, f <> g -> mem d (implied f) = false) ->
  existsb (fun f => mem d (implied f)) l = mem g l.
Proof.
  intros Hg Hn. induction l as [|f l IH]; [reflexivity|].
  cbn [existsb]. rewrite IH. unfold mem at 3. cbn [existsb]. f_equal.
  destruct (String.eqb_spec g f) as [<- | Hne]; [exact Hg|].
  apply Hn. congruence.
Qed.

Lemma leaf_of_rpc (d : string) :
  In d (implied "rpc") ->
  mem d (implied "rpc") = true /\ (forall f, f <> "rpc" -> mem d (implied f) = false) /\
  dependency d = Some true /\ String.eqb d "default" = false.
Proof.
  intros [<- | [<- | [<- | []]]]; (split; [reflexivity|]); (split; [|split; reflexivity]);
    intros f Hf;
    destruct (implied_cases f) as [[_ ->] | [[_ ->] | [[-> _] | ->]]];
    try reflexivity; congruence.
Qed.

Lemma leaf_of_geyser (d : string) :
  In d (implied "geyser") ->
  mem d (implied "geyser") = true /\ (forall f, f <> "geyser" -> mem d (implied f) = false) /\
  dependency d = Some true /\ String.eqb d "default" = false.
Proof.
  intros [<- | [<- | []]]; (split; [reflexivity|]); (split; [|split; reflexivity]);
    intros f Hf;
    destruct (implied_cases f) as [[_ ->] | [[-> _] | [[_ ->] | ->]]];
    try reflexivity; congruence.
Qed.

Lemma mem_requested (d : string) (sel : selection) :
  String.eqb d "default" = false -> mem d (requested sel) = mem d (selected sel).
Proof.
  intros H. unfold requested. rewrite mem_app.
  destruct (no_default_features sel); [reflexivity|].
  unfold mem at 1. cbn [existsb]. rewrite H. reflexivity.
Qed.

(** An optional crate of the feature [rpc] is compiled in exactly when
    it is selected by name or [rpc] is. *)
Lemma compiled_in_rpc_crate (sel : selection) (d : string) :
  accepted sel = true -> In d (implied "rpc") ->
  compiled_in sel d = mem d (selected sel) || mem "rpc" (selected sel).
Proof.
  intros A Hd. apply leaf_of_rpc in Hd as (Hg & Hn & Ho & Hdef).
  unfold compiled_in. rewrite A, Ho, enabled_accepted by exact A. cbn [negb orb andb].
  rewrite closure_unfold, !mem_expand, !(implies_leaf d "rpc") by assumption.
  change (expand (expand (requested sel))) with (Nat.iter 2 expand (requested sel)).
  change (expand (requested sel)) with (Nat.iter 1 expand (requested sel)).
  rewrite !(mem_iter_fixed "rpc") by auto.
  rewrite (mem_requested d) by assumption.
  rewrite (mem_requested "rpc") by reflexivity.
  destruct (mem d (selected sel)), (mem "rpc" (selected sel)); reflexivity.
Qed.

(** An optional crate of the feature [geyser] is compiled in exactly
    when it is selected by name or [geyser] is enabled. *)
Lemma compiled_in_geyser_crate (sel : selection) (d : string) :
  accepted sel = true -> In d (implied "geyser") ->
  compiled_in sel d = mem d (selected sel) || mem "geyser" (closure sel).
Proof.
  intros A Hd. apply leaf_of_geyser in Hd as (Hg & Hn & Ho & Hdef).
  unfold compiled_in. rewrite A, Ho, enabled_accepted, closure_geyser by exact A.
  cbn [negb orb andb].
  rewrite closure_unfold, !mem_expand, !(implies_leaf d "geyser") by assumption.
  change (expand (expand (requested sel))) with (Nat.iter 2 expand (requested sel)).
  change (expand (requested sel)) with (Nat.iter 1 expand (requested sel)).
  rewrite !mem_iter_geyser.
  rewrite (mem_requested d) by assumption.
  rewrite (mem_requested "geyser") by reflexivity.
  unfold requested. rewrite mem_app.
  destruct (no_default_features sel); cbn;
    destruct (mem d (selected sel)), (mem "geyser" (selected sel)),
             (mem "default" (selected sel)); reflexivity.
Qed.

(** C7, as amended.  The manifest declares three binaries: [main], the
    default binary, which requires no feature, [indexer], which
    requires the feature [geyser], and [rpc-crawler], which requires
    the feature [rpc]; these two, and only they, are tied to a
    data-source feature.  [geyser] turns on the optional crates of the
    streaming gRPC data source and [rpc] those of the rpc poll/crawl
    data sources.  Which variant is part of a build is decided when the
    package is compiled, by the features selected.  For a selection of
    declared features, [main] is built, [indexer] is built exactly when
    [geyser] is enabled (it is by default), [rpc-crawler] exactly when
    [rpc] is selected, and an optional crate is compiled in exactly
    when it is selected by name or the binary of its feature is built.
    With [rpc] added to the defaults all three binaries are built with
    all five optional crates.  A selection that names an undeclared
    feature is refused: nothing is built. *)
Theorem data_source_by_features (sel : selection) :
  List.map bin_name bins = ["indexer"; "rpc-crawler"; "main"] /\
  default_run = bin_name main /\ required_features main = [] /\
  List.filter (requires "geyser") bins = [indexer] /\
  List.filter (requires "rpc") bins = [rpc_crawler] /\
  List.filter (fun b => negb (requires "geyser" b || requires "rpc" b)) bins = [main] /\
  implied "geyser" = (streaming_sources ++ ["yellowstone-grpc-proto"])%list /\
  implied "rpc" = poll_crawl_sources /\
  optional_dependencies = (implied "rpc" ++ implied "geyser")%list /\
  (accepted sel = true ->
   built sel main = true /\
   built sel indexer =
     negb (no_default_features sel) || mem "geyser" (selected sel)
     || mem "default" (selected sel) /\
   built sel rpc_crawler = mem "rpc" (selected sel) /\
   Forall (fun d => compiled_in sel d = mem d (selected sel) || built sel indexer)
     (implied "geyser") /\
   Forall (fun d => compiled_in sel d = mem d (selected sel) || built sel rpc_crawler)
     (implied "rpc")) /\
  (Forall (fun b => built {| selected := ["rpc"]; no_default_features := false |} b = true)
     bins /\
   Forall (fun d => compiled_in {| selected := ["rpc"]; no_default_features := false |} d
                    = true) optional_dependencies) /\
  (accepted sel = false ->
   (forall b, built sel b = false) /\ (forall d, compiled_in sel d = false)).
Proof.
  do 9 (split; [reflexivity|]). split; [|split].
  - intros A. split; [|split; [|split; [|split]]].
    + unfold built. rewrite A. reflexivity.
    + rewrite built_indexer by exact A. apply closure_geyser.
    + rewrite built_rpc_crawler by exact A. apply closure_rpc.
    + rewrite built_indexer by exact A. apply List.Forall_forall. intros d Hd.
      apply compiled_in_geyser_crate; assumption.
    + rewrite built_rpc_crawler, closure_rpc by exact A. apply List.Forall_forall. intros d Hd.
      apply compiled_in_rpc_crate; assumption.
  - split; repeat constructor.
  - intros R. split; intros x; [apply built_refused | apply compiled_in_refused]; exact R.
Qed.

Lemma data_source_by_features_witness :
  built default_selection main = true /\
  built default_selection indexer = true /\
  built default_selection rpc_crawler = false /\
  Forall (fun d => compiled_in default_selection d = true) (implied "geyser") /\
  Forall (fun d => compiled_in default_selection d = false) (implied "rpc") /\
  built {| selected := ["nonexistent"]; no_default_features := false |} main = false.
Proof.
  pose proof (proj1 (proj2 (proj2 (proj2 (proj2 (proj2 (proj2 (proj2 (proj2
                (proj2 (data_source_by_features default_selection))))))))))
                eq_refl) as (Hm & Hi & Hr & Hg & Hp).
  split; [exact Hm|]. split; [rewrite Hi; reflexivity|].
  split; [rewrite Hr; reflexivity|]. split; [|split].
  - eapply Forall_impl; [exact Hg|]. intros d ->. rewrite Hi. reflexivity.
  - assert (forall d, In d (implied "rpc") -> mem d (selected default_selection) = false)
      as Hn by (intros d _; reflexivity).
    apply List.Forall_forall. intros d Hd.
    rewrite List.Forall_forall in Hp. rewrite (Hp d Hd), Hr. reflexivity.
  - apply (proj2 (proj2 (proj2 (proj2 (proj2 (proj2 (proj2 (proj2 (proj2 (proj2 (proj2
             (data_source_by_features
                {| selected := ["nonexistent"]; no_default_features := false |}))))))))))));
      reflexivity.
Defined.

(** C7 as it is worded fails: the data-source variants are included
    conditionally at compile time.  The default build has the [geyser]
    binary and crates and leaves the [rpc] binary and its crates out; a
    build with only [rpc] has the reverse. *)
Lemma default_build_without_crawler_counterexample :
  accepted default_selection = true /\
  built default_selection indexer = true /\
  built default_selection rpc_crawler = false /\
  Forall (fun d => compiled_in default_selection d = false) poll_crawl_sources /\
  accepted {| selected := ["rpc"]; no_default_features := true |} = true /\
  built {| selected := ["rpc"]; no_default_features := true |} rpc_crawler = true /\
  built {| selected := ["rpc"]; no_default_features := true |} indexer = false /\
  Forall (fun d => compiled_in {| selected := ["rpc"]; no_default_features := true |} d = false)
    streaming_sources.
Proof. repeat split; repeat constructor. Qed.

End ManifestFacts.

(* ===================================================================== *)
(** * The order of positions *)
(* ===================================================================== *)

Section Positions.
Import Pipeline Spec.
Local Open Scope N_scope.

Lemma pos_ltb_spec (a b : position) :
  pos_ltb a b = true <-> fst a < fst b \/ (fst a = fst b /\ snd a < snd b).
Proof.
  unfold pos_ltb.
  rewrite orb_true_iff, andb_true_iff, !N.ltb_lt, N.eqb_eq. reflexivity.
Qed.

Lemma pos_leb_spec (a b : position) :
  pos_leb a b = true <-> fst a < fst b \/ (fst a = fst b /\ snd a <= snd b).
Proof.
  unfold pos_leb. rewrite negb_true_iff.
  destruct (pos_ltb b a) eqn:E.
  - apply pos_ltb_spec in E. split; [discriminate|]. lia.
  - split; [intros _|reflexivity].
    assert (~ (fst b < fst a \/ (fst b = fst a /\ snd b < snd a))) as H.
    { rewrite <- pos_ltb_spec. congruence. }
    lia.
Qed.

Lemma pos_lt_irrefl (a : position) : ~ pos_lt a a.
Proof. unfold pos_lt. rewrite pos_ltb_spec. lia. Qed.

Lemma pos_lt_trans (a b c : position) : pos_lt a b -> pos_lt b c -> pos_lt a c.
Proof. unfold pos_lt. rewrite !pos_ltb_spec. lia. Qed.

Lemma pos_le_refl (a : position) : pos_le a a.
Proof. unfold pos_le. rewrite pos_leb_spec. lia. Qed.

Lemma pos_le_trans (a b c : position) : pos_le a b -> pos_le b c -> pos_le a c.
Proof. unfold pos_le. rewrite !pos_leb_spec. lia. Qed.

Lemma pos_le_antisym (a b : position) : pos_le a b -> pos_le b a -> a = b.
Proof.
  unfold pos_le. rewrite !pos_leb_spec. destruct a, b; simpl.
  intros. f_equal; lia.
Qed.

Lemma pos_lt_le (a b : position) : pos_lt a b -> pos_le a b.
Proof. unfold pos_lt, pos_le. rewrite pos_ltb_spec, pos_leb_spec. lia. Qed.

Lemma pos_le_not_lt (a b : position) : pos_le a b <-> ~ pos_lt b a.
Proof.
  unfold pos_le, pos_lt, pos_leb. destruct (pos_ltb b a); simpl; split; congruence.
Qed.

Lemma pos_max_l (a b : position) : pos_le a (pos_max a b).
Proof.
  unfold pos_max. destruct (pos_ltb a b) eqn:E.
  - apply pos_lt_le. exact E.
  - apply pos_le_refl.
Qed.

Lemma pos_max_r (a b : position) : pos_le b (pos_max a b).
Proof.
  unfold pos_max. destruct (pos_ltb a b) eqn:E.
  - apply pos_le_refl.
  - apply pos_le_not_lt. unfold pos_lt. congruence.
Qed.

Lemma pos_max_cases (a b : position) : pos_max a b = a \/ pos_max a b = b.
Proof. unfold pos_max. destruct (pos_ltb a b); auto. Qed.

(** [batch_max] is the maximum of the start and of the positions of the
    batch. *)
Lemma batch_max_start (batch : list DecodedEvent) (p : position) :
  pos_le p (batch_max batch p).
Proof.
  revert p; induction batch as [|e batch IH]; intros p.
  - apply pos_le_refl.
  - cbn [batch_max fold_left]. eapply pos_le_trans; [apply pos_max_l | apply IH].
Qed.

Lemma batch_max_upper (batch : list DecodedEvent) (p : position) (e : DecodedEvent) :
  e ∈ batch -> pos_le (ev_position e) (batch_max batch p).
Proof.
  revert p; induction batch as [|e' batch IH]; intros p He.
  - inversion He.
  - cbn [batch_max fold_left]. apply elem_of_cons in He as [-> | He].
    + eapply pos_le_trans; [apply pos_max_r | apply batch_max_start].
    + apply IH. exact He.
Qed.

Lemma batch_max_attained (batch : list DecodedEvent) (p : position) :
  batch_max batch p = p \/ exists e, e ∈ batch /\ batch_max batch p = ev_position e.
Proof.
  revert p; induction batch as [|e' batch IH]; intros p.
  - left. reflexivity.
  - cbn [batch_max fold_left].
    destruct (IH (pos_max p (ev_position e'))) as [H | (e & He & H)].
    + fold (batch_max batch (pos_max p (ev_position e'))). rewrite H.
      destruct (pos_max_cases p (ev_position e')) as [-> | ->]; [left; reflexivity|].
      right. exists e'. split; [apply list_elem_of_here | reflexivity].
    + right. exists e. split; [apply list_elem_of_further; exact He | exact H].
Qed.

Lemma batch_max_app (b1 b2 : list DecodedEvent) (p : position) :
  batch_max (b1 ++ b2) p = batch_max b2 (batch_max b1 p).
Proof. unfold batch_max. apply fold_left_app. Qed.

End Positions.

(* ===================================================================== *)
(** * The ordering guard of the dispatcher *)
(* ===================================================================== *)

Section Ordering.
Import Pipeline Spec.
Context (registry : list decoder).

Lemma decode_Ok (u : RawAccountUpdate) (e : DecodedEvent) :
  decode registry u = Ok e ->
  entity_key e = account_address u /\ ev_position e = update_position u /\
  source_signature e = None.
Proof.
  unfold decode. destruct (attempt (route registry u) (raw_bytes u)); [|discriminate].
  intros [= <-]. auto.
Qed.

Lemma dispatch_stale (st : state) (u : RawAccountUpdate) (p : position) :
  last_applied st !! account_address u = Some p -> pos_le (update_position u) p ->
  dispatch registry st u = (st, None).
Proof.
  intros Hp Hle. unfold dispatch, passes_guard. rewrite Hp.
  unfold pos_le, pos_leb in Hle. apply negb_true_iff in Hle. rewrite Hle. reflexivity.
Qed.

Lemma dispatch_Some (st st' : state) (u : RawAccountUpdate) (e : DecodedEvent) :
  dispatch registry st u = (st', Some e) ->
  passes_guard st u = true /\ decode registry u = Ok e /\
  st' = set_last_applied st (account_address u) (update_position u).
Proof.
  unfold dispatch. destruct (passes_guard st u); [|discriminate].
  destruct (decode registry u); [|discriminate].
  intros [= <- <-]. auto.
Qed.

Lemma dispatch_None (st st' : state) (u : RawAccountUpdate) :
  dispatch registry st u = (st', None) -> same_data st st'.
Proof.
  unfold dispatch. destruct (passes_guard st u).
  - destruct (decode registry u); [discriminate|].
    intros [= <-]. repeat split.
  - intros [= <-]. repeat split.
Qed.

Lemma passes_guard_above (st : state) (u : RawAccountUpdate) (p : position) :
  passes_guard st u = true -> last_applied st !! account_address u = Some p ->
  pos_lt p (update_position u).
Proof. unfold passes_guard. intros H Hp. rewrite Hp in H. exact H. Qed.

Lemma dispatch_all_cons (st : state) (u : RawAccountUpdate) (us : list RawAccountUpdate) :
  dispatch_all registry st (u :: us) =
  (fst (dispatch_all registry (fst (dispatch registry st u)) us),
   match snd (dispatch registry st u) with
   | Some e => e :: snd (dispatch_all registry (fst (dispatch registry st u)) us)
   | None => snd (dispatch_all registry (fst (dispatch registry st u)) us)
   end).
Proof.
  cbn [dispatch_all]. destruct (dispatch registry st u) as [st1 oe].
  cbn [fst snd]. destruct (dispatch_all registry st1 us). reflexivity.
Qed.

(** Every event of a batch lies above what was last applied to its key
    when the batch began. *)
Lemma dispatch_all_above (us : list RawAccountUpdate) (st : state) (e : DecodedEvent)
    (p : position) :
  e ∈ snd (dispatch_all registry st us) ->
  last_applied st !! entity_key e = Some p -> pos_lt p (ev_position e).
Proof.
  revert st p; induction us as [|u us IH]; intros st p He Hp.
  - inversion He.
  - rewrite dispatch_all_cons in He. cbn [snd] in He.
    destruct (dispatch registry st u) as [st1 [e1|]] eqn:D; cbn [fst snd] in He.
    + apply dispatch_Some in D as (Hadm & Hdec & ->).
      apply decode_Ok in Hdec as (Hk & Hpos & _).
      apply elem_of_cons in He as [-> | He].
      * rewrite Hpos. rewrite Hk in Hp. eapply passes_guard_above; eauto.
      * destruct (decide (entity_key e = account_address u)) as [E|E].
        -- eapply pos_lt_trans.
           ++ rewrite E in Hp. eapply passes_guard_above; eauto.
           ++ eapply IH; [exact He|]. cbn [set_last_applied last_applied].
              rewrite E. apply lookup_insert_eq.
        -- eapply IH; [exact He|]. cbn [set_last_applied last_applied].
           rewrite lookup_insert_ne by congruence. exact Hp.
    + apply dispatch_None in D as (Hla & _).
      eapply IH; [exact He|]. rewrite <- Hla. exact Hp.
Qed.

Lemma dispatch_all_increasing (us : list RawAccountUpdate) (st : state) :
  increasing_per_key (snd (dispatch_all registry st us)).
Proof.
  revert st; induction us as [|u us IH]; intros st.
  - intros i j ei ej _ Hi. discriminate Hi.
  - rewrite dispatch_all_cons. cbn [snd].
    destruct (dispatch registry st u) as [st1 [e1|]] eqn:D; cbn [fst snd].
    + intros i j ei ej Hij Hi Hj Hk.
      destruct j as [|j]; [lia|]. cbn in Hj.
      destruct i as [|i].
      * cbn in Hi. injection Hi as <-.
        apply dispatch_Some in D as (Hadm & Hdec & ->).
        apply decode_Ok in Hdec as (Hk1 & Hpos & _).
        rewrite Hpos. eapply dispatch_all_above.
        -- eapply list_elem_of_lookup_2. exact Hj.
        -- cbn [set_last_applied last_applied]. rewrite <- Hk, Hk1.
           apply lookup_insert_eq.
      * cbn in Hi. eapply (IH st1 i j); eauto. lia.
    + apply IH.
Qed.

Lemma dispatch_all_in_order (us : list RawAccountUpdate) (st : state) :
  in_arrival_order registry us (snd (dispatch_all registry st us)).
Proof.
  revert st; induction us as [|u us IH]; intros st.
  - exists []. split; constructor.
  - rewrite dispatch_all_cons. cbn [snd].
    destruct (dispatch registry st u) as [st1 [e1|]] eqn:D; cbn [fst snd].
    + destruct (IH st1) as (us' & Hsub & Hall).
      apply dispatch_Some in D as (_ & Hdec & _).
      exists (u :: us'). split; [apply sublist_skip; exact Hsub|].
      constructor; assumption.
    + destruct (IH st1) as (us' & Hsub & Hall).
      exists us'. split; [apply sublist_cons; exact Hsub | exact Hall].
Qed.

Lemma process_stale (cfg : config) (env : environment) (st : state)
    (u : RawAccountUpdate) (p : position) :
  last_applied st !! account_address u = Some p -> pos_le (update_position u) p ->
  process registry cfg env st [u] = st.
Proof.
  intros Hp Hle. unfold process. destruct (stalled st) eqn:S; [reflexivity|].
  cbn [dispatch_all]. rewrite (dispatch_stale st u p Hp Hle).
  unfold commit_batch. rewrite S. reflexivity.
Qed.

Lemma pos_le_lt_trans (a b c : position) : pos_le a b -> pos_lt b c -> pos_lt a c.
Proof.
  unfold pos_le, pos_lt. rewrite pos_leb_spec, !pos_ltb_spec.
  destruct a, b, c; cbn [fst snd]. lia.
Qed.

Lemma tracks_last_applied (st st' : state) (evs : list DecodedEvent) :
  last_applied st = last_applied st' -> tracks st evs -> tracks st' evs.
Proof. unfold tracks. intros <-. auto. Qed.

Lemma tracks_initial : tracks initial [].
Proof.
  split.
  - intros e He. inversion He.
  - intros k p H. cbn [initial last_applied] in H. rewrite lookup_empty in H. discriminate.
Qed.

(** An applied update extends the agreement of table and events. *)
Lemma tracks_dispatch (st : state) (u : RawAccountUpdate) (evs : list DecodedEvent) :
  tracks st evs ->
  tracks (fst (dispatch registry st u))
         (evs ++ match snd (dispatch registry st u) with Some e => [e] | None => [] end).
Proof.
  intros T. destruct (dispatch registry st u) as [st' [e|]] eqn:D; cbn [fst snd].
  - apply dispatch_Some in D as (Hadm & Hdec & ->).
    apply decode_Ok in Hdec as (Hk & Hpos & _).
    destruct T as [T1 T2]. split.
    + intros e' He'. cbn [set_last_applied last_applied].
      apply elem_of_app in He' as [He' | He'].
      * destruct (T1 e' He') as (p & Hp & Hle).
        destruct (decide (entity_key e' = account_address u)) as [E | E].
        -- rewrite E, lookup_insert_eq. eexists. split; [reflexivity|].
           eapply pos_le_trans; [exact Hle|]. apply pos_lt_le.
           eapply passes_guard_above; [exact Hadm|]. rewrite <- E. exact Hp.
        -- rewrite lookup_insert_ne by congruence. eauto.
      * apply list_elem_of_singleton in He'. subst e'.
        rewrite Hk, lookup_insert_eq. eexists. split; [reflexivity|].
        rewrite Hpos. apply pos_le_refl.
    + intros k p. cbn [set_last_applied last_applied].
      destruct (decide (k = account_address u)) as [-> | E].
      * rewrite lookup_insert_eq. intros [= <-]. exists e. split; [|auto].
        apply elem_of_app. right. apply list_elem_of_here.
      * rewrite lookup_insert_ne by congruence. intros Hp.
        destruct (T2 k p Hp) as (e' & He' & Hk' & Hp'). exists e'.
        split; [apply elem_of_app; left; exact He' | auto].
  - apply dispatch_None in D as (Hla & _). rewrite app_nil_r.
    eapply tracks_last_applied; eauto.
Qed.

Lemma tracks_dispatch_all (us : list RawAccountUpdate) (st : state) (evs : list DecodedEvent) :
  tracks st evs ->
  tracks (fst (dispatch_all registry st us)) (evs ++ snd (dispatch_all registry st us)).
Proof.
  revert st evs; induction us as [|u us IH]; intros st evs T.
  - cbn [dispatch_all fst snd]. rewrite app_nil_r. exact T.
  - rewrite dispatch_all_cons. cbn [fst snd].
    pose proof (IH _ _ (tracks_dispatch st u evs T)) as H.
    rewrite <- app_assoc in H.
    destruct (snd (dispatch registry st u)); exact H.
Qed.

Lemma increasing_app (l1 l2 : list DecodedEvent) :
  increasing_per_key l1 -> increasing_per_key l2 ->
  (forall e1 e2, e1 ∈ l1 -> e2 ∈ l2 -> entity_key e1 = entity_key e2 ->
                 pos_lt (ev_position e1) (ev_position e2)) ->
  increasing_per_key (l1 ++ l2).
Proof.
  intros H1 H2 H12 i j ei ej Hij Hi Hj Hk.
  apply lookup_app_Some in Hi as [Hi | [Li Hi]];
    apply lookup_app_Some in Hj as [Hj | [Lj Hj]].
  - eapply H1; eauto.
  - eapply H12; eauto using list_elem_of_lookup_2.
  - apply lookup_lt_Some in Hj. lia.
  - eapply (H2 (i - length l1)%nat (j - length l1)%nat); eauto. lia.
Qed.

(** A batch continues, key by key, above everything emitted before. *)
Lemma increasing_dispatch_all (us : list RawAccountUpdate) (st : state)
    (evs : list DecodedEvent) :
  tracks st evs -> increasing_per_key evs ->
  increasing_per_key (evs ++ snd (dispatch_all registry st us)).
Proof.
  intros [T1 _] I. apply increasing_app; [exact I | apply dispatch_all_increasing|].
  intros e1 e2 He1 He2 Hk.
  destruct (T1 e1 He1) as (p & Hp & Hle).
  eapply pos_le_lt_trans; [exact Hle|].
  eapply dispatch_all_above; [exact He2|]. rewrite <- Hk. exact Hp.
Qed.

Context (cfg : config).

Lemma commit_batch_last_applied (env : environment) (st : state) (batch : list DecodedEvent) :
  last_applied (commit_batch cfg env st batch) = last_applied st.
Proof.
  unfold commit_batch. destruct (stalled st); [reflexivity|].
  destruct (bool_decide (batch = [])); [reflexivity|].
  destruct (fst (write_with_retry _ _ _ _)); reflexivity.
Qed.

Lemma receive_invariant (a : arrival) (st : state) (evs : list DecodedEvent) :
  tracks st evs -> increasing_per_key evs ->
  tracks (receive registry cfg st a) (evs ++ emits registry st a) /\
  increasing_per_key (evs ++ emits registry st a).
Proof.
  intros T I. destruct a as [env us|]; cbn [receive emits].
  - unfold process. destruct (stalled st); [rewrite app_nil_r; auto|].
    split; [|apply increasing_dispatch_all; assumption].
    pose proof (tracks_dispatch_all us st evs T) as T'.
    destruct (dispatch_all registry st us) as [st1 batch]. cbn [fst snd] in *.
    eapply tracks_last_applied; [|exact T'].
    symmetry. apply commit_batch_last_applied.
  - rewrite app_nil_r. split; [|exact I].
    eapply tracks_last_applied; [|exact T]. reflexivity.
Qed.

(** Over a whole lifetime, restarts included, the table agrees with the
    events emitted and the events of every key are strictly
    increasing. *)
Lemma lifetime_invariant (arrivals : list arrival) (st : state) (evs : list DecodedEvent) :
  tracks st evs -> increasing_per_key evs ->
  tracks (fst (lifetime registry cfg st arrivals))
         (evs ++ snd (lifetime registry cfg st arrivals)) /\
  increasing_per_key (evs ++ snd (lifetime registry cfg st arrivals)).
Proof.
  revert st evs; induction arrivals as [|a rest IH]; intros st evs T I.
  - cbn [lifetime fst snd]. rewrite app_nil_r. auto.
  - cbn [lifetime].
    destruct (receive_invariant a st evs T I) as (T' & I').
    specialize (IH _ _ T' I').
    destruct (lifetime registry cfg (receive registry cfg st a) rest) as [st' evs'].
    cbn [fst snd] in *. rewrite <- app_assoc in IH. exact IH.
Qed.

(** C1.  For every entity key, over the whole life of the pipeline,
    restarts included: an update is applied only if its (slot,
    write_version) is strictly greater than that of every update
    applied to the key before, the last applied one among them.  An
    update at or below one of them is a no-op: the dispatcher emits no
    event and the whole state, Cache and Checkpoint included, is what it
    was.  Updates are never reordered: the events of a batch are in the
    order of their updates, and all events ever emitted are, key by key,
    in strictly increasing positions. *)
Theorem ordering_guard (arrivals : list arrival) (u : RawAccountUpdate) :
  increasing_per_key (snd (lifetime registry cfg initial arrivals)) /\
  tracks (fst (lifetime registry cfg initial arrivals))
         (snd (lifetime registry cfg initial arrivals)) /\
  (forall e, e ∈ snd (lifetime registry cfg initial arrivals) ->
     entity_key e = account_address u -> pos_le (update_position u) (ev_position e) ->
     dispatch registry (fst (lifetime registry cfg initial arrivals)) u
     = (fst (lifetime registry cfg initial arrivals), None) /\
     forall env,
       process registry cfg env (fst (lifetime registry cfg initial arrivals)) [u]
       = fst (lifetime registry cfg initial arrivals)) /\
  (forall st' e,
     dispatch registry (fst (lifetime registry cfg initial arrivals)) u = (st', Some e) ->
     entity_key e = account_address u /\ ev_position e = update_position u /\
     (forall e', e' ∈ snd (lifetime registry cfg initial arrivals) ->
        entity_key e' = account_address u ->
        pos_lt (ev_position e') (update_position u)) /\
     last_applied st' !! account_address u = Some (update_position u)) /\
  (forall us st' batch,
     dispatch_all registry (fst (lifetime registry cfg initial arrivals)) us = (st', batch) ->
     in_arrival_order registry us batch /\
     increasing_per_key (snd (lifetime registry cfg initial arrivals) ++ batch)).
Proof.
  destruct (lifetime_invariant arrivals initial [] tracks_initial) as (T & I).
  { intros i j ei ej _ Hi. discriminate Hi. }
  cbn [app] in T, I.
  split; [exact I|]. split; [exact T|]. split; [|split].
  - intros e He Hk Hle. destruct T as [T1 _].
    destruct (T1 e He) as (p & Hp & Hle'). rewrite Hk in Hp.
    pose proof (pos_le_trans _ _ _ Hle Hle') as Hup.
    split; [eapply dispatch_stale; eauto|].
    intros env. eapply process_stale; eauto.
  - intros st' e D. apply dispatch_Some in D as (Hadm & Hdec & ->).
    apply decode_Ok in Hdec as (Hk & Hpos & _).
    repeat split; auto.
    + intros e' He' Hk'. destruct T as [T1 _].
      destruct (T1 e' He') as (p & Hp & Hle). rewrite Hk' in Hp.
      eapply pos_le_lt_trans; [exact Hle|]. eapply passes_guard_above; eauto.
    + cbn [set_last_applied last_applied]. apply lookup_insert_eq.
  - intros us st' batch D.
    replace batch with (snd (dispatch_all registry
                               (fst (lifetime registry cfg initial arrivals)) us))
      by (rewrite D; reflexivity).
    split; [apply dispatch_all_in_order|].
    apply increasing_dispatch_all; assumption.
Qed.

End Ordering.

Section OrderingWitness.
Import Pipeline Spec.
Local Open Scope N_scope.

Lemma ordering_guard_witness :
  snd (lifetime sample_registry sample_config initial
         [Updates healthy [sample_update 42 10 0 [1; 6]; sample_update 42 8 0 [1; 1];
                           sample_update 42 10 1 [1; 7]];
          ProcessRestarted])
  = [sample_event 42 10 0 [6%Z]; sample_event 42 10 1 [7%Z]] /\
  (dispatch sample_registry
     (fst (lifetime sample_registry sample_config initial
             [Updates healthy [sample_update 42 10 0 [1; 6]; sample_update 42 8 0 [1; 1];
                               sample_update 42 10 1 [1; 7]];
              ProcessRestarted]))
     (sample_update 42 9 0 [1; 2])
   = (fst (lifetime sample_registry sample_config initial
             [Updates healthy [sample_update 42 10 0 [1; 6]; sample_update 42 8 0 [1; 1];
                               sample_update 42 10 1 [1; 7]];
              ProcessRestarted]), None) /\
   forall env,
     process sample_registry sample_config env
       (fst (lifetime sample_registry sample_config initial
               [Updates healthy [sample_update 42 10 0 [1; 6]; sample_update 42 8 0 [1; 1];
                                 sample_update 42 10 1 [1; 7]];
                ProcessRestarted]))
       [sample_update 42 9 0 [1; 2]]
     = fst (lifetime sample_registry sample_config initial
              [Updates healthy [sample_update 42 10 0 [1; 6]; sample_update 42 8 0 [1; 1];
                                sample_update 42 10 1 [1; 7]];
               ProcessRestarted])).
Proof.
  split; [reflexivity|].
  apply (proj1 (proj2 (proj2 (ordering_guard sample_registry sample_config
           [Updates healthy [sample_update 42 10 0 [1; 6]; sample_update 42 8 0 [1; 1];
                             sample_update 42 10 1 [1; 7]];
            ProcessRestarted]
           (sample_update 42 9 0 [1; 2]))))
           (sample_event 42 10 0 [6%Z])).
  - apply list_elem_of_here.
  - reflexivity.
  - reflexivity.
Defined.

End OrderingWitness.

(* ===================================================================== *)
(** * The durable table *)
(* ===================================================================== *)

Section Sink.
Import Pipeline Spec.
Local Open Scope N_scope.

Lemma idem_key_eqb_eq (a b : idem_key) : idem_key_eqb a b = true <-> a = b.
Proof.
  destruct a, b; simpl; try (split; [discriminate | intros H; discriminate H]).
  - rewrite !andb_true_iff, !N.eqb_eq.
    split; [intros [[-> ->] ->]; reflexivity | intros [= -> -> ->]; auto].
  - rewrite !andb_true_iff, !N.eqb_eq.
    split; [intros [-> ->]; reflexivity | intros [= -> ->]; auto].
Qed.

Lemma idem_key_eqb_refl (a : idem_key) : idem_key_eqb a a = true.
Proof. apply idem_key_eqb_eq. reflexivity. Qed.

Lemma upsert_idempotent (e : DecodedEvent) (table : list DecodedEvent) :
  upsert e (upsert e table) = upsert e table.
Proof.
  induction table as [|r table IH]; cbn [upsert].
  - rewrite idem_key_eqb_refl. reflexivity.
  - destruct (idem_key_eqb (idempotency_key e) (idempotency_key r)) eqn:E; cbn [upsert].
    + rewrite idem_key_eqb_refl. reflexivity.
    + rewrite E, IH. reflexivity.
Qed.

Lemma upsert_keys (e : DecodedEvent) (table : list DecodedEvent) (k : idem_key) :
  k ∈ map idempotency_key (upsert e table) ->
  k = idempotency_key e \/ k ∈ map idempotency_key table.
Proof.
  induction table as [|r table IH]; cbn [upsert map].
  - intros H. apply elem_of_cons in H as [-> | H]; [auto | inversion H].
  - destruct (idem_key_eqb (idempotency_key e) (idempotency_key r)) eqn:E; cbn [map].
    + intros H. apply elem_of_cons in H as [-> | H]; [auto|].
      right. apply list_elem_of_further. exact H.
    + intros H. apply elem_of_cons in H as [-> | H].
      * right. apply list_elem_of_here.
      * destruct (IH H) as [-> | H']; [auto|].
        right. apply list_elem_of_further. exact H'.
Qed.

(** The table never has two rows of one key. *)
Lemma upsert_unique (e : DecodedEvent) (table : list DecodedEvent) :
  unique_keys table -> unique_keys (upsert e table).
Proof.
  unfold unique_keys. induction table as [|r table IH]; cbn [upsert map]; intros H.
  - apply NoDup_singleton.
  - apply NoDup_cons in H as [Hr H].
    destruct (idem_key_eqb (idempotency_key e) (idempotency_key r)) eqn:E; cbn [map].
    + apply idem_key_eqb_eq in E. rewrite E. apply NoDup_cons. auto.
    + apply NoDup_cons. split; [|auto].
      intros Hin. apply upsert_keys in Hin as [Heq | Hin]; [|contradiction].
      rewrite Heq, idem_key_eqb_refl in E. discriminate.
Qed.

Lemma upsert_all_unique (batch table : list DecodedEvent) :
  unique_keys table -> unique_keys (upsert_all batch table).
Proof.
  revert table; induction batch as [|e batch IH]; intros table H; [exact H|].
  cbn [upsert_all fold_left]. apply IH. apply upsert_unique. exact H.
Qed.

Lemma rows_with_absent (k : idem_key) (table : list DecodedEvent) :
  k ∉ map idempotency_key table -> rows_with k table = 0%nat.
Proof.
  unfold rows_with. induction table as [|r table IH]; intros H; [reflexivity|].
  cbn [map] in H. apply not_elem_of_cons in H as [Hr H].
  rewrite filter_cons. destruct (decide (idem_key_eqb k (idempotency_key r) = true)) as [E|E].
  - apply idem_key_eqb_eq in E. contradiction.
  - apply IH. exact H.
Qed.

(** After an upsert there is exactly one row with the key of the event. *)
Lemma rows_with_upsert (e : DecodedEvent) (table : list DecodedEvent) :
  unique_keys table -> rows_with (idempotency_key e) (upsert e table) = 1%nat.
Proof.
  unfold unique_keys. induction table as [|r table IH]; cbn [upsert map]; intros H.
  - unfold rows_with. rewrite filter_cons, decide_True by apply idem_key_eqb_refl.
    reflexivity.
  - apply NoDup_cons in H as [Hr H].
    destruct (idem_key_eqb (idempotency_key e) (idempotency_key r)) eqn:E.
    + unfold rows_with. rewrite filter_cons, decide_True by apply idem_key_eqb_refl.
      cbn [length]. f_equal. apply rows_with_absent.
      apply idem_key_eqb_eq in E. rewrite E. exact Hr.
    + unfold rows_with. rewrite filter_cons, decide_False by congruence.
      apply IH. exact H.
Qed.

Lemma commit_batch_success (cfg : config) (env : environment) (st : state)
    (batch : list DecodedEvent) :
  stalled st = false -> batch <> [] -> write_succeeds cfg env ->
  commit_batch cfg env st batch =
  {| last_applied := last_applied st;
     store := upsert_all batch (store st);
     cache := if cache_accepts env then cache_all batch (cache st) else cache st;
     checkpoint := batch_max batch (checkpoint st);
     dead_letters := dead_letters st;
     log := if cache_accepts env then log st else log st ++ [CacheWriteFailed] |}.
Proof.
  intros S Hb [k Hk]. unfold commit_batch.
  rewrite S, bool_decide_eq_false_2 by assumption. rewrite Hk. reflexivity.
Qed.

Lemma keys_upsert (e : DecodedEvent) (table : list DecodedEvent) (k : idem_key) :
  k ∈ keys (upsert e table) <-> k = idempotency_key e \/ k ∈ keys table.
Proof.
  unfold keys. split; [apply upsert_keys|].
  induction table as [|r table IH]; cbn [upsert map].
  - intros [-> | H]; [apply list_elem_of_here | inversion H].
  - destruct (idem_key_eqb (idempotency_key e) (idempotency_key r)) eqn:E; cbn [map].
    + apply idem_key_eqb_eq in E. intros [-> | H]; [apply list_elem_of_here|].
      apply elem_of_cons in H as [-> | H].
      * rewrite <- E. apply list_elem_of_here.
      * apply list_elem_of_further. exact H.
    + intros [-> | H].
      * apply list_elem_of_further. apply IH. auto.
      * apply elem_of_cons in H as [-> | H]; [apply list_elem_of_here|].
        apply list_elem_of_further. apply IH. auto.
Qed.

Lemma keys_upsert_all (batch table : list DecodedEvent) (k : idem_key) :
  k ∈ keys (upsert_all batch table) <-> k ∈ keys batch \/ k ∈ keys table.
Proof.
  revert table; induction batch as [|e batch IH]; intros table.
  - cbn. split; [auto | intros [H | H]; [inversion H | exact H]].
  - cbn [upsert_all fold_left]. fold (upsert_all batch (upsert e table)).
    rewrite IH, keys_upsert. unfold keys. cbn [map]. rewrite elem_of_cons. tauto.
Qed.

Lemma rows_with_present (k : idem_key) (table : list DecodedEvent) :
  unique_keys table -> k ∈ keys table -> rows_with k table = 1%nat.
Proof.
  unfold unique_keys, keys.
  induction table as [|r table IH]; cbn [map]; intros U H; [inversion H|].
  apply NoDup_cons in U as [Hr U]. unfold rows_with. rewrite filter_cons.
  destruct (decide (idem_key_eqb k (idempotency_key r) = true)) as [E | E].
  - apply idem_key_eqb_eq in E. subst k. cbn [length]. f_equal.
    apply rows_with_absent. exact Hr.
  - apply elem_of_cons in H as [-> | H];
      [exfalso; apply E; apply idem_key_eqb_refl|].
    apply IH; assumption.
Qed.

Lemma keys_dec (k : idem_key) (table : list DecodedEvent) :
  k ∈ keys table \/ k ∉ keys table.
Proof.
  unfold keys. induction table as [|r table IH]; cbn [map].
  - right. intros H. inversion H.
  - destruct (idem_key_eqb k (idempotency_key r)) eqn:E.
    + apply idem_key_eqb_eq in E. subst k. left. apply list_elem_of_here.
    + destruct IH as [IH | IH]; [left; apply list_elem_of_further; exact IH|].
      right. intros H. apply elem_of_cons in H as [-> | H]; [|contradiction].
      rewrite idem_key_eqb_refl in E. discriminate.
Qed.

(** In a table with unique keys a key has one row or none. *)
Lemma rows_with_unique (k : idem_key) (table : list DecodedEvent) :
  unique_keys table ->
  (rows_with k table <= 1)%nat /\ (rows_with k table = 1%nat <-> k ∈ keys table).
Proof.
  intros U. destruct (keys_dec k table) as [H | H].
  - rewrite (rows_with_present k table U H). split; [lia | tauto].
  - rewrite (rows_with_absent k table H). split; [lia|]. split; [discriminate | tauto].
Qed.

Lemma length_upsert_present (e : DecodedEvent) (table : list DecodedEvent) :
  idempotency_key e ∈ keys table -> length (upsert e table) = length table.
Proof.
  unfold keys. induction table as [|r table IH]; cbn [upsert map]; intros H;
    [inversion H|].
  destruct (idem_key_eqb (idempotency_key e) (idempotency_key r)) eqn:E; [reflexivity|].
  cbn [length]. f_equal. apply IH.
  apply elem_of_cons in H as [H | H]; [|exact H].
  rewrite H, idem_key_eqb_refl in E. discriminate.
Qed.

(** A batch of keys that the table has already adds no row. *)
Lemma length_upsert_all_present (batch table : list DecodedEvent) :
  (forall e, e ∈ batch -> idempotency_key e ∈ keys table) ->
  length (upsert_all batch table) = length table.
Proof.
  revert table; induction batch as [|e batch IH]; intros table H; [reflexivity|].
  cbn [upsert_all fold_left]. fold (upsert_all batch (upsert e table)).
  rewrite IH.
  - apply length_upsert_present, H, list_elem_of_here.
  - intros e' He'. apply keys_upsert. right. apply H, list_elem_of_further, He'.
Qed.

Lemma upsert_present (e : DecodedEvent) (table : list DecodedEvent) :
  unique_keys table -> e ∈ table -> upsert e table = table.
Proof.
  unfold unique_keys. induction table as [|r table IH]; cbn [upsert map]; intros U H;
    [inversion H|].
  apply NoDup_cons in U as [Hr U].
  destruct (idem_key_eqb (idempotency_key e) (idempotency_key r)) eqn:E.
  - apply idem_key_eqb_eq in E.
    apply elem_of_cons in H as [-> | H]; [reflexivity|].
    exfalso. apply Hr. rewrite <- E. apply list_elem_of_fmap. eauto.
  - f_equal. apply IH; [exact U|].
    apply elem_of_cons in H as [-> | H]; [|exact H].
    rewrite idem_key_eqb_refl in E. discriminate.
Qed.

(** A batch of events that are rows of the table already changes no
    row. *)
Lemma upsert_all_present (batch table : list DecodedEvent) :
  unique_keys table -> (forall e, e ∈ batch -> e ∈ table) ->
  upsert_all batch table = table.
Proof.
  intros U. induction batch as [|e batch IH]; intros H; [reflexivity|].
  cbn [upsert_all fold_left]. rewrite upsert_present.
  - apply IH. intros e' He'. apply H, list_elem_of_further, He'.
  - exact U.
  - apply H, list_elem_of_here.
Qed.

Lemma commit_batch_store (cfg : config) (env : environment) (st : state)
    (batch : list DecodedEvent) :
  stalled st = false -> write_succeeds cfg env ->
  store (commit_batch cfg env st batch) = upsert_all batch (store st) /\
  stalled (commit_batch cfg env st batch) = false.
Proof.
  intros S W. destruct (decide (batch = [])) as [-> | Hb].
  - unfold commit_batch. rewrite S. auto.
  - rewrite commit_batch_success by assumption. auto.
Qed.

(** Every table the Sink reaches has unique keys. *)
Lemma run_unique (cfg : config) (ops : list operation) (st : state) :
  unique_keys (store st) -> unique_keys (store (run cfg st ops)).
Proof.
  revert st; induction ops as [|op ops IH]; intros st U; [exact U|].
  cbn [run fold_left]. apply IH. destruct op as [env batch|]; cbn [step restart store].
  - unfold commit_batch. destruct (stalled st); [exact U|].
    destruct (bool_decide (batch = [])); [exact U|].
    destruct (fst (write_with_retry _ _ _ _)); cbn [store]; [|exact U].
    apply upsert_all_unique. exact U.
  - exact U.
Qed.

(** C3.  Writes to the durable store are idempotent under the
    idempotency key, for whole batches: however often an event is
    delivered, twice in one batch, in two batches, alone or among other
    events, the table has exactly one row with its key.  After two
    batches every key has one row in the table or none, one exactly
    when the table had it or a batch brought it; a batch of keys that
    the table has already adds no row, and a batch of events that are
    rows already changes none.  No table the Sink ever reaches, from
    the empty one, has two rows with one key. *)
Theorem sink_write_idempotent (cfg : config) (env1 env2 : environment) (st : state)
    (batch1 batch2 : list DecodedEvent) :
  stalled st = false -> unique_keys (store st) ->
  write_succeeds cfg env1 -> write_succeeds cfg env2 ->
  (forall e, e ∈ batch1 ->
     rows_with (idempotency_key e) (store (commit_batch cfg env1 st batch1)) = 1%nat) /\
  (forall e, e ∈ batch1 \/ e ∈ batch2 ->
     rows_with (idempotency_key e)
       (store (commit_batch cfg env2 (commit_batch cfg env1 st batch1) batch2)) = 1%nat) /\
  (forall k,
     (rows_with k (store (commit_batch cfg env2 (commit_batch cfg env1 st batch1) batch2))
      <= 1)%nat /\
     (rows_with k (store (commit_batch cfg env2 (commit_batch cfg env1 st batch1) batch2))
      = 1%nat <->
      k ∈ keys (store st) \/ k ∈ keys batch1 \/ k ∈ keys batch2)) /\
  ((forall e, e ∈ batch2 ->
      idempotency_key e ∈ keys (store (commit_batch cfg env1 st batch1))) ->
   length (store (commit_batch cfg env2 (commit_batch cfg env1 st batch1) batch2))
   = length (store (commit_batch cfg env1 st batch1))) /\
  ((forall e, e ∈ batch2 -> e ∈ store (commit_batch cfg env1 st batch1)) ->
   store (commit_batch cfg env2 (commit_batch cfg env1 st batch1) batch2)
   = store (commit_batch cfg env1 st batch1)) /\
  (forall ops, unique_keys (store (run cfg initial ops))).
Proof.
  intros S U W1 W2.
  destruct (commit_batch_store cfg env1 st batch1 S W1) as (E1 & S1).
  destruct (commit_batch_store cfg env2 _ batch2 S1 W2) as (E2 & _).
  rewrite E2, E1.
  pose proof (upsert_all_unique batch1 _ U) as U1.
  pose proof (upsert_all_unique batch2 _ U1) as U2.
  split; [|split; [|split; [|split; [|split]]]].
  - intros e He. apply rows_with_present; [exact U1|].
    apply keys_upsert_all. left. apply list_elem_of_fmap. eauto.
  - intros e He. apply rows_with_present; [exact U2|].
    rewrite !keys_upsert_all.
    destruct He as [He | He]; [right; left | left]; apply list_elem_of_fmap; eauto.
  - intros k. destruct (rows_with_unique k _ U2) as (Hle & Hiff).
    split; [exact Hle|]. rewrite Hiff, !keys_upsert_all. tauto.
  - apply length_upsert_all_present.
  - apply upsert_all_present. exact U1.
  - intros ops. apply run_unique. apply NoDup_nil. exact I.
Qed.

Lemma sink_write_idempotent_witness :
  rows_with (AccountKey 42 10 0)
    (store (commit_batch sample_config cache_down
              (commit_batch sample_config store_recovers initial
                 [sample_event 42 10 0 [6%Z]; sample_event 43 12 1 [1%Z];
                  sample_event 42 10 0 [6%Z]])
              [sample_event 44 11 5 [2%Z]; sample_event 42 10 0 [6%Z]])) = 1%nat /\
  length (store (commit_batch sample_config cache_down
                   (commit_batch sample_config store_recovers initial
                      [sample_event 42 10 0 [6%Z]; sample_event 43 12 1 [1%Z];
                       sample_event 42 10 0 [6%Z]])
                   [sample_event 44 11 5 [2%Z]; sample_event 42 10 0 [6%Z]])) = 3%nat.
Proof.
  split; [|reflexivity].
  apply (proj1 (proj2 (sink_write_idempotent sample_config store_recovers cache_down initial
           [sample_event 42 10 0 [6%Z]; sample_event 43 12 1 [1%Z];
            sample_event 42 10 0 [6%Z]]
           [sample_event 44 11 5 [2%Z]; sample_event 42 10 0 [6%Z]]
           eq_refl ltac:(apply NoDup_nil; exact I)
           ltac:(exists 3%nat; reflexivity) ltac:(exists 0%nat; reflexivity)))
           (sample_event 42 10 0 [6%Z])).
  left. apply list_elem_of_here.
Defined.

End Sink.

(* ===================================================================== *)
(** * The Checkpoint *)
(* ===================================================================== *)

Section Checkpoint.
Import Pipeline Spec.
Local Open Scope N_scope.
Context (cfg : config).

Lemma commit_batch_cases (env : environment) (st : state) (batch : list DecodedEvent) :
  commit_batch cfg env st batch = st \/
  (stalled st = false /\ batch <> [] /\ write_succeeds cfg env /\
   commit_batch cfg env st batch =
   {| last_applied := last_applied st;
      store := upsert_all batch (store st);
      cache := if cache_accepts env then cache_all batch (cache st) else cache st;
      checkpoint := batch_max batch (checkpoint st);
      dead_letters := dead_letters st;
      log := if cache_accepts env then log st else log st ++ [CacheWriteFailed] |}) \/
  (stalled st = false /\ batch <> [] /\ ~ write_succeeds cfg env /\
   commit_batch cfg env st batch =
   {| last_applied := last_applied st; store := store st; cache := cache st;
      checkpoint := checkpoint st; dead_letters := dead_letters st ++ [batch];
      log := log st ++ [BatchDeadLettered] |}).
Proof.
  unfold commit_batch, write_succeeds.
  destruct (stalled st); [left; reflexivity|].
  destruct (decide (batch = [])) as [->|Hb]; [left; reflexivity|].
  rewrite bool_decide_eq_false_2 by assumption.
  destruct (fst (write_with_retry (attempt_ceiling cfg) 0 (base_delay cfg) (store_accepts env))).
  - right; left. repeat split; eauto.
  - right; right. repeat split; auto; try (intros [k Hk]; discriminate).
Qed.

(** A commit never moves the Checkpoint back. *)
Lemma commit_batch_checkpoint (env : environment) (st : state) (batch : list DecodedEvent) :
  pos_le (checkpoint st) (checkpoint (commit_batch cfg env st batch)).
Proof.
  destruct (commit_batch_cases env st batch) as [-> | [(_ & _ & _ & ->) | (_ & _ & _ & ->)]];
    cbn [checkpoint].
  - apply pos_le_refl.
  - apply batch_max_start.
  - apply pos_le_refl.
Qed.

(** Nor does any run of commits and restarts. *)
Lemma run_checkpoint (ops : list operation) (st : state) :
  pos_le (checkpoint st) (checkpoint (run cfg st ops)).
Proof.
  revert st; induction ops as [|op ops IH]; intros st.
  - apply pos_le_refl.
  - cbn [run fold_left]. eapply pos_le_trans; [|apply IH].
    destruct op as [env batch|]; cbn [step restart checkpoint].
    + apply commit_batch_checkpoint.
    + apply pos_le_refl.
Qed.

(** After successful commits the Checkpoint is the maximum position of
    the committed events, above where it started. *)
Lemma run_commits (commits : list (environment * list DecodedEvent)) (st : state) :
  stalled st = false ->
  Forall (fun c => write_succeeds cfg (fst c)) commits ->
  checkpoint (run cfg st (map (fun c => Commit (fst c) (snd c)) commits))
  = batch_max (flat_map snd commits) (checkpoint st).
Proof.
  revert st; induction commits as [|[env batch] commits IH]; intros st S Hall.
  - reflexivity.
  - apply Forall_cons in Hall as [W Hall]. cbn [fst snd] in W.
    cbn [map run fold_left step flat_map fst snd]. rewrite batch_max_app.
    destruct (decide (batch = [])) as [->|Hb].
    + assert (commit_batch cfg env st [] = st) as ->.
      { unfold commit_batch. rewrite S. reflexivity. }
      apply IH; assumption.
    + rewrite (commit_batch_success cfg env st batch S Hb W).
      match goal with |- checkpoint (fold_left _ _ ?s) = _ =>
        change (checkpoint (run cfg s (map (fun c => Commit (fst c) (snd c)) commits))
                = batch_max (flat_map snd commits) (batch_max batch (checkpoint st)))
      end.
      rewrite IH; [reflexivity | exact S | exact Hall].
Qed.

Lemma pos_le_origin (p : position) : pos_le (0, 0) p.
Proof. unfold pos_le. rewrite pos_leb_spec. destruct p; simpl. lia. Qed.

End Checkpoint.

(* ===================================================================== *)
(** * Decode errors stay with their update *)
(* ===================================================================== *)

Section Isolation.
Import Pipeline Spec.
Context (registry : list decoder) (cfg : config).



Lemma same_data_trans (a b c : state) : same_data a b -> same_data b c -> same_data a c.
Proof. intros (? & ? & ? & ? & ?) (? & ? & ? & ? & ?). repeat split; congruence. Qed.








End Isolation.

Section IsolationWitness.
Import Pipeline Spec.
Local Open Scope N_scope.


End IsolationWitness.

(* ===================================================================== *)
(** * Retry, dead letters and the stall *)
(* ===================================================================== *)

Section Retry.
Import Pipeline Spec.
Local Open Scope N_scope.

Lemma backoff_S (d : N) (k : nat) : backoff d (S k) = d :: backoff (2 * d) k.
Proof.
  unfold backoff. cbn [seq map]. f_equal.
  - cbn. lia.
  - rewrite <- seq_shift, map_map. apply map_ext. intros i.
    rewrite Nat2N.inj_succ, N.pow_succ_r'. lia.
Qed.

(** Every attempt fails: the ceiling is reached after a doubling delay
    between consecutive attempts. *)
Lemma write_with_retry_exhausted (accepts : nat -> bool) (n a : nat) (d : N) :
  (forall j, (a <= j < a + n)%nat -> accepts j = false) ->
  write_with_retry n a d accepts = (None, backoff d (n - 1)).
Proof.
  revert a d; induction n as [|n IH]; intros a d H; [reflexivity|].
  cbn [write_with_retry]. rewrite H by lia.
  destruct n as [|n]; [reflexivity|].
  rewrite IH by (intros j Hj; apply H; lia).
  replace (S (S n) - 1)%nat with (S n) by lia.
  replace (S n - 1)%nat with n by lia.
  rewrite backoff_S. reflexivity.
Qed.

(** The store recovers at attempt [k], within the ceiling. *)
Lemma write_with_retry_recovers (accepts : nat -> bool) (n a k : nat) (d : N) :
  (k < n)%nat ->
  (forall j, (j < k)%nat -> accepts (a + j)%nat = false) ->
  accepts (a + k)%nat = true ->
  write_with_retry n a d accepts = (Some (a + k)%nat, backoff d k).
Proof.
  revert n a d; induction k as [|k IH]; intros n a d Hk Hf Ht.
  - destruct n as [|n]; [lia|]. cbn [write_with_retry].
    rewrite Nat.add_0_r in Ht. rewrite Ht, Nat.add_0_r. reflexivity.
  - destruct n as [|n]; [lia|]. cbn [write_with_retry].
    specialize (Hf 0%nat ltac:(lia)) as Hf0. rewrite Nat.add_0_r in Hf0. rewrite Hf0.
    destruct n as [|n]; [lia|].
    rewrite (IH (S n) (S a) (2 * d)).
    + rewrite backoff_S. f_equal. f_equal. lia.
    + lia.
    + intros j Hj. replace (S a + j)%nat with (a + S j)%nat by lia. apply Hf. lia.
    + replace (S a + k)%nat with (a + S k)%nat by lia. exact Ht.
Qed.

Context (cfg : config).

(** Nothing moves while a dead-letter record is outstanding. *)
Lemma stalled_run (ops : list operation) (st : state) :
  stalled st = true ->
  checkpoint (run cfg st ops) = checkpoint st /\
  store (run cfg st ops) = store st /\
  dead_letters (run cfg st ops) = dead_letters st.
Proof.
  revert st; induction ops as [|op ops IH]; intros st S; [auto|].
  cbn [run fold_left].
  assert (stalled (step cfg st op) = true /\
          checkpoint (step cfg st op) = checkpoint st /\
          store (step cfg st op) = store st /\
          dead_letters (step cfg st op) = dead_letters st) as (S' & Hc & Hs & Hd).
  { destruct op as [env batch|]; cbn [step].
    - unfold commit_batch. rewrite S. auto.
    - unfold restart, stalled in *. cbn. auto. }
  destruct (IH _ S') as (Hc' & Hs' & Hd'). unfold run in *.
  rewrite Hc', Hs', Hd'. auto.
Qed.

(** C6.  A failed write to the durable store is retried with a delay
    that doubles every time, up to the attempt ceiling.  When the store
    accepts the write at an attempt within the ceiling the batch is
    committed and the Checkpoint advances with it.  When every attempt
    up to the ceiling fails, the batch is written to a dead-letter
    record, the Checkpoint and the table stay as they were, and the
    pipeline stalls on that batch: it takes no further input and no
    later commit or restart moves the Checkpoint. *)
Theorem store_failure_stalls (env : environment) (st : state) (batch : list DecodedEvent) :
  stalled st = false -> batch <> [] ->
  (forall k, (k < attempt_ceiling cfg)%nat ->
     (forall j, (j < k)%nat -> store_accepts env j = false) ->
     store_accepts env k = true ->
     write_with_retry (attempt_ceiling cfg) 0 (base_delay cfg) (store_accepts env)
     = (Some k, backoff (base_delay cfg) k) /\
     store (commit_batch cfg env st batch) = upsert_all batch (store st) /\
     checkpoint (commit_batch cfg env st batch) = batch_max batch (checkpoint st) /\
     dead_letters (commit_batch cfg env st batch) = dead_letters st) /\
  ((forall j, (j < attempt_ceiling cfg)%nat -> store_accepts env j = false) ->
   write_with_retry (attempt_ceiling cfg) 0 (base_delay cfg) (store_accepts env)
   = (None, backoff (base_delay cfg) (attempt_ceiling cfg - 1)) /\
   dead_letters (commit_batch cfg env st batch) = dead_letters st ++ [batch] /\
   checkpoint (commit_batch cfg env st batch) = checkpoint st /\
   store (commit_batch cfg env st batch) = store st /\
   stalled (commit_batch cfg env st batch) = true /\
   (forall registry env' us,
      process registry cfg env' (commit_batch cfg env st batch) us
      = commit_batch cfg env st batch) /\
   (forall ops,
      checkpoint (run cfg (commit_batch cfg env st batch) ops) = checkpoint st /\
      store (run cfg (commit_batch cfg env st batch) ops) = store st)).
Proof.
  intros S Hb. split.
  - intros k Hk Hf Ht.
    pose proof (write_with_retry_recovers (store_accepts env) (attempt_ceiling cfg) 0 k
                  (base_delay cfg) Hk Hf Ht) as W.
    cbn [Nat.add] in W. split; [exact W|].
    rewrite commit_batch_success; auto.
    unfold write_succeeds. rewrite W. eexists; reflexivity.
  - intros Hf.
    pose proof (write_with_retry_exhausted (store_accepts env) (attempt_ceiling cfg) 0
                  (base_delay cfg) ltac:(intros j Hj; apply Hf; lia)) as W.
    split; [exact W|].
    assert (commit_batch cfg env st batch =
            {| last_applied := last_applied st; store := store st; cache := cache st;
               checkpoint := checkpoint st; dead_letters := dead_letters st ++ [batch];
               log := log st ++ [BatchDeadLettered] |}) as E.
    { unfold commit_batch. rewrite S, bool_decide_eq_false_2 by assumption.
      rewrite W. reflexivity. }
    assert (stalled (commit_batch cfg env st batch) = true) as S'.
    { rewrite E. unfold stalled. cbn [dead_letters].
      destruct (dead_letters st); reflexivity. }
    rewrite E in S' |- *. cbn [dead_letters checkpoint store].
    repeat split; auto.
    + intros registry env' us. unfold process. rewrite S'. reflexivity.
    + destruct (stalled_run ops _ S') as (Hc & _). exact Hc.
    + destruct (stalled_run ops _ S') as (_ & Hs & _). exact Hs.
Qed.

End Retry.

Section RetryWitness.
Import Pipeline Spec.
Local Open Scope N_scope.

Lemma store_failure_stalls_witness :
  (write_with_retry 5 0 100 (store_accepts store_recovers) = (Some 3%nat, [100; 200; 400]) /\
   checkpoint (commit_batch sample_config store_recovers initial [sample_event 42 10 0 [6%Z]])
   = (10, 0)) /\
  (write_with_retry 5 0 100 (store_accepts store_down) = (None, [100; 200; 400; 800]) /\
   dead_letters (commit_batch sample_config store_down initial [sample_event 42 10 0 [6%Z]])
   = [[sample_event 42 10 0 [6%Z]]] /\
   checkpoint (commit_batch sample_config store_down initial [sample_event 42 10 0 [6%Z]])
   = (0, 0)).
Proof.
  assert (stalled initial = false) as S by reflexivity.
  assert ([sample_event 42 10 0 [6%Z]] <> []) as Hb by discriminate.
  split.
  - destruct (proj1 (store_failure_stalls sample_config store_recovers initial
                       [sample_event 42 10 0 [6%Z]] S Hb) 3%nat) as (W & _ & C & _).
    + cbn. lia.
    + intros [|[|[|j]]] Hj; try reflexivity. lia.
    + reflexivity.
    + split; [exact W | exact C].
  - destruct (proj2 (store_failure_stalls sample_config store_down initial
                       [sample_event 42 10 0 [6%Z]] S Hb)) as (W & D & C & _).
    + intros j _. reflexivity.
    + split; [exact W|]. split; [exact D | exact C].
Defined.

End RetryWitness.

(* ===================================================================== *)
(** * More on formatError and the transaction link *)
(* ===================================================================== *)

Section FormatErrorMore.
Import JS Spec Cases PipelineStep.
Context (en : engine).

(** X1.  [formatError] looks for JSON on one line only.  When every
    opening brace of the text is cut off from the closing braces after
    it by a line terminator, as in an object printed over several lines,
    a text without the two key phrases comes back as it is, whatever
    JSON it holds. *)
Theorem formatError_needs_one_line (error : jsstring) :
  includes error (lit "insufficient funds") = false ->
  includes error (lit "0x1771") = false ->
  (forall pre body post, error = pre ++ lbrace :: body ++ rbrace :: post -> ~ dots body) ->
  formatError en error = error.
Proof.
  intros H1 H2 H. rewrite formatError_unfold by assumption.
  apply regex_match_braces_None in H. rewrite H. reflexivity.
Qed.

Lemma quote_unit_length (c : code_unit) : (1 <= length (quote_unit c))%nat.
Proof. unfold quote_unit, unicode_escape. repeat case_match; simpl; lia. Qed.

Lemma quote_units_length (s : jsstring) : (length s <= length (quote_units s))%nat.
Proof.
  remember (length s) as n eqn:Hn. revert s Hn.
  induction n as [n IH] using lt_wf_ind. intros s ->.
  destruct s as [|c [|d s2]].
  - simpl. lia.
  - cbn [quote_units]. pose proof (quote_unit_length c). simpl. lia.
  - cbn [quote_units].
    destruct (is_high_surrogate c && is_low_surrogate d).
    + specialize (IH (length s2) ltac:(simpl; lia) s2 eq_refl). simpl. lia.
    + specialize (IH (length (d :: s2)) ltac:(simpl; lia) (d :: s2) eq_refl).
      rewrite length_app. pose proof (quote_unit_length c). simpl in *. lia.
Qed.

(** X2.  An [error] field that is a string comes back as JSON text, not
    as the string: between quotation marks, with its special characters
    escaped, so at least two code units longer than the message itself. *)
Theorem formatError_string_field_quoted (error m : jsstring) (v : json) (s : jsstring) :
  includes error (lit "insufficient funds") = false ->
  includes error (lit "0x1771") = false ->
  brace_group error m -> JSON_parse m = Some v ->
  get_prop v (lit "error") = Some (JString s) -> s <> [] ->
  formatError en error = [34%N] ++ quote_units s ++ [34%N] /\
  (length s + 2 <= length (formatError en error))%nat /\
  formatError en error <> s.
Proof.
  intros H1 H2 Hm Hv He Hs.
  assert (formatError en error = [34%N] ++ quote_units s ++ [34%N]) as E.
  { rewrite formatError_unfold by assumption.
    apply regex_match_braces_Some in Hm. rewrite Hm, Hv, He.
    destruct s; [congruence | reflexivity]. }
  assert (length s + 2 <= length (formatError en error))%nat as L.
  { rewrite E, !length_app. pose proof (quote_units_length s). simpl. lia. }
  repeat split; auto.
  intros C. rewrite C in L. lia.
Qed.

Lemma texts_Text (s : jsstring) : s <> [] -> texts (Text s) = [s].
Proof. destruct s; [congruence | reflexivity]. Qed.

(** X3.  The label of the transaction link is the first six and the
    last four code units of the hash around three dots.  A hash of ten
    code units or more is shortened by what lies between; a hash of up
    to four code units is not shortened at all: it stands on both sides
    of the dots. *)
Theorem tx_link_label (h : jsstring) :
  h <> [] ->
  texts (tx_link h) = [slice_head 6 h; lit "..."; slice_tail 4 h] /\
  length (slice_head 6 h) = Nat.min 6 (length h) /\
  length (slice_tail 4 h) = Nat.min 4 (length h) /\
  ((10 <= length h)%nat ->
   exists mid, h = slice_head 6 h ++ mid ++ slice_tail 4 h /\
               length mid = (length h - 10)%nat) /\
  ((length h <= 4)%nat -> slice_head 6 h = h /\ slice_tail 4 h = h).
Proof.
  intros Hh. unfold slice_head, slice_tail.
  assert (length (take 6 h) = Nat.min 6 (length h)) as L1 by apply length_take.
  assert (length (drop (length h - 4) h) = Nat.min 4 (length h)) as L2
    by (rewrite length_drop; lia).
  assert (0 < length h)%nat as Hpos by (destruct h; [congruence | simpl; lia]).
  split; [|split; [exact L1 | split; [exact L2 | split]]].
  - assert (take 6 h <> []) as N1
      by (intros E; rewrite E in L1; cbn [length] in L1; lia).
    assert (drop (length h - 4) h <> []) as N2
      by (intros E; rewrite E in L2; cbn [length] in L2; lia).
    destruct (take 6 h) eqn:E1; [congruence|].
    destruct (drop (length h - 4) h) eqn:E2; [congruence|].
    unfold tx_link, slice_head, slice_tail. rewrite E1, E2.
    reflexivity.
  - intros H10. exists (take (length h - 10) (drop 6 h)). split.
    + rewrite <- (take_drop 6 h) at 1. f_equal.
      rewrite <- (take_drop (length h - 10) (drop 6 h)) at 1. f_equal.
      rewrite drop_drop. f_equal. lia.
    + rewrite length_take, length_drop. lia.
  - intros H4. split.
    + apply take_ge. lia.
    + replace (length h - 4)%nat with 0%nat by lia. reflexivity.
Qed.

(** X4.  The link of a transaction determines its hash: two hashes with
    the same link are the same hash, and the hash is what follows the
    address of the explorer. *)
Theorem tx_href_injective (h1 h2 : jsstring) :
  (tx_href h1 = tx_href h2 -> h1 = h2) /\
  (startsWith h1 (lit "0x") = true -> drop 25 (tx_href h1) = h1) /\
  (startsWith h1 (lit "0x") = false -> drop 22 (tx_href h1) = h1).
Proof.
  unfold tx_href. split; [|split].
  - destruct (startsWith h1 (lit "0x")), (startsWith h2 (lit "0x")); intros E.
    + apply (f_equal (drop 25)) in E. exact E.
    + apply (f_equal (take 9)) in E. discriminate E.
    + apply (f_equal (take 9)) in E. discriminate E.
    + apply (f_equal (drop 22)) in E. exact E.
  - intros ->. reflexivity.
  - intros ->. reflexivity.
Qed.

End FormatErrorMore.

Section FormatErrorMoreWitness.
Import JS Spec Cases PipelineStep.

Lemma formatError_needs_one_line_witness :
  JSON_parse pretty_error_text = Some (JObject [(lit "error", JString (lit "x"))]) /\
  formatError small_stack pretty_error_text = pretty_error_text.
Proof.
  split; [reflexivity|].
  apply (formatError_needs_one_line small_stack); try reflexivity.
  apply regex_match_braces_None. reflexivity.
Defined.

Lemma formatError_string_field_quoted_witness :
  formatError small_stack rpc_error_text = [34%N] ++ quote_units (lit "x") ++ [34%N] /\
  (length (lit "x") + 2 <= length (formatError small_stack rpc_error_text))%nat /\
  formatError small_stack rpc_error_text <> lit "x".
Proof.
  apply (formatError_string_field_quoted small_stack rpc_error_text rpc_error_object
           (JObject [(lit "error", JString (lit "x"))]) (lit "x")); try reflexivity.
  - apply regex_match_braces_Some. reflexivity.
  - discriminate.
Defined.

Lemma tx_link_label_witness :
  texts (tx_link (lit "5Kd3")) = [lit "5Kd3"; lit "..."; lit "5Kd3"] /\
  texts (tx_link (lit "0xabcdef0123456789")) = [lit "0xabcd"; lit "..."; lit "6789"].
Proof.
  split.
  - apply (tx_link_label (lit "5Kd3")). discriminate.
  - apply (tx_link_label (lit "0xabcdef0123456789")). discriminate.
Defined.

Lemma tx_href_injective_witness :
  drop 25 (tx_href (lit "0xabcdef0123456789")) = lit "0xabcdef0123456789" /\
  drop 22 (tx_href (lit "5Kd3NBUAdUnhyzqQx")) = lit "5Kd3NBUAdUnhyzqQx".
Proof.
  split.
  - apply (tx_href_injective (lit "0xabcdef0123456789") []). reflexivity.
  - apply (tx_href_injective (lit "5Kd3NBUAdUnhyzqQx") []). reflexivity.
Defined.

End FormatErrorMoreWitness.

(* ===================================================================== *)
(** * PipelineStepContainer *)
(* ===================================================================== *)

Section ContainerFacts.
Import JS Spec Cases PipelineStep React StepContainer.

Lemma vhref_of_props (props : list (string * prop_value)) :
  vhref_of (List.map of_prop props) = href_of props.
Proof.
  induction props as [|[k [s|z]] ps IH]; [reflexivity| |];
    unfold vhref_of, href_of in *; cbn [List.map flat_map of_prop];
    rewrite IH; reflexivity.
Qed.

Lemma vanchors_of_node : forall n : node, vanchors (of_node n) = anchors n.
Proof.
  fix IH 1. intros [tag props children| name props | s | |]; try reflexivity.
  cbn [of_node vanchors anchors]. rewrite vhref_of_props. f_equal.
  induction children as [|c cs IHc]; [reflexivity|].
  cbn [List.map flat_map]. rewrite IH, IHc. reflexivity.
Qed.

Lemma vtexts_of_node : forall n : node, vtexts (of_node n) = texts n.
Proof.
  fix IH 1. intros [tag props children| name props | s | |]; try reflexivity.
  cbn [of_node vtexts texts].
  induction children as [|c cs IHc]; [reflexivity|].
  cbn [List.map flat_map]. rewrite IH, IHc. reflexivity.
Qed.

Lemma flat_map_imap_nil {A B} (g : vnode -> list B) (f : nat -> A -> vnode) (l : list A) :
  (forall i x, g (f i x) = []) -> flat_map g (imap f l) = [].
Proof.
  revert f. induction l as [|x l IH]; intros f H; [reflexivity|].
  cbn [imap flat_map]. rewrite H, IH; [reflexivity|]. intros i y. apply H.
Qed.

Lemma flat_map_imap_singleton {A B} (g : vnode -> list B) (h : A -> B)
    (f : nat -> A -> vnode) (l : list A) :
  (forall i x, g (f i x) = [h x]) -> flat_map g (imap f l) = List.map h l.
Proof.
  revert f. induction l as [|x l IH]; intros f H; [reflexivity|].
  cbn [imap flat_map List.map]. rewrite H, IH; [reflexivity|]. intros i y. apply H.
Qed.

Context (en : engine).
Context {condition_type : Type} `{EqDecision condition_type}.
Context (Now PriceAbove : condition_type).

Lemma condition_text_cons (condition : PipelineCondition) :
  exists c s, condition_text Now PriceAbove condition = c :: s.
Proof.
  unfold condition_text.
  destruct (bool_decide (type condition = Now)); [do 2 eexists; reflexivity|].
  destruct (bool_decide (type condition = PriceAbove)); do 2 eexists; reflexivity.
Qed.

Lemma vanchors_conditions_block (conditions : list PipelineCondition) :
  vanchors (conditions_block Now PriceAbove conditions) = [].
Proof.
  destruct conditions as [|c cs]; [reflexivity|].
  unfold conditions_block, condition_lines.
  cbn [vanchors flat_map String.eqb Ascii.eqb Bool.eqb app].
  rewrite flat_map_imap_nil; reflexivity.
Qed.

Lemma vtexts_conditions_block (conditions : list PipelineCondition) :
  vtexts (conditions_block Now PriceAbove conditions) =
  match conditions with
  | [] => []
  | _ => lit "Conditions:" :: List.map (condition_text Now PriceAbove) conditions
  end.
Proof.
  destruct conditions as [|c cs]; [reflexivity|].
  unfold conditions_block, condition_lines.
  cbn [vtexts flat_map].
  rewrite (flat_map_imap_singleton vtexts (condition_text Now PriceAbove)).
  - rewrite !app_nil_r. reflexivity.
  - intros i x. cbn [vtexts flat_map].
    destruct (condition_text_cons x) as (a & s & ->). reflexivity.
Qed.

(** X5.  The container puts no link of its own into the document: its
    links are those of its children and then, at most, the link of the
    transaction.  That link is there exactly when both the status and
    the hash are non-empty strings: without a status the hash is not
    shown at all. *)
Theorem PipelineStepContainer_links (index : number) (children : vnode)
    (conditions : list PipelineCondition) (status transactionHash error : option jsstring) :
  vanchors (PipelineStepContainer en Now PriceAbove index children conditions
              status transactionHash error) =
  vanchors children ++
  match status, transactionHash with
  | Some (_ :: _), Some (c :: h) => [tx_href (c :: h)]
  | _, _ => []
  end.
Proof.
  unfold PipelineStepContainer.
  change (vanchors (VElement "div" ?p [VElement "div" ?q [?n; ?ch]; ?c; ?s]))
    with ((vanchors n ++ vanchors ch ++ []) ++ vanchors c ++ vanchors s ++ []).
  rewrite vanchors_conditions_block.
  change (vanchors (VElement "div" ?p [VNumber ?x])) with (@nil jsstring).
  rewrite !app_nil_r. cbn [app]. f_equal.
  destruct status as [[|a s]|]; [destruct transactionHash as [[|? ?]|]; reflexivity| |
                                 destruct transactionHash as [[|? ?]|]; reflexivity].
  unfold status_block.
  change (vanchors (VElement "div" ?p [VElement "div" ?q [VText ?t]; ?n]))
    with (vanchors n ++ []).
  rewrite vanchors_of_node, anchors_TransactionLink, app_nil_r. reflexivity.
Qed.

(** X6.  The texts of the container come in this order: the step number
    (the index plus one), the texts of the children, then, if there are
    conditions, the heading "Conditions:" and one line for each
    condition in the order of the list, then, if the status is a
    non-empty string, the heading "Status:" and the texts of the
    transaction link. *)
Theorem PipelineStepContainer_texts (index : number) (children : vnode)
    (conditions : list PipelineCondition) (status transactionHash error : option jsstring) :
  vtexts (PipelineStepContainer en Now PriceAbove index children conditions
            status transactionHash error) =
  [Number_toString (add index (number_of_Z 1))] ++ vtexts children ++
  match conditions with
  | [] => []
  | _ => lit "Conditions:" :: List.map (condition_text Now PriceAbove) conditions
  end ++
  match status with
  | Some (c :: s) =>
      lit "Status:" :: texts (TransactionLink en (c :: s) transactionHash error)
  | _ => []
  end.
Proof.
  unfold PipelineStepContainer.
  change (vtexts (VElement "div" ?p [VElement "div" ?q [?n; ?ch]; ?c; ?s]))
    with ((vtexts n ++ vtexts ch ++ []) ++ vtexts c ++ vtexts s ++ []).
  rewrite vtexts_conditions_block.
  change (vtexts (VElement "div" ?p [VNumber ?x])) with [Number_toString x].
  rewrite !app_nil_r, <- !app_assoc. cbn [app]. do 3 f_equal.
  destruct status as [[|a s]|]; [reflexivity| |reflexivity].
  unfold status_block.
  change (vtexts (VElement "div" ?p [VElement "div" ?q [VText ?t]; ?n]))
    with (vtexts (VText t) ++ vtexts n ++ []).
  rewrite vtexts_of_node, app_nil_r. reflexivity.
Qed.

End ContainerFacts.

(* ===================================================================== *)
(** * More on formatNumber *)
(* ===================================================================== *)

Section FormatNumberMore.
Import JS Spec Cases Dexscreener.

Lemma ge_not_positive (x : number) (mt : positive) (et : Z) :
  not_positive x -> ge x (S754_finite false mt et) = false.
Proof.
  destruct x as [s | [|] | | [|] m e]; cbn [not_positive]; intros H;
    try contradiction; reflexivity.
Qed.

(** X7.  A Number that is not above zero never gets a suffix, however
    large its magnitude: zero, the negative Numbers, minus infinity and
    NaN fail all three comparisons and are rendered by [toFixed(2)]
    right after the dollar sign. *)
Theorem formatNumber_not_positive (x : number) :
  not_positive x -> formatNumber x = lit "$" ++ toFixed x 2.
Proof.
  intros H. unfold formatNumber.
  change n_1e9 with (S754_finite false 8388608000000000 (-23)).
  change n_1e6 with (S754_finite false 8589934592000000 (-33)).
  change n_1e3 with (S754_finite false 8796093022208000 (-43)).
  rewrite !ge_not_positive by exact H. reflexivity.
Qed.

Lemma formatNumber_not_positive_witness :
  formatNumber (number_of_Z (-2500000000)) = lit "$" ++ toFixed (number_of_Z (-2500000000)) 2 /\
  toFixed (number_of_Z (-2500000000)) 2 = lit "-2500000000.00".
Proof.
  split; [|vm_compute; reflexivity].
  apply (formatNumber_not_positive (number_of_Z (-2500000000))).
  vm_compute. exact I.
Defined.

Lemma at_least_mono (x : number) (z1 z2 : Z) :
  z1 <= z2 -> at_least x z2 -> at_least x z1.
Proof.
  destruct x as [s | [|] | | [|] m e]; cbn [at_least]; auto.
  intros Hz H. pose proof (ratio_of_pos m e) as [_ Hq]. nia.
Qed.

Lemma below_thousand_units (num : number) :
  valid_binary prec emax num = true -> ~ at_least num 1000 ->
  formatNumber num = lit "$" ++ toFixed num 2.
Proof.
  intros V H3.
  destruct (threshold_met_real num V) as (T9 & T6 & T3). cbn [threshold_met] in *.
  unfold formatNumber.
  destruct (ge num n_1e9) eqn:G9;
    [exfalso; apply H3, (at_least_mono num 1000 1000000000); [lia | apply T9; reflexivity]|].
  destruct (ge num n_1e6) eqn:G6;
    [exfalso; apply H3, (at_least_mono num 1000 1000000); [lia | apply T6; reflexivity]|].
  destruct (ge num n_1e3) eqn:G3;
    [exfalso; apply H3, T3; reflexivity|].
  reflexivity.
Qed.

(** X8.  Below one thousand the amount is shown in hundredths: for a
    finite Number from zero up to, but not reaching, 1000 the text is
    the dollar sign and the numeral of the nearest hundredth of the
    amount (a half rounding up): the digits of the integer part without
    superfluous zeros, a point and two digits, which read back as that
    many hundredths; no suffix.  The hundredths shown range from 0 to
    100000: an amount within half a hundredth of 1000 reads $1000.00,
    not $1.00K. *)
Theorem formatNumber_below_thousand (num : number) :
  valid_binary prec emax num = true ->
  non_negative_finite num -> ~ at_least num 1000 ->
  exists n t,
    rounds_to_hundredths num n /\ 0 <= n <= 100000 /\
    hundredths_numeral n t /\ formatNumber num = lit "$" ++ t.
Proof.
  intros V F H3. rewrite (below_thousand_units num V H3).
  assert (below_1e21 num) as B.
  { destruct num as [s | s | | [|] m e]; cbn [non_negative_finite] in F;
      try contradiction; cbn [below_1e21]; [exact I|].
    cbn [at_least] in H3. pose proof (ratio_of_pos m e) as [Hp Hq].
    unfold at_least_1e21. apply Z.leb_gt.
    change (10 ^ 21) with 1000000000000000000000. nia. }
  destruct (toFixed_hundredths num B) as (n & t & Hr & Ht & E).
  exists n, t. split; [exact Hr|]. split; [|split; [exact Ht|]].
  - destruct num as [s | s | | [|] m e]; cbn [non_negative_finite] in F;
      try contradiction; cbn [rounds_to_hundredths] in Hr; [lia|].
    cbn [at_least] in H3. pose proof (ratio_of_pos m e) as [Hp Hq]. nia.
  - rewrite E. destruct num as [s | s | | [|] m e]; cbn [non_negative_finite] in F;
      try contradiction; reflexivity.
Qed.

Lemma formatNumber_below_thousand_witness :
  (exists n t,
      rounds_to_hundredths (number_of_decimal false 999999 (-3)) n /\ 0 <= n <= 100000 /\
      hundredths_numeral n t /\
      formatNumber (number_of_decimal false 999999 (-3)) = lit "$" ++ t) /\
  rounds_to_hundredths (number_of_decimal false 999999 (-3)) 100000 /\
  hundredths_numeral 100000 (lit "1000.00") /\
  formatNumber (number_of_decimal false 999999 (-3)) = lit "$1000.00" /\
  formatNumber (number_of_decimal false 5 (-3)) = lit "$0.01" /\
  formatNumber (number_of_decimal false 1234 (-3)) = lit "$1.23".
Proof.
  split; [|split; [|split]].
  - apply (formatNumber_below_thousand (number_of_decimal false 999999 (-3))).
    + vm_compute. reflexivity.
    + vm_compute. exact I.
    + vm_compute. intros H. apply H. reflexivity.
  - vm_compute. split; [intros H; discriminate H | reflexivity].
  - exists (lit "1000"), (lit "00"). repeat split.
    + right. do 2 eexists. split; [reflexivity | discriminate].
    + repeat constructor.
  - repeat split; vm_compute; reflexivity.
Defined.

End FormatNumberMore.

(* ===================================================================== *)
(** * DexscreenerDisplay *)
(* ===================================================================== *)

Section DexscreenerFacts.
Import JS Spec Cases Dexscreener React DexscreenerTable.

Context (toLowerCase toUpperCase : jsstring -> jsstring).

Lemma vanchors_amount_cell (amount : number) : vanchors (amount_cell amount) = [].
Proof. reflexivity. Qed.

Lemma vanchors_row (pair : DexScreenerPair) :
  vanchors (row toLowerCase toUpperCase pair) = [url pair].
Proof.
  unfold row.
  change (vanchors (VElement "tr" ?p [?a; ?b; ?c]))
    with (vanchors a ++ vanchors b ++ vanchors c ++ []).
  assert (vanchors (token_cell toLowerCase toUpperCase pair) = [url pair]) as -> by reflexivity.
  destruct (liquidity pair), (volume pair); reflexivity.
Qed.

Lemma rendered_rows (pairs : list DexScreenerPair) :
  flat_map rendered (List.map (row toLowerCase toUpperCase) pairs)
  = List.map (row toLowerCase toUpperCase) pairs.
Proof.
  induction pairs as [|pair pairs IH]; [reflexivity|].
  cbn [List.map flat_map]. rewrite IH. reflexivity.
Qed.

(** X9.  The table has the header and one row for each pair, in the
    order of the list (only the header for an empty list), and one link
    for each pair and no other: its links are the [url]s of the pairs,
    in the same order. *)
Theorem DexscreenerDisplay_rows_and_links (pairs : list DexScreenerPair) :
  (exists table tbody,
      rendered_children (DexscreenerDisplay toLowerCase toUpperCase pairs) = [table] /\
      rendered_children table = [header; tbody] /\
      rendered_children tbody = List.map (row toLowerCase toUpperCase) pairs) /\
  vanchors (DexscreenerDisplay toLowerCase toUpperCase pairs) = List.map url pairs.
Proof.
  split.
  { unfold DexscreenerDisplay. do 2 eexists. split; [reflexivity|]. split; [reflexivity|].
    cbn [rendered_children flat_map rendered]. rewrite app_nil_r. apply rendered_rows. }
  unfold DexscreenerDisplay.
  change (vanchors (VElement "div" ?p [VElement "table" ?q [header; VElement "tbody" ?r [VArray ?rows]]]))
    with (((vanchors header ++ (flat_map vanchors rows ++ []) ++ []) ++ [])).
  change (vanchors header) with (@nil jsstring).
  rewrite !app_nil_r. cbn [app].
  induction pairs as [|pair pairs IH]; [reflexivity|].
  cbn [List.map flat_map]. rewrite vanchors_row, IH. reflexivity.
Qed.

(** X10.  A row has the token cell and then a cell for each of the
    liquidity and the volume that the pair has, so between one and
    three cells under the three headings Token, Liquidity and 24h Vol.
    No cell stands in for a missing value: with the liquidity missing
    and the volume there, the volume is the second cell of the row, the
    one under the heading Liquidity. *)
Theorem row_cells (pair : DexScreenerPair) :
  rendered_children (row toLowerCase toUpperCase pair) =
  token_cell toLowerCase toUpperCase pair ::
  match liquidity pair with Has l => [amount_cell (usd l)] | _ => [] end ++
  match volume pair with Has v => [amount_cell (h24 v)] | _ => [] end /\
  (1 <= length (rendered_children (row toLowerCase toUpperCase pair)) <= 3)%nat /\
  List.map vtexts (flat_map rendered_children (rendered_children header)) =
  [[lit "Token"]; [lit "Liquidity"]; [lit "24h Vol"]] /\
  (forall v, absent (liquidity pair) -> volume pair = Has v ->
             nth_error (rendered_children (row toLowerCase toUpperCase pair)) 1
             = Some (amount_cell (h24 v)) /\
             vtexts (amount_cell (h24 v)) = [formatNumber (h24 v)]).
Proof.
  assert (rendered_children (row toLowerCase toUpperCase pair) =
          token_cell toLowerCase toUpperCase pair ::
          match liquidity pair with Has l => [amount_cell (usd l)] | _ => [] end ++
          match volume pair with Has v => [amount_cell (h24 v)] | _ => [] end) as E.
  { unfold row, rendered_children. cbn [flat_map].
    destruct (liquidity pair), (volume pair); reflexivity. }
  split; [exact E|]. split; [|split].
  - rewrite E. destruct (liquidity pair), (volume pair); simpl; lia.
  - reflexivity.
  - intros v Hl Hv. rewrite E, Hv. split.
    + destruct (liquidity pair); cbn [absent] in Hl; [reflexivity | reflexivity | contradiction].
    + unfold amount_cell. cbn [vtexts flat_map]. rewrite !app_nil_r.
      assert (startsWith (formatNumber (h24 v)) (lit "$") = true) as S
        by (unfold formatNumber; repeat case_match; reflexivity).
      destruct (formatNumber (h24 v)); [discriminate S | reflexivity].
Qed.

End DexscreenerFacts.

Lemma row_cells_witness :
  nth_error (React.rendered_children (DexscreenerTable.row id id Cases.sample_pair)) 1
  = Some (DexscreenerTable.amount_cell (JS.number_of_Z 1234567)) /\
  React.vtexts (DexscreenerTable.amount_cell (JS.number_of_Z 1234567)) = [JS.lit "$1.23M"].
Proof.
  apply (proj2 (proj2 (proj2 (row_cells id id Cases.sample_pair)))
           {| DexscreenerTable.h24 := JS.number_of_Z 1234567 |}).
  - exact I.
  - reflexivity.
Defined.

(* ===================================================================== *)
(** * DelegateActionButton *)
(* ===================================================================== *)

Section DelegateFacts.
Import JS Spec Cases React DelegateButton.

Lemma wallet_to_delegate_Some (wallets : list wallet) (w : wallet) :
  wallet_to_delegate wallets = Some w ->
  In w wallets /\ walletClientType w = lit "privy".
Proof.
  unfold wallet_to_delegate. intros H. apply find_some in H as [Hin Hp].
  split; [exact Hin|]. apply jsstring_eqb_eq. exact Hp.
Qed.

Lemma buttons_create_button (h : hooks) : buttons (create_button h) = [create_button h].
Proof.
  unfold create_button. cbn [buttons String.eqb Ascii.eqb Bool.eqb flat_map app].
  destruct (isCreatingSolana h || isCreatingEvm h); reflexivity.
Qed.

Lemma buttons_DelegateActionButton (h : hooks) :
  buttons (DelegateActionButton h) =
  if needs_wallet h then [create_button h]
  else match isSolanaDelegated h with
       | Some true => if not_ (isEvmDelegated h) then [delegate_evm_button h] else []
       | _ => [delegate_solana_button h]
       end.
Proof.
  unfold DelegateActionButton. destruct (needs_wallet h).
  - apply buttons_create_button.
  - destruct (isSolanaDelegated h) as [[|]|]; cbn [not_]; try reflexivity.
    destruct (not_ (isEvmDelegated h)); reflexivity.
Qed.

(** X11.  The component shows at most one button at a time: the button
    that creates wallets as long as a ready chain has no embedded
    wallet; otherwise the button that delegates the Solana wallet until
    a delegated Solana wallet is among the linked accounts (also before
    login, when there is no user); the button that delegates the EVM
    wallet only after that, until a delegated EVM wallet is linked;
    and then none. *)
Theorem DelegateActionButton_one_button (h : hooks) :
  buttons (DelegateActionButton h) =
  (if needs_wallet h then [create_button h]
   else match isSolanaDelegated h with
        | Some true => if not_ (isEvmDelegated h) then [delegate_evm_button h] else []
        | _ => [delegate_solana_button h]
        end) /\
  (length (buttons (DelegateActionButton h)) <= 1)%nat /\
  (user h = None -> needs_wallet h = false ->
   buttons (DelegateActionButton h) = [delegate_solana_button h]) /\
  (buttons (DelegateActionButton h) = [] <->
   needs_wallet h = false /\ isSolanaDelegated h = Some true /\ isEvmDelegated h = Some true).
Proof.
  rewrite buttons_DelegateActionButton. split; [reflexivity|]. split; [|split].
  - destruct (needs_wallet h); [simpl; lia|].
    destruct (isSolanaDelegated h) as [[|]|]; try (simpl; lia).
    destruct (not_ (isEvmDelegated h)); simpl; lia.
  - intros Hu ->. unfold isSolanaDelegated, is_delegated. rewrite Hu. reflexivity.
  - destruct (needs_wallet h).
    + split; [discriminate | intros [? _]; discriminate].
    + destruct (isSolanaDelegated h) as [[|]|];
        try (split; [discriminate | intros (_ & ? & _); discriminate]).
      destruct (isEvmDelegated h) as [[|]|]; cbn [not_];
        split; try discriminate; auto;
        intros (_ & _ & ?); discriminate.
Qed.

Lemma DelegateActionButton_one_button_witness :
  buttons (DelegateActionButton hooks_loading) = [delegate_solana_button hooks_loading] /\
  flag_of "disabled" (delegate_solana_button hooks_loading) = Some true.
Proof.
  split; [|reflexivity].
  apply (proj1 (proj2 (proj2 (DelegateActionButton_one_button hooks_loading)))); reflexivity.
Defined.

Lemma delegate_click_Some (o : outcomes) (w : wallet) (chain message : string) :
  delegate_click o (Some w) chain message =
  (logged_on_failure (DelegateWallet (address w) (lit chain)) (delegateWallet_resolves o) message,
   Normal).
Proof.
  unfold delegate_click, logged_on_failure, await, try_catch, perform.
  destruct (delegateWallet_resolves o); reflexivity.
Qed.

(** X12.  A button that is shown enabled can be clicked safely.  If it
    is a delegate button, there is an embedded wallet (one of the
    chain's wallets whose client type is privy) and the click calls
    [delegateWallet] with the address of that wallet and the chain of
    the button, logs the failure if the call fails, and completes
    normally; the read of the address of a missing wallet cannot
    happen.  If it is the button that creates wallets, both chains are
    ready and no creation is under way. *)
Theorem enabled_button_click (h : hooks) (o : outcomes) (b : vnode) (name : string) :
  In b (buttons (DelegateActionButton h)) ->
  flag_of "disabled" b = Some false -> on_click b = Some name ->
  (name = "onCreateWallet"%string /\ needs_wallet h = true /\
   solanaReady h = true /\ evmReady h = true /\
   isCreatingSolana h = false /\ isCreatingEvm h = false) \/
  (exists (w : wallet) (chain message : string) (wallets : list wallet),
     (chain = "solana"%string /\ wallets = solanaWallets h \/
      chain = "ethereum"%string /\ wallets = evmWallets h) /\
     In w wallets /\ walletClientType w = lit "privy" /\
     handler name o h =
     (logged_on_failure (DelegateWallet (address w) (lit chain))
        (delegateWallet_resolves o) message, Normal)).
Proof.
  rewrite buttons_DelegateActionButton. intros Hin Hd Hc.
  destruct (needs_wallet h) eqn:N.
  - left. destruct Hin as [<- | []].
    cbn in Hd, Hc. injection Hc as <-. injection Hd as Hd.
    apply orb_false_iff in Hd as [Hd H4]. apply orb_false_iff in Hd as [Hd H3].
    apply orb_false_iff in Hd as [H1 H2].
    apply negb_false_iff in H1, H2. auto 10.
  - right.
    assert (b = delegate_solana_button h \/ b = delegate_evm_button h) as [-> | ->].
    { destruct (isSolanaDelegated h) as [[|]|].
      - destruct (not_ (isEvmDelegated h)); [|destruct Hin].
        destruct Hin as [<- | []]. auto.
      - destruct Hin as [<- | []]. auto.
      - destruct Hin as [<- | []]. auto. }
    + cbn in Hd, Hc. injection Hc as <-. injection Hd as Hd.
      apply orb_false_iff in Hd as [_ Hd].
      destruct (solanaWalletToDelegate h) as [w|] eqn:W; [|discriminate Hd].
      apply wallet_to_delegate_Some in W as Hw. destruct Hw as [Hw1 Hw2].
      exists w, "solana"%string, "Error delegating Solana wallet:"%string, (solanaWallets h).
      repeat split; auto.
      change (handler "delegateSolana" o h) with (delegateSolana o h).
      unfold delegateSolana. rewrite W. apply delegate_click_Some.
    + cbn in Hd, Hc. injection Hc as <-. injection Hd as Hd.
      apply orb_false_iff in Hd as [_ Hd].
      destruct (evmWalletToDelegate h) as [w|] eqn:W; [|discriminate Hd].
      apply wallet_to_delegate_Some in W as Hw. destruct Hw as [Hw1 Hw2].
      exists w, "ethereum"%string, "Error delegating EVM wallet:"%string, (evmWallets h).
      repeat split; auto.
      change (handler "delegateEvm" o h) with (delegateEvm o h).
      unfold delegateEvm. rewrite W. apply delegate_click_Some.
Qed.

End DelegateFacts.

Lemma enabled_button_click_witness :
  (("delegateSolana" = "onCreateWallet")%string /\
   DelegateButton.needs_wallet Cases.hooks_both_wallets = true /\
   DelegateButton.solanaReady Cases.hooks_both_wallets = true /\
   DelegateButton.evmReady Cases.hooks_both_wallets = true /\
   DelegateButton.isCreatingSolana Cases.hooks_both_wallets = false /\
   DelegateButton.isCreatingEvm Cases.hooks_both_wallets = false) \/
  (exists (w : DelegateButton.wallet) (chain message : string)
          (wallets : list DelegateButton.wallet),
     (chain = "solana"%string /\
      wallets = DelegateButton.solanaWallets Cases.hooks_both_wallets \/
      chain = "ethereum"%string /\
      wallets = DelegateButton.evmWallets Cases.hooks_both_wallets) /\
     In w wallets /\ DelegateButton.walletClientType w = JS.lit "privy" /\
     DelegateButton.handler "delegateSolana" Cases.rejecting Cases.hooks_both_wallets =
     (Cases.logged_on_failure
        (DelegateButton.DelegateWallet (DelegateButton.address w) (JS.lit chain))
        (DelegateButton.delegateWallet_resolves Cases.rejecting) message,
      DelegateButton.Normal)).
Proof.
  apply (enabled_button_click Cases.hooks_both_wallets Cases.rejecting
           (DelegateButton.delegate_solana_button Cases.hooks_both_wallets)
           "delegateSolana").
  - left. reflexivity.
  - reflexivity.
  - reflexivity.
Defined.

Section DelegateHandlers.
Import JS Spec Cases React DelegateButton.

(** X13.  The click on the button that creates wallets never throws
    and always tries both creations, first Solana, then EVM, whichever
    wallet is missing and also when the first creation fails; a failure
    is logged, and each of the two progress flags is raised before its
    creation and lowered after it, whether the creation succeeded or
    not. *)
Theorem onCreateWallet_trace (o : outcomes) (h : hooks) :
  handler "onCreateWallet" o h =
  ([SetIsCreatingSolana true]
   ++ logged_on_failure CreateSolanaWallet (createSolanaWallet_resolves o)
        "Error creating Solana wallet:"
   ++ [SetIsCreatingSolana false; SetIsCreatingEvm true]
   ++ logged_on_failure CreateEvmWallet (createEvmWallet_resolves o)
        "Error creating EVM wallet:"
   ++ [SetIsCreatingEvm false],
   Normal).
Proof.
  change (handler "onCreateWallet" o h) with (onCreateWallet o).
  unfold onCreateWallet, logged_on_failure.
  destruct (createSolanaWallet_resolves o), (createEvmWallet_resolves o); reflexivity.
Qed.

(** X14.  The button that creates wallets names the chains that are
    ready and have no embedded wallet, at least one of them, and is
    disabled until both chains are ready, so it can be shown for a
    chain while it cannot be clicked; while a creation is under way it
    is disabled and reads "Creating wallet...". *)
Theorem create_button_label (h : hooks) :
  needs_wallet h = true ->
  (isCreatingSolana h || isCreatingEvm h = false ->
   vtexts (DelegateActionButton h) =
   [lit "Create "]
   ++ (if solanaReady h && lacks (solanaWalletToDelegate h) then [lit "Solana"] else [])
   ++ [lit " "]
   ++ (if evmReady h && lacks (evmWalletToDelegate h) then [lit "EVM"] else [])
   ++ [lit " wallet"] /\
   vtexts (DelegateActionButton h) <> [lit "Create "; lit " "; lit " wallet"] /\
   flag_of "disabled" (DelegateActionButton h) = Some (negb (solanaReady h && evmReady h))) /\
  (isCreatingSolana h || isCreatingEvm h = true ->
   vtexts (DelegateActionButton h) = [lit "Creating wallet..."] /\
   flag_of "disabled" (DelegateActionButton h) = Some true).
Proof.
  intros N. unfold DelegateActionButton. rewrite N. unfold needs_wallet in N.
  unfold create_button. split; intros C.
  - apply orb_false_iff in C as [C1 C2]. rewrite C1, C2. cbn [orb].
    split; [|split].
    + destruct (solanaReady h && lacks (solanaWalletToDelegate h)),
               (evmReady h && lacks (evmWalletToDelegate h)); reflexivity.
    + destruct (solanaReady h && lacks (solanaWalletToDelegate h)),
               (evmReady h && lacks (evmWalletToDelegate h));
        try discriminate N; intros E; discriminate E.
    + cbn. rewrite !orb_false_r, negb_andb. reflexivity.
  - destruct (isCreatingSolana h), (isCreatingEvm h); try discriminate C;
      cbn; rewrite ?orb_true_r; split; reflexivity.
Qed.

End DelegateHandlers.

Lemma create_button_label_witness :
  React.vtexts (DelegateButton.DelegateActionButton Cases.hooks_solana_only) =
  [JS.lit "Create "; JS.lit " "; JS.lit "EVM"; JS.lit " wallet"] /\
  React.vtexts (DelegateButton.DelegateActionButton Cases.hooks_solana_only) <>
  [JS.lit "Create "; JS.lit " "; JS.lit " wallet"] /\
  Cases.flag_of "disabled" (DelegateButton.DelegateActionButton Cases.hooks_solana_only)
  = Some false.
Proof.
  apply (proj1 (create_button_label Cases.hooks_solana_only eq_refl)).
  reflexivity.
Defined.

(* ===================================================================== *)
(** * More on the features of listen-data *)
(* ===================================================================== *)

Section ManifestMore.
Import Manifest.
Local Open Scope string_scope.

Lemma mem_In (x : string) (l : list string) : mem x l = true <-> In x l.
Proof.
  unfold mem. rewrite existsb_exists. split.
  - intros (y & Hy & E). apply String.eqb_eq in E. subst y. exact Hy.
  - intros H. exists x. split; [exact H | apply String.eqb_refl].
Qed.

Lemma expand_mono (l1 l2 : list string) :
  (forall x, mem x l1 = true -> mem x l2 = true) ->
  forall x, mem x (expand l1) = true -> mem x (expand l2) = true.
Proof.
  intros H x. rewrite !mem_expand, !orb_true_iff, !existsb_exists.
  intros [Hx | (f & Hf & Hd)]; [left; auto|].
  right. exists f. split; [|exact Hd]. apply mem_In, H, mem_In, Hf.
Qed.

Lemma iter_expand_mono (n : nat) (l1 l2 : list string) :
  (forall x, mem x l1 = true -> mem x l2 = true) ->
  forall x, mem x (Nat.iter n expand l1) = true -> mem x (Nat.iter n expand l2) = true.
Proof.
  intros H. induction n as [|n IH]; [exact H|].
  change (Nat.iter (S n) expand l1) with (expand (Nat.iter n expand l1)).
  change (Nat.iter (S n) expand l2) with (expand (Nat.iter n expand l2)).
  apply expand_mono, IH.
Qed.

Lemma accepted_subset (sel1 sel2 : selection) :
  (forall f, mem f (selected sel1) = true -> mem f (selected sel2) = true) ->
  accepted sel2 = true -> accepted sel1 = true.
Proof.
  unfold accepted. rewrite !forallb_forall. intros Hs H f Hf.
  apply H, mem_In, Hs, mem_In, Hf.
Qed.

(** X15.  Features are additive: a build of declared features that
    selects at least the features of another, and keeps the default
    features unless the other switches them off, has every feature of
    the other enabled, builds every binary the other builds and
    compiles in every dependency the other compiles in.  Selecting more
    declared features never takes a binary or a crate away; one
    undeclared name takes everything away. *)
Theorem features_additive (sel1 sel2 : selection) :
  accepted sel2 = true ->
  (forall f, mem f (selected sel1) = true -> mem f (selected sel2) = true) ->
  (no_default_features sel2 = true -> no_default_features sel1 = true) ->
  accepted sel1 = true /\
  (forall x, mem x (enabled sel1) = true -> mem x (enabled sel2) = true) /\
  (forall b, built sel1 b = true -> built sel2 b = true) /\
  (forall d, compiled_in sel1 d = true -> compiled_in sel2 d = true).
Proof.
  intros A2 Hs Hd.
  assert (accepted sel1 = true) as A1 by (eapply accepted_subset; eauto).
  assert (forall x, mem x (enabled sel1) = true -> mem x (enabled sel2) = true) as He.
  { rewrite !enabled_accepted by assumption.
    unfold closure. apply iter_expand_mono. intros x. unfold requested.
    rewrite !mem_app, !orb_true_iff. intros [H | H]; [|right; auto].
    destruct (no_default_features sel1) eqn:D1; [discriminate H|].
    destruct (no_default_features sel2) eqn:D2; [|left; exact H].
    specialize (Hd eq_refl). discriminate Hd. }
  split; [exact A1|]. split; [exact He|]. split.
  - intros b. unfold built. rewrite A1, A2. cbn [andb].
    rewrite !forallb_forall. intros H f Hf. apply He, H, Hf.
  - intros d. unfold compiled_in. rewrite A1, A2. cbn [andb].
    destruct (dependency d) as [optional|]; [|auto].
    rewrite !orb_true_iff. intros [H | H]; auto.
Qed.

Lemma features_additive_witness :
  built {| selected := ["rpc"]; no_default_features := false |} indexer = true /\
  compiled_in {| selected := ["rpc"]; no_default_features := false |}
    "yellowstone-grpc-proto" = true /\
  built {| selected := ["rpc"; "nonexistent"]; no_default_features := false |} indexer = false.
Proof.
  assert (forall f, mem f (selected default_selection) = true ->
                    mem f (selected {| selected := ["rpc"]; no_default_features := false |}) = true)
    as Hs by (intros f H; discriminate H).
  assert (no_default_features {| selected := ["rpc"]; no_default_features := false |} = true ->
          no_default_features default_selection = true) as Hd by (intros H; discriminate H).
  pose proof (features_additive default_selection
                {| selected := ["rpc"]; no_default_features := false |} eq_refl Hs Hd)
    as (_ & _ & Hb & Hc).
  split; [|split].
  - apply Hb. reflexivity.
  - apply Hc. reflexivity.
  - reflexivity.
Defined.

Lemma closure_default (sel : selection) :
  mem "default" (closure sel) = mem "default" (requested sel).
Proof. unfold closure. apply mem_iter_fixed. auto. Qed.

Lemma closure_closed (sel : selection) (f d : string) :
  mem f (closure sel) = true -> mem d (implied f) = true -> mem d (closure sel) = true.
Proof.
  intros Hf Hd.
  destruct (implied_cases f) as [[-> E] | [[-> _] | [[-> _] | E]]].
  - rewrite E in Hd. unfold mem in Hd. cbn [existsb] in Hd. rewrite orb_false_r in Hd.
    apply String.eqb_eq in Hd. subst d.
    rewrite closure_default in Hf.
    unfold closure. change (length features) with 3%nat.
    rewrite mem_iter_geyser, Hf. apply orb_true_r.
  - apply (closure_implied sel "geyser" d); auto.
  - apply (closure_implied sel "rpc" d); auto.
  - rewrite E in Hd. discriminate Hd.
Qed.

Lemma implied_declared (f d : string) :
  mem d (implied f) = true -> mem d declared_features = true.
Proof.
  destruct (implied_cases f) as [[_ ->] | [[_ ->] | [[_ ->] | ->]]]; intros H;
    [| | |discriminate H];
    apply mem_In in H; repeat (destruct H as [<- | H]; [reflexivity|]); destruct H.
Qed.

(** X16.  For a selection of declared features, the enabled features
    are the least set that holds what was requested and is closed under
    the feature table: everything requested is enabled, everything an
    enabled feature turns on is enabled (the three rounds of the
    resolution reach the fixed point), and nothing else is: every set
    with these two properties holds all enabled features; in
    particular every enabled name is [default] or a declared feature.
    For a refused selection nothing is enabled. *)
Theorem enabled_least_closed (sel : selection) :
  (accepted sel = true ->
   (forall x, mem x (requested sel) = true -> mem x (enabled sel) = true) /\
   (forall f d, mem f (enabled sel) = true -> mem d (implied f) = true ->
                mem d (enabled sel) = true) /\
   (forall P : string -> Prop,
       (forall x, mem x (requested sel) = true -> P x) ->
       (forall f d, P f -> mem d (implied f) = true -> P d) ->
       forall x, mem x (enabled sel) = true -> P x) /\
   (forall x, mem x (enabled sel) = true -> mem x declared_features = true)) /\
  (accepted sel = false -> forall x, mem x (enabled sel) = false).
Proof.
  split.
  - intros A. rewrite enabled_accepted by exact A.
    assert (forall P : string -> Prop,
               (forall x, mem x (requested sel) = true -> P x) ->
               (forall f d, P f -> mem d (implied f) = true -> P d) ->
               forall x, mem x (closure sel) = true -> P x) as Least.
    { intros P Hr Hc. unfold closure.
      induction (length features) as [|n IH]; [exact Hr|].
      change (Nat.iter (S n) expand (requested sel))
        with (expand (Nat.iter n expand (requested sel))).
      intros x. rewrite mem_expand, orb_true_iff, existsb_exists.
      intros [H | (f & Hf & Hd)]; [auto|].
      apply (Hc f x); [|exact Hd]. apply IH, mem_In, Hf. }
    split; [|split; [|split]].
    + intros x H. rewrite closure_unfold, !mem_expand, H. reflexivity.
    + apply closure_closed.
    + exact Least.
    + apply Least.
      * intros x. unfold requested. rewrite mem_app, orb_true_iff. intros [H | H].
        -- destruct (no_default_features sel); [discriminate H|].
           apply mem_In in H. destruct H as [<- | []]. reflexivity.
        -- unfold accepted in A. rewrite forallb_forall in A. apply A, mem_In, H.
      * intros f d _. apply implied_declared.
  - intros R x. unfold enabled. rewrite R. reflexivity.
Qed.

Lemma enabled_least_closed_witness :
  mem "yellowstone-grpc-proto" (enabled default_selection) = true /\
  (mem "rpc" (enabled default_selection) = true -> "rpc" <> "rpc") /\
  mem "nonexistent" (enabled {| selected := ["nonexistent"]; no_default_features := false |})
  = false.
Proof.
  pose proof (proj1 (enabled_least_closed default_selection) eq_refl)
    as (_ & Hclosed & Hleast & _).
  split; [|split].
  - apply (Hclosed "geyser"); reflexivity.
  - apply (Hleast (fun x => x <> "rpc")).
    + intros x H. cbn in H. rewrite orb_false_r in H. apply String.eqb_eq in H.
      subst x. discriminate.
    + intros f d Hf Hd ->. apply Hf.
      destruct (implied_cases f) as [[_ E] | [[_ E] | [[-> _] | E]]];
        [rewrite E in Hd; discriminate Hd | rewrite E in Hd; discriminate Hd
         | reflexivity | rewrite E in Hd; discriminate Hd].
  - apply (proj2 (enabled_least_closed
                    {| selected := ["nonexistent"]; no_default_features := false |})).
    reflexivity.
Defined.

Lemma dependency_optional (d : string) :
  dependency d = Some true <-> In d optional_dependencies.
Proof.
  unfold dependency. split.
  - destruct (List.find (fun x => String.eqb (fst x) d) dependencies) as [[n o]|] eqn:F;
      [|discriminate].
    cbn [snd]. intros [= ->]. apply find_some in F as [Hin E]. cbn [fst] in E.
    apply String.eqb_eq in E. subst n.
    unfold dependencies in Hin. cbn [In] in Hin.
    repeat (destruct Hin as [Hin | Hin];
            [first [discriminate Hin | injection Hin as <-; cbn; tauto]|]).
    destruct Hin.
  - intros H. cbn in H. repeat (destruct H as [<- | H]; [reflexivity|]). destruct H.
Qed.

(** X17.  In a build of declared features, an optional crate is
    compiled in exactly when it is selected by its own name or the
    feature that lists it is enabled, which is when the binary of that
    feature is built: the three rpc crates with [rpc-crawler], the two
    geyser crates with [indexer].  So a binary never lacks its crates,
    while a crate selected by name is compiled in without its binary.
    These five are all the optional dependencies; every other
    dependency of the table is compiled in, and a name that the table
    does not declare never is.  A refused selection compiles
    nothing. *)
Theorem optional_crates_compiled_in (sel : selection) (d : string) :
  (accepted sel = true ->
   (In d (implied "rpc") ->
    compiled_in sel d = mem d (selected sel) || built sel rpc_crawler) /\
   (In d (implied "geyser") ->
    compiled_in sel d = mem d (selected sel) || built sel indexer) /\
   (dependency d = Some false -> compiled_in sel d = true) /\
   (dependency d = None -> compiled_in sel d = false)) /\
  (dependency d = Some true <-> In d (implied "rpc") \/ In d (implied "geyser")) /\
  (accepted sel = false -> compiled_in sel d = false).
Proof.
  split; [|split].
  - intros A. split; [|split; [|split]].
    + intros Hd. rewrite built_rpc_crawler, closure_rpc by exact A.
      apply compiled_in_rpc_crate; assumption.
    + intros Hd. rewrite built_indexer by exact A.
      apply compiled_in_geyser_crate; assumption.
    + intros H. unfold compiled_in. rewrite A, H. reflexivity.
    + intros H. unfold compiled_in. rewrite A, H. reflexivity.
  - rewrite dependency_optional.
    change optional_dependencies with (implied "rpc" ++ implied "geyser")%list.
    apply in_app_iff.
  - apply compiled_in_refused.
Qed.

Lemma optional_crates_compiled_in_witness :
  compiled_in {| selected := ["carbon-rpc-transaction-crawler-datasource"];
                 no_default_features := false |}
    "carbon-rpc-transaction-crawler-datasource" = true /\
  built {| selected := ["carbon-rpc-transaction-crawler-datasource"];
           no_default_features := false |} rpc_crawler = false /\
  compiled_in default_selection "clickhouse" = true /\
  compiled_in default_selection "not-a-crate" = false /\
  compiled_in {| selected := ["nonexistent"]; no_default_features := false |} "clickhouse"
  = false.
Proof.
  split; [|split; [|split; [|split]]].
  - rewrite (proj1 (proj1 (optional_crates_compiled_in
                      {| selected := ["carbon-rpc-transaction-crawler-datasource"];
                         no_default_features := false |}
                      "carbon-rpc-transaction-crawler-datasource") eq_refl)).
    + reflexivity.
    + right. right. left. reflexivity.
  - reflexivity.
  - apply (proj1 (optional_crates_compiled_in default_selection "clickhouse") eq_refl).
    reflexivity.
  - apply (proj1 (optional_crates_compiled_in default_selection "not-a-crate") eq_refl).
    reflexivity.
  - apply (proj2 (proj2 (optional_crates_compiled_in
                    {| selected := ["nonexistent"]; no_default_features := false |}
                    "clickhouse"))).
    reflexivity.
Defined.

End ManifestMore.

Section HandlerSafety.
Import JS Spec Cases React DelegateButton.

Lemma delegate_click_None (o : outcomes) (chain message : string) :
  delegate_click o None chain message = ([ConsoleError (lit message)], Normal).
Proof. reflexivity. Qed.

Lemma delegate_click_calls (o : outcomes) (wallets : list wallet) (chain message : string)
    (a c : jsstring) :
  In (DelegateWallet a c) (fst (delegate_click o (wallet_to_delegate wallets) chain message)) ->
  exists w, In w wallets /\ walletClientType w = lit "privy" /\ a = address w /\ c = lit chain.
Proof.
  destruct (wallet_to_delegate wallets) as [w|] eqn:W.
  - rewrite delegate_click_Some. unfold logged_on_failure. cbn [fst].
    apply wallet_to_delegate_Some in W as [Hin Hp].
    intros [E | H].
    + injection E as <- <-. exists w. auto.
    + destruct (delegateWallet_resolves o); [destruct H|].
      destruct H as [E | []]. discriminate E.
  - rewrite delegate_click_None. cbn [fst]. intros [E | []]. discriminate E.
Qed.

(** X18.  No handler of the component throws, whatever the wallet
    functions do, and [delegateWallet] is only ever called for an
    embedded wallet: with the address of a wallet of the chain whose
    client type is privy, together with that chain.  Without such a
    wallet the click on a delegate button calls nothing: reading the
    address of the missing wallet throws inside the [try], and the
    error is logged. *)
Theorem handlers_delegate_embedded_only (name : string) (o : outcomes) (h : hooks) :
  snd (handler name o h) = Normal /\
  (forall a c, In (DelegateWallet a c) (fst (handler name o h)) ->
     exists w, (c = lit "solana" /\ In w (solanaWallets h) \/
                c = lit "ethereum" /\ In w (evmWallets h)) /\
               walletClientType w = lit "privy" /\ a = address w) /\
  (solanaWalletToDelegate h = None ->
   handler "delegateSolana" o h = ([ConsoleError (lit "Error delegating Solana wallet:")], Normal)) /\
  (evmWalletToDelegate h = None ->
   handler "delegateEvm" o h = ([ConsoleError (lit "Error delegating EVM wallet:")], Normal)).
Proof.
  split; [|split; [|split]].
  - unfold handler.
    destruct (String.eqb name "onCreateWallet").
    { unfold onCreateWallet.
      destruct (createSolanaWallet_resolves o), (createEvmWallet_resolves o); reflexivity. }
    destruct (String.eqb name "delegateSolana").
    { unfold delegateSolana. destruct (solanaWalletToDelegate h);
        [rewrite delegate_click_Some | rewrite delegate_click_None]; reflexivity. }
    destruct (String.eqb name "delegateEvm"); [|reflexivity].
    unfold delegateEvm. destruct (evmWalletToDelegate h);
      [rewrite delegate_click_Some | rewrite delegate_click_None]; reflexivity.
  - intros a c. unfold handler.
    destruct (String.eqb name "onCreateWallet").
    { unfold onCreateWallet.
      destruct (createSolanaWallet_resolves o), (createEvmWallet_resolves o);
        cbn; intros H; exfalso;
        repeat (destruct H as [H | H]; [discriminate H|]); exact H. }
    destruct (String.eqb name "delegateSolana").
    { unfold delegateSolana, solanaWalletToDelegate. intros H.
      apply delegate_click_calls in H as (w & Hin & Hp & -> & ->). exists w. auto. }
    destruct (String.eqb name "delegateEvm"); [|intros []].
    unfold delegateEvm, evmWalletToDelegate. intros H.
    apply delegate_click_calls in H as (w & Hin & Hp & -> & ->). exists w. auto.
  - intros W. change (handler "delegateSolana" o h) with (delegateSolana o h).
    unfold delegateSolana. rewrite W. apply delegate_click_None.
  - intros W. change (handler "delegateEvm" o h) with (delegateEvm o h).
    unfold delegateEvm. rewrite W. apply delegate_click_None.
Qed.

Lemma handlers_delegate_embedded_only_witness :
  handler "delegateEvm" rejecting hooks_solana_only
  = ([ConsoleError (lit "Error delegating EVM wallet:")], Normal) /\
  exists w, (lit "solana" = lit "solana" /\ In w (solanaWallets hooks_solana_only) \/
             lit "solana" = lit "ethereum" /\ In w (evmWallets hooks_solana_only)) /\
            walletClientType w = lit "privy" /\ address sample_wallet = address w.
Proof.
  split.
  - apply (proj2 (proj2 (proj2
             (handlers_delegate_embedded_only "delegateEvm" rejecting hooks_solana_only)))).
    reflexivity.
  - apply (proj1 (proj2
             (handlers_delegate_embedded_only "delegateSolana" rejecting hooks_solana_only))).
    left. reflexivity.
Defined.

End HandlerSafety.

(* ===================================================================== *)
(** * Strings through JSON.stringify and JSON.parse *)
(* ===================================================================== *)

Section StringRoundTrip.
Import JS Spec Cases PipelineStep.
Local Open Scope N_scope.
Context (en : engine).

Lemma hex_value_hex_digit (n : N) : n < 16 -> hex_value (hex_digit n) = Some n.
Proof.
  intros H.
  destruct n as [|p]; [reflexivity|].
  do 4 (destruct p as [p|p|]; try reflexivity; try lia).
Qed.

Lemma hex4_unicode_escape (c : code_unit) :
  c < 65536 ->
  hex4_value (hex_digit (c / 4096 mod 16)) (hex_digit (c / 256 mod 16))
             (hex_digit (c / 16 mod 16)) (hex_digit (c mod 16)) = Some c.
Proof.
  intros H. unfold hex4_value.
  rewrite !hex_value_hex_digit by (apply N.mod_upper_bound; discriminate).
  f_equal. zify. Z.to_euclidean_division_equations. lia.
Qed.

Lemma parse_string_literal (c : code_unit) (t : jsstring) :
  N.eqb c 34 = false -> N.eqb c 92 = false -> (c <? 32) = false ->
  parse_string (c :: t) =
  match parse_string t with Some (str, r) => Some (c :: str, r) | None => None end.
Proof. intros H1 H2 H3. cbn [parse_string]. rewrite H1, H2, H3. reflexivity. Qed.

Lemma parse_string_escape (e u : code_unit) (t : jsstring) :
  N.eqb e 117 = false -> escape_char e = Some u ->
  parse_string (92 :: e :: t) =
  match parse_string t with Some (str, r) => Some (u :: str, r) | None => None end.
Proof.
  intros H1 H2. cbn [parse_string].
  change (N.eqb 92 34) with false. change (N.eqb 92 92) with true. cbn iota.
  rewrite H1, H2. reflexivity.
Qed.

Lemma parse_string_unicode_escape (c : code_unit) (t : jsstring) :
  c < 65536 ->
  parse_string (unicode_escape c ++ t) =
  match parse_string t with Some (str, r) => Some (c :: str, r) | None => None end.
Proof.
  intros H. unfold unicode_escape. cbn [app parse_string].
  change (N.eqb 92 34) with false. change (N.eqb 92 92) with true.
  change (N.eqb 117 117) with true. cbn iota.
  rewrite hex4_unicode_escape by exact H. reflexivity.
Qed.

Lemma parse_string_quote_unit (c : code_unit) (t : jsstring) :
  parse_string (quote_unit c ++ t) =
  match parse_string t with Some (str, r) => Some (c :: str, r) | None => None end.
Proof.
  unfold quote_unit.
  destruct (N.eqb_spec c 8) as [-> | N8]; [apply parse_string_escape; reflexivity|].
  destruct (N.eqb_spec c 9) as [-> | N9]; [apply parse_string_escape; reflexivity|].
  destruct (N.eqb_spec c 10) as [-> | N10]; [apply parse_string_escape; reflexivity|].
  destruct (N.eqb_spec c 12) as [-> | N12]; [apply parse_string_escape; reflexivity|].
  destruct (N.eqb_spec c 13) as [-> | N13]; [apply parse_string_escape; reflexivity|].
  destruct (N.eqb_spec c 34) as [-> | N34]; [apply parse_string_escape; reflexivity|].
  destruct (N.eqb_spec c 92) as [-> | N92]; [apply parse_string_escape; reflexivity|].
  destruct ((c <? 32) || is_high_surrogate c || is_low_surrogate c) eqn:E.
  - apply parse_string_unicode_escape.
    unfold is_high_surrogate, is_low_surrogate in E.
    apply orb_true_iff in E as [E | E]; [apply orb_true_iff in E as [E | E]|].
    + apply N.ltb_lt in E. lia.
    + apply andb_true_iff in E as [_ E]. apply N.leb_le in E. lia.
    + apply andb_true_iff in E as [_ E]. apply N.leb_le in E. lia.
  - apply orb_false_iff in E as [E _]. apply orb_false_iff in E as [E _].
    cbn [app]. apply parse_string_literal; [apply N.eqb_neq | apply N.eqb_neq | ]; assumption.
Qed.

Lemma parse_string_surrogate (c : code_unit) (t : jsstring) :
  is_high_surrogate c = true \/ is_low_surrogate c = true ->
  parse_string (c :: t) =
  match parse_string t with Some (str, r) => Some (c :: str, r) | None => None end.
Proof.
  unfold is_high_surrogate, is_low_surrogate. intros H.
  assert (55296 <= c) as Hc.
  { destruct H as [H | H]; apply andb_true_iff in H as [H _]; apply N.leb_le in H; lia. }
  apply parse_string_literal; [apply N.eqb_neq | apply N.eqb_neq | apply N.ltb_ge]; lia.
Qed.

Lemma quote_units_cons (c d : code_unit) (s2 : jsstring) :
  quote_units (c :: d :: s2) =
  if is_high_surrogate c && is_low_surrogate d then c :: d :: quote_units s2
  else quote_unit c ++ quote_units (d :: s2).
Proof. reflexivity. Qed.

(** The body of a quoted string reads back as the string, up to the
    closing quotation mark. *)
Lemma parse_string_quote_units (s r : jsstring) :
  parse_string (quote_units s ++ 34 :: r) = Some (s, r).
Proof.
  remember (length s) as n eqn:Hn. revert s Hn.
  induction n as [n IH] using lt_wf_ind. intros s ->.
  destruct s as [|c [|d s2]].
  - reflexivity.
  - cbn [quote_units]. rewrite parse_string_quote_unit. reflexivity.
  - rewrite quote_units_cons.
    destruct (is_high_surrogate c && is_low_surrogate d) eqn:P.
    + apply andb_true_iff in P as [Pc Pd]. cbn [app].
      rewrite parse_string_surrogate by auto.
      rewrite parse_string_surrogate by auto.
      rewrite (IH (length s2) ltac:(simpl; lia) s2 eq_refl). reflexivity.
    + rewrite <- app_assoc, parse_string_quote_unit.
      rewrite (IH (length (d :: s2)) ltac:(simpl; lia) (d :: s2) eq_refl). reflexivity.
Qed.

Lemma JSON_parse_quote (s : jsstring) : JSON_parse (quote s) = Some (JString s).
Proof.
  unfold JSON_parse, parse_fuel, quote. cbn [app parse_value skip_ws].
  change (is_ws 34) with false. cbn iota.
  change (N.eqb 34 91) with false. change (N.eqb 34 123) with false.
  change (N.eqb 34 34) with true. cbn iota.
  rewrite parse_string_quote_units. reflexivity.
Qed.

(** X19.  What [formatError] returns for a string [error] field reads
    back as that string: [JSON.parse] of the returned text is the
    message, code unit for code unit, whatever quotation marks, control
    characters or unpaired surrogates it contains. *)
Theorem formatError_string_field_round_trip (error m : jsstring) (v : json) (s : jsstring) :
  includes error (lit "insufficient funds") = false ->
  includes error (lit "0x1771") = false ->
  brace_group error m -> JSON_parse m = Some v ->
  get_prop v (lit "error") = Some (JString s) -> s <> [] ->
  JSON_parse (formatError en error) = Some (JString s).
Proof.
  intros H1 H2 Hm Hv He Hs.
  rewrite formatError_unfold by assumption.
  apply regex_match_braces_Some in Hm. rewrite Hm, Hv, He.
  destruct s as [|c s]; [congruence|].
  cbn [truthy JSON_stringify]. apply JSON_parse_quote.
Qed.

End StringRoundTrip.

Section StringRoundTripWitness.
Import JS Spec Cases PipelineStep.

Lemma formatError_string_field_round_trip_witness :
  JSON_parse (formatError small_stack rpc_error_text) = Some (JString (lit "x")).
Proof.
  apply (formatError_string_field_round_trip small_stack rpc_error_text rpc_error_object
           (JObject [(lit "error", JString (lit "x"))]) (lit "x")); try reflexivity.
  - apply regex_match_braces_Some. reflexivity.
  - discriminate.
Defined.

End StringRoundTripWitness.
